(** * nmmd: the multi-strategy dispatch engine

    A shallow embedding of [nmmd/base.py], [nmmd/ext/regex.py] and of the
    two helpers of [hercules] the engine imports ([CachedAttr] and
    [NoClobberDict]), followed by the properties of the engine.

    Conventions of the embedding:
    - a Python call that may raise returns a [result];
    - a generator object is a [generator]: a suspended body that runs
      against the dispatcher's state when it is first advanced and then
      unfolds as a finite [trace] of yields closed by a normal return or by
      an exception;
    - the dispatcher instance is a record holding its instance attributes
      ([inst], the two [CachedAttr] slots) and the constructor flags;
    - the owning object and the Python runtime (type hierarchy, [isinstance],
      the [builtins], [types], [collections] and [re] modules) are not code
      of the engine: they are records of what the engine observes of them;
    - [pickle] is modelled by what it refuses and by what it gives back:
      an instance comes back as another object. *)

From stdpp Require Import base option strings list gmap fin_maps fin_sets.
From Stdlib Require Import ZArith Lia Ascii.

Open Scope string_scope.
Open Scope Z_scope.
Open Scope list_scope.

(** ** Exceptions and results *)

Inductive exn : Type :=
| DispatchError
| DispatchInterrupt
| ImplementationError
| KeyClobberError
| RuntimeError
| AttributeError
| TypeError
| IndexError
| ReError
| UserError (code : nat).

Global Instance exn_eq_dec : EqDecision exn.
Proof. solve_decision. Defined.

Inductive result (A : Type) : Type :=
| Ok (a : A)
| Err (e : exn).
Arguments Ok {A} a.
Arguments Err {A} e.

Global Instance result_ret : MRet result := λ A a, Ok a.

Global Instance result_bind : MBind result := λ A B f r,
  match r with
  | Ok a => f a
  | Err e => Err e
  end.

Global Instance result_fmap : FMap result := λ A B f r,
  match r with
  | Ok a => Ok (f a)
  | Err e => Err e
  end.

(** ** Python values seen by the engine *)

(** A compiled pattern object: [re.compile(pattern, flags)]. *)
Record regex : Type := Regex { re_pattern : string; re_flags : Z }.

Global Instance regex_eq_dec : EqDecision regex.
Proof. solve_decision. Defined.

(** The identity of an instance of a user class. [Created n] is an object
    the program made itself; [Unpickled source] is an object that
    [pickle.loads] built from the pickle of [source]: a new object, never
    the pickled one. The copies of one object that several calls of
    [pickle.loads] build are not told apart: where a statement compares a
    copy with a value of the caller, the caller's values hold no copy. *)
Inductive object_id : Type :=
| Created (n : nat)
| Unpickled (source : object_id).

Global Instance object_id_eq_dec : EqDecision object_id.
Proof. solve_decision. Defined.

(** [VMatch r text] is the match object of [r.match(text)]; [VObj names id]
    is the instance [id] of a user class whose [__mro__] (without [object])
    carries the class names [names]. The class defines neither [__eq__] nor
    [__reduce__]: two instances are equal when they are the same object. *)
#[warnings="-register-all"]
Inductive value : Type :=
| VNone
| VInt (z : Z)
| VStr (s : string)
| VTuple (items : list value)
| VList (items : list value)
| VMatch (r : regex) (text : string)
| VObj (classes : list string) (ident : object_id).

Section value_induction.
Variable P : value → Prop.
Hypothesis HNone : P VNone.
Hypothesis HInt : ∀ z, P (VInt z).
Hypothesis HStr : ∀ s, P (VStr s).
Hypothesis HTuple : ∀ items, Forall P items → P (VTuple items).
Hypothesis HList : ∀ items, Forall P items → P (VList items).
Hypothesis HMatch : ∀ r text, P (VMatch r text).
Hypothesis HObj : ∀ classes ident, P (VObj classes ident).

Fixpoint value_nested_ind (v : value) : P v :=
  let fix all (vs : list value) : Forall P vs :=
    match vs with
    | [] => Forall_nil_2 P
    | x :: rest => Forall_cons_2 P x rest (value_nested_ind x) (all rest)
    end in
  match v with
  | VNone => HNone
  | VInt z => HInt z
  | VStr s => HStr s
  | VTuple items => HTuple items (all items)
  | VList items => HList items (all items)
  | VMatch r text => HMatch r text
  | VObj classes ident => HObj classes ident
  end.
End value_induction.

(** Python's [==] on the values above. *)
Fixpoint value_eqb (x y : value) : bool :=
  let fix items_eqb (xs ys : list value) : bool :=
    match xs, ys with
    | [], [] => true
    | a :: xs', b :: ys' => value_eqb a b && items_eqb xs' ys'
    | _, _ => false
    end in
  match x, y with
  | VNone, VNone => true
  | VInt a, VInt b => bool_decide (a = b)
  | VStr a, VStr b => bool_decide (a = b)
  | VTuple a, VTuple b => items_eqb a b
  | VList a, VList b => items_eqb a b
  | VMatch r s, VMatch r' s' => bool_decide (r = r') && bool_decide (s = s')
  | VObj a i, VObj b j => bool_decide (a = b) && bool_decide (i = j)
  | _, _ => false
  end.

Definition items_eqb : list value → list value → bool :=
  fix items_eqb (xs ys : list value) : bool :=
    match xs, ys with
    | [] , [] => true
    | a :: xs', b :: ys' => value_eqb a b && items_eqb xs' ys'
    | _, _ => false
    end.

Lemma items_eqb_spec (xs : list value) :
  Forall (λ x, ∀ y, value_eqb x y = true ↔ x = y) xs →
  ∀ ys, items_eqb xs ys = true ↔ xs = ys.
Proof.
  induction 1 as [|x xs Hx _ IH]; intros [|y ys]; simpl; try (split; congruence).
  rewrite andb_true_iff, Hx, IH. split; [intros [-> ->]; done | by inversion 1].
Qed.

Lemma value_eqb_spec (x y : value) : value_eqb x y = true ↔ x = y.
Proof.
  revert y. induction x as [| | |xs IH|xs IH| |] using value_nested_ind;
    intros [] ; simpl; try (split; congruence).
  - rewrite bool_decide_eq_true. split; congruence.
  - rewrite bool_decide_eq_true. split; congruence.
  - change (items_eqb xs items = true ↔ VTuple xs = VTuple items).
    rewrite (items_eqb_spec xs IH). split; congruence.
  - change (items_eqb xs items = true ↔ VList xs = VList items).
    rewrite (items_eqb_spec xs IH). split; congruence.
  - rewrite andb_true_iff, !bool_decide_eq_true. split; [intros [-> ->]; done | by inversion 1].
  - rewrite andb_true_iff, !bool_decide_eq_true. split; [intros [-> ->]; done | by inversion 1].
Qed.

Global Instance value_eq_dec : EqDecision value.
Proof.
  intros x y. destruct (value_eqb x y) eqn:E.
  - left. by apply value_eqb_spec.
  - right. intros H. apply value_eqb_spec in H. congruence.
Defined.

(** Keyword arguments: a Python [dict] with [str] keys. *)
Abbreviation kwargs := (gmap string value).

(** Identity of the function behind a bound method of the owner. Two
    attribute names bound to the same function give equal bound methods. *)
Inductive method : Type := BoundMethod (func : string).

Global Instance method_eq_dec : EqDecision method.
Proof. solve_decision. Defined.

(** ** Generators *)

(** What a generator does once it runs: a finite sequence of yields, closed
    by a normal return ([Stop], seen by the consumer as [StopIteration]) or
    by an exception leaving the body ([Raise]). *)
Inductive trace (A : Type) : Type :=
| Stop
| Raise (e : exn)
| Yield (a : A) (rest : trace A).
Arguments Stop {A}.
Arguments Raise {A} e.
Arguments Yield {A} a rest.

(** The values a consumer receives when it drains the generator. *)
Fixpoint yields {A} (t : trace A) : list A :=
  match t with
  | Stop | Raise _ => []
  | Yield a rest => a :: yields rest
  end.

(** How the generator ends: [None] for a normal return. *)
Fixpoint raised {A} (t : trace A) : option exn :=
  match t with
  | Stop => None
  | Raise e => Some e
  | Yield _ rest => raised rest
  end.

(** [yield from t; k] and statement sequencing inside a generator body. *)
Fixpoint tseq {A} (t k : trace A) : trace A :=
  match t with
  | Stop => k
  | Raise e => Raise e
  | Yield a rest => Yield a (tseq rest k)
  end.

(** [for x in xs: yield x]. *)
Definition yield_all {A} (xs : list A) : trace A :=
  foldr Yield Stop xs.

(** [for x in t: yield f(x)]. *)
Fixpoint tmap {A B} (f : A → B) (t : trace A) : trace B :=
  match t with
  | Stop => Stop
  | Raise e => Raise e
  | Yield a rest => Yield (f a) (tmap f rest)
  end.

(** [for x in t: y = f(x); if y is not None: yield y]. *)
Fixpoint tomap {A B} (f : A → option B) (t : trace A) : trace B :=
  match t with
  | Stop => Stop
  | Raise e => Raise e
  | Yield a rest =>
      match f a with
      | Some b => Yield b (tomap f rest)
      | None => tomap f rest
      end
  end.

(** [for x in xs: yield from body(x)]. *)
Fixpoint for_each {A B} (xs : list A) (body : A → trace B) : trace B :=
  match xs with
  | [] => Stop
  | x :: rest => tseq (body x) (for_each rest body)
  end.

(** A generator-valued call that itself raised, seen from a [yield from] or
    a [for] statement of the calling body. *)
Definition iterate {A} (r : result (trace A)) : trace A :=
  match r with
  | Ok t => t
  | Err e => Raise e
  end.

(** The decorator [dedupe]: a generator that forwards each result of the
    wrapped one unless it is already in the set [seen]. *)
Fixpoint dedupe_from {A} `{EqDecision A} (seen : list A) (t : trace A) : trace A :=
  match t with
  | Stop => Stop
  | Raise e => Raise e
  | Yield a rest =>
      if decide (a ∈ seen) then dedupe_from seen rest
      else Yield a (dedupe_from (a :: seen) rest)
  end.

Definition dedupe {A} `{EqDecision A} (t : trace A) : trace A :=
  dedupe_from [] t.

(** The first occurrences of a list, in order: what [dedupe] keeps. *)
Fixpoint first_occurrences {A} `{EqDecision A} (seen l : list A) : list A :=
  match l with
  | [] => []
  | a :: rest =>
      if decide (a ∈ seen) then first_occurrences seen rest
      else a :: first_occurrences (a :: seen) rest
  end.

(** ** hercules.dict.NoClobberDict *)

(** [NoClobberDict.update(otherdict)] as [apply_handler] calls it (no keyword
    arguments): the keys present on both sides must carry equal values,
    then [dict.update] lets [otherdict] win. *)
Definition dupes (self otherdict : kwargs) : gset string :=
  dom otherdict ∩ dom self.

Definition clobbers (self otherdict : kwargs) : bool :=
  existsb (λ dupe, bool_decide (self !! dupe ≠ otherdict !! dupe))
          (elements (dupes self otherdict)).

Definition NoClobberDict_update (self otherdict : kwargs) : result kwargs :=
  if clobbers self otherdict then Err KeyClobberError
  else Ok (otherdict ∪ self).

(** ** The owning object and the runtime *)

(** ** pickle *)

(** What [pickle] refuses: a match object, at any depth ([TypeError]). *)
Fixpoint picklable (v : value) : bool :=
  match v with
  | VMatch _ _ => false
  | VTuple items | VList items => forallb picklable items
  | VNone | VInt _ | VStr _ | VObj _ _ => true
  end.

(** The value [pickle.loads] rebuilds from the pickle of [v]: equal to [v]
    for numbers, strings and containers of them; an instance is rebuilt as
    a new object of the same class. *)
Fixpoint unpickled (v : value) : value :=
  match v with
  | VTuple items => VTuple (unpickled <$> items)
  | VList items => VList (unpickled <$> items)
  | VObj classes ident => VObj classes (Unpickled ident)
  | VNone | VInt _ | VStr _ | VMatch _ _ => v
  end.

(** A registry key: the bytes [pickle.dumps((args, kwargs))], kept as the
    pair that was pickled. *)
Definition invoc : Type := list value * kwargs.

Definition dumps (args : list value) (kw : kwargs) : result invoc :=
  if forallb picklable (args ++ (map_to_list kw).*2)
  then Ok (args, kw) else Err TypeError.

Definition loads (i : invoc) : list value * kwargs :=
  (unpickled <$> i.1, unpickled <$> i.2).

(** [Dispatcher.dump_invoc(self, args..., kwargs...)] as [register] calls
    it: a keyword named [self] collides with the bound instance. *)
Definition dump_invoc (args : list value) (kw : kwargs) : result invoc :=
  if decide ("self" ∈ dom kw) then Err TypeError else dumps args kw.

(** A candidate produced by [gen_methods]: a bare method, or a tuple
    [(method,)], [(method, args)] or [(method, args, kwargs)]. *)
Inductive method_data : Type :=
| MBare (m : method)
| MTuple1 (m : method)
| MTuple2 (m : method) (margs : list value)
| MTuple3 (m : method) (margs : list value) (mkw : kwargs).

(** The value of [dispatch_data]. [Dispatcher.prepare] returns the registry
    list itself, not a copy: [PRegistry] is that alias. *)
Inductive prepared : Type :=
| PRegistry
| PCompiled (data : list (regex * string)).

Record pyclass : Type := PyClass { cls_module : string; cls_name : string }.

Global Instance pyclass_eq_dec : EqDecision pyclass.
Proof. solve_decision. Defined.

(** What a name of [__builtins__] is bound to, as [check_basetype] uses it:
    a class, or an object that is no class (a function, a constant other
    than [None]), which [isinstance] refuses as its second argument. *)
Inductive basetype : Type :=
| AClass (c : pyclass)
| NotAClass.

(** The owner instance, as the engine reads it: [attr name] is
    [getattr(inst, name, None)]. *)
Record owner : Type := Owner { attr : string → option method }.

(** What calling a bound method of the owner does. [call] is the plain call
    [method(args, kwargs)] of a handler; the [run_*] fields read the same
    call at the type the engine expects when the method replaces an engine
    operation (see [try_delegation]). *)
Record behaviour : Type := Behaviour {
  call : method → list value → kwargs → result value;
  run_register : method → string → list value → kwargs → result unit;
  run_prepare : method → result prepared;
  run_gen_methods : method → list value → kwargs → result (trace method_data);
  run_get_method : method → list value → kwargs → result method_data;
  run_dispatch : method → list value → kwargs → result value;
  run_gen_dispatch : method → list value → kwargs → result (trace value);
  run_apply_handler : method → method_data → list value → kwargs → result value;
  run_gen_method_keys : method → list value → kwargs → result (trace string);
  run_gen_generic : method → result (trace method);
  run_check_basetype : method → value → string → option basetype → result (trace method);
  run_get_text : method → list value → kwargs → result value
}.

(** What the engine reads of the Python runtime. [type(token).__mro__] is
    [type_of token] followed by [ancestors token], which ends with [object]
    and is empty when the type is [object] itself. [iter_set names] is the order in which a [for] loop visits the
    set built from [names], which Python leaves unspecified. *)
Record runtime : Type := Runtime {
  type_of : value → pyclass;
  ancestors : value → list pyclass;
  isinstance : value → pyclass → bool;
  builtins_get : string → option basetype;
  types_getattr : string → option pyclass;
  collections_getattr : string → option pyclass;
  iter_set : list string → list string;
  re_compile : list value → kwargs → result regex;
  re_match : regex → string → bool
}.

(** ** The dispatcher instance *)

(** [Dispatcher], [TypeDispatcher] and [RegexDispatcher]. *)
Inductive dispatcher_class : Type := SignatureD | TypeD | RegexD.

Global Instance dispatcher_class_eq_dec : EqDecision dispatcher_class.
Proof. solve_decision. Defined.

(** The attribute [inst]: absent until [__get__] runs, then the owner
    instance, or [None] when the dispatcher was reached through the class. *)
Inductive binding : Type :=
| Unbound
| Bound (o : option owner).

Record dispatcher : Type := Dispatcher {
  cls : dispatcher_class;
  try_delegation : bool;
  delegator_prefix : option string;
  method_prefix : string;
  inst : binding;
  registry_slot : option (list (invoc * string));
  dispatch_data_slot : option prepared;
  prepare_calls : nat
}.

(** [Dispatcher.__init__(delegate=True, prefix=None)]; [prepare_calls] is a
    ghost counter of the calls of [self.prepare()]. *)
Definition new_dispatcher (c : dispatcher_class) (delegate : bool)
    (prefix : option string) : dispatcher :=
  Dispatcher c delegate prefix "handle_" Unbound None None 0.

Definition set_inst (b : binding) (self : dispatcher) : dispatcher :=
  Dispatcher (cls self) (try_delegation self) (delegator_prefix self)
    (method_prefix self) b (registry_slot self) (dispatch_data_slot self)
    (prepare_calls self).

Definition set_registry (r : option (list (invoc * string))) (self : dispatcher)
    : dispatcher :=
  Dispatcher (cls self) (try_delegation self) (delegator_prefix self)
    (method_prefix self) (inst self) r (dispatch_data_slot self)
    (prepare_calls self).

Definition set_dispatch_data (p : option prepared) (self : dispatcher)
    : dispatcher :=
  Dispatcher (cls self) (try_delegation self) (delegator_prefix self)
    (method_prefix self) (inst self) (registry_slot self) p
    (prepare_calls self).

Definition count_prepare (self : dispatcher) : dispatcher :=
  Dispatcher (cls self) (try_delegation self) (delegator_prefix self)
    (method_prefix self) (inst self) (registry_slot self)
    (dispatch_data_slot self) (S (prepare_calls self)).

(** [Dispatcher.__get__(inst, cls)]. *)
Definition __get__ (o : option owner) (self : dispatcher) : dispatcher :=
  set_inst (Bound o) self.

(** [del dispatcher.dispatch_data]: the owner invalidating the cache. *)
Definition del_dispatch_data (self : dispatcher) : dispatcher :=
  set_dispatch_data None self.

(** A stateful call on the dispatcher, and a generator object: its body has
    not started; advancing it for the first time runs it against the state
    the dispatcher then has. *)
Definition call_on (A : Type) : Type := dispatcher → result A * dispatcher.
Definition generator (A : Type) : Type := dispatcher → trace A * dispatcher.

(** Advancing a generator object once from its start: [next(g)]. *)
Inductive advanced (A : Type) : Type :=
| Yielded (a : A)
| StopIteration
| Raised (e : exn).
Arguments Yielded {A} a.
Arguments StopIteration {A}.
Arguments Raised {A} e.

Definition next {A} (g : generator A) (self : dispatcher) : advanced A * dispatcher :=
  match g self with
  | (Yield a _, self') => (Yielded a, self')
  | (Stop, self') => (StopIteration, self')
  | (Raise e, self') => (Raised e, self')
  end.

Definition pure_generator {A} (t : trace A) : generator A := λ self, (t, self).

(** [self.inst], and [getattr(x, name, None)] / [getattr(x, name)] on it. *)
Definition self_inst (self : dispatcher) : result (option owner) :=
  match inst self with
  | Unbound => Err AttributeError
  | Bound o => Ok o
  end.

Definition getattr_default (o : option owner) (name : string) : option method :=
  o ≫= λ ow, attr ow name.

Definition getattr (o : option owner) (name : string) : result method :=
  match getattr_default o name with
  | Some m => Ok m
  | None => Err AttributeError
  end.

(** ** hercules.decorators.CachedAttr *)

(** A non-data descriptor: once the value is stored in the instance, the
    instance attribute shadows the descriptor and [method] is not run again.
    Nothing is stored when [method] raises. *)
Definition CachedAttr {A} (slot : dispatcher → option A)
    (store : option A → dispatcher → dispatcher)
    (method : call_on A) : call_on A := λ self,
  match slot self with
  | Some v => (Ok v, self)
  | None =>
      match method self with
      | (Ok v, self') => (Ok v, store (Some v) self')
      | (Err e, self') => (Err e, self')
      end
  end.

(** ** nmmd.base.try_delegation *)

(** The method of the owner that replaces the engine operation [name], when
    delegation is on and the owner defines one. *)
Definition delegate (self : dispatcher) (name : string) : option method :=
  if try_delegation self then
    match inst self with
    | Bound (Some o) => attr o (default "" (delegator_prefix self) +:+ name)
    | _ => None
    end
  else None.

Definition delegated {R} (self : dispatcher) (name : string)
    (func : method → R) (method : R) : R :=
  match delegate self name with
  | Some f => func f
  | None => method
  end.

(** ** nmmd.base.Dispatcher *)

Section engine.
Context (RT : runtime) (PY : behaviour).

(** [registry]: a [CachedAttr] whose method returns a fresh empty list. *)
Definition registry : call_on (list (invoc * string)) :=
  CachedAttr registry_slot set_registry (λ self, (Ok [], self)).

(** [self.registry] where it is read: the method cannot raise. *)
Definition read_registry (self : dispatcher) : list (invoc * string) * dispatcher :=
  match registry self with
  | (Ok reg, self') => (reg, self')
  | (Err _, self') => ([], self')
  end.

(** [register(method, args, kwargs)]: [name] is [method.__name__]. The
    arguments are pickled before [self.registry] is read; the append
    mutates the cached list in place. *)
Definition register (name : string) (args : list value) (kw : kwargs)
    : call_on unit := λ self,
  delegated self "register"
    (λ f, (run_register PY f name args kw, self))
    (match dump_invoc args kw with
     | Err e => (Err e, self)
     | Ok invoc_ =>
         let '(reg, self') := read_registry self in
         (Ok (), set_registry (Some (reg ++ [(invoc_, name)])) self')
     end).

(** The decorator [dispatcher(...)] applied to a method. *)
Definition decorate (name : string) (args : list value) (kw : kwargs)
    : call_on unit :=
  register name args kw.

(** [Dispatcher.prepare]: [return self.registry]. *)
Definition Dispatcher_prepare : call_on prepared := λ self,
  let '(_, self') := read_registry self in (Ok PRegistry, self').

(** [RegexDispatcher.prepare]. *)
Fixpoint compile_registry (reg : list (invoc * string))
    : result (list (regex * string)) :=
  match reg with
  | [] => Ok []
  | (i, methodname) :: rest =>
      let '(args, kw) := loads i in
      rgx ← re_compile RT args kw;
      data ← compile_registry rest;
      Ok ((rgx, methodname) :: data)
  end.

Definition RegexDispatcher_prepare : call_on prepared := λ self,
  let '(reg, self') := read_registry self in
  (PCompiled <$> compile_registry reg, self').

(** [self.prepare()]: delegation first, then the method of the class. *)
Definition prepare : call_on prepared := λ self,
  delegated (count_prepare self) "prepare"
    (λ f, (run_prepare PY f, count_prepare self))
    (match cls self with
     | RegexD => RegexDispatcher_prepare (count_prepare self)
     | SignatureD | TypeD => Dispatcher_prepare (count_prepare self)
     end).

(** [BaseDispatcher.dispatch_data]. *)
Definition dispatch_data : call_on prepared :=
  CachedAttr dispatch_data_slot set_dispatch_data (λ self,
    match prepare self with
    | (Err RuntimeError, self') => (Err ImplementationError, self')
    | other => other
    end).

(** [Dispatcher.gen_methods]: the body of the generator. [args] and
    [kwargs] are rebound by the loop, so the generic handler is reached
    only with the call's own arguments. *)
Fixpoint replay_registry (o : result (option owner))
    (reg : list (invoc * string)) : trace method_data :=
  match reg with
  | [] => Stop
  | (i, methodname) :: rest =>
      let '(args, kw) := loads i in
      match o ≫= λ ob, getattr ob methodname with
      | Ok m => Yield (MTuple3 m args kw) (replay_registry o rest)
      | Err e => Raise e
      end
  end.

Definition Dispatcher_gen_methods (args : list value) (kw : kwargs)
    : generator method_data := λ self,
  let '(reg, self') := read_registry self in
  (tseq (replay_registry (self_inst self') reg)
     (match reg with
      | _ :: _ => Stop
      | [] =>
          match self_inst self' with
          | Err e => Raise e
          | Ok o =>
              match getattr_default o "generic_handler" with
              | Some generic_handler =>
                  Yield (MTuple3 generic_handler args kw) (Raise DispatchError)
              | None => Raise DispatchError
              end
          end
      end),
   self').

(** ** nmmd.base.TypeDispatcher *)

Definition abc_types : list string :=
  ["Hashable"; "Iterable"; "Iterator"; "Sized"; "Container"; "Callable";
   "Set"; "MutableSet"; "Mapping"; "MutableMapping"; "MappingView";
   "KeysView"; "ItemsView"; "ValuesView"; "Sequence"; "MutableSequence";
   "ByteString"].

Definition interp_types : list string :=
  ["BuiltinFunctionType"; "BuiltinMethodType"; "CodeType";
   "DynamicClassAttribute"; "FrameType"; "FunctionType"; "GeneratorType";
   "GetSetDescriptorType"; "LambdaType"; "MappingProxyType";
   "MemberDescriptorType"; "MethodType"; "ModuleType"; "SimpleNamespace";
   "TracebackType"].

Definition generic_handler_aliases : list string :=
  ["handle_anything"; "generic_handler"; "generic_handle"].

(** [type(token).__mro__]. *)
Definition mro (token : value) : list pyclass :=
  type_of RT token :: ancestors RT token.

(** [TypeDispatcher.gen_method_keys]: the names of [__mro__[:-1]]. *)
Definition TypeDispatcher_gen_method_keys (args : list value) : trace string :=
  match args with
  | [] => Raise IndexError
  | token :: _ => yield_all (cls_name <$> removelast (mro token))
  end.

Definition gen_method_keys (self : dispatcher) (args : list value)
    (kw : kwargs) : trace string :=
  delegated self "gen_method_keys"
    (λ f, iterate (run_gen_method_keys PY f args kw))
    (TypeDispatcher_gen_method_keys args).

(** The lookup [getattr(self.inst, self._method_prefix + name, None)] made
    inside a loop body: [self.inst] is read at each turn. *)
Definition lookup_handlers (self : dispatcher) (names : list string)
    : trace method :=
  for_each names (λ name,
    match self_inst self with
    | Err e => Raise e
    | Ok o =>
        match getattr_default o (method_prefix self +:+ name) with
        | Some m => Yield m Stop
        | None => Stop
        end
    end).

(** [TypeDispatcher.check_basetype]: [isinstance(token, basetype)] raises
    [TypeError] when [basetype] is no class. *)
Definition TypeDispatcher_check_basetype (self : dispatcher) (token : value)
    (basetype_name : string) (basetype_ : option basetype) : trace method :=
  match basetype_ with
  | None => Stop
  | Some NotAClass => Raise TypeError
  | Some (AClass bt) =>
      if isinstance RT token bt
      then lookup_handlers self [basetype_name; cls_name bt]
      else Stop
  end.

Definition check_basetype (self : dispatcher) (token : value)
    (basetype_name : string) (basetype : option basetype) : trace method :=
  delegated self "check_basetype"
    (λ f, iterate (run_check_basetype PY f token basetype_name basetype))
    (TypeDispatcher_check_basetype self token basetype_name basetype).

(** [TypeDispatcher.gen_generic]: the prefix is not applied here. *)
Definition TypeDispatcher_gen_generic (self : dispatcher) : trace method :=
  for_each generic_handler_aliases (λ alias,
    match self_inst self with
    | Err e => Raise e
    | Ok o =>
        match getattr_default o alias with
        | Some generic_handler => Yield generic_handler Stop
        | None => Stop
        end
    end).

Definition gen_generic (self : dispatcher) : trace method :=
  delegated self "gen_generic"
    (λ f, iterate (run_gen_generic PY f))
    (TypeDispatcher_gen_generic self).

(** The fallbacks of [gen_methods], after the walk of the ancestors:
    built-in types, then [types], then [collections], then the generic
    handler. *)
Definition fallbacks (self : dispatcher) (token : value) : trace method :=
  let typename := cls_name (type_of RT token) in
  tseq (check_basetype self token typename (builtins_get RT typename))
 (tseq (for_each (iter_set RT interp_types) (λ basetype_name,
          check_basetype self token basetype_name
            (AClass <$> types_getattr RT basetype_name)))
 (tseq (for_each (iter_set RT abc_types) (λ basetype_name,
          check_basetype self token basetype_name
            (AClass <$> collections_getattr RT basetype_name)))
       (gen_generic self))).

(** The walk of the ancestors: the first loop of [gen_methods]. *)
Definition ancestor_walk (self : dispatcher) (o : option owner)
    (args : list value) (kw : kwargs) : trace method :=
  tomap (λ method_key, getattr_default o (method_prefix self +:+ method_key))
        (gen_method_keys self args kw).

(** [TypeDispatcher.gen_methods] before and after [@dedupe]. *)
Definition TypeDispatcher_gen_methods_undeduped (self : dispatcher)
    (args : list value) (kw : kwargs) : trace method :=
  match args with
  | [] => Raise IndexError
  | token :: _ =>
      match self_inst self with
      | Err e => Raise e
      | Ok o => tseq (ancestor_walk self o args kw) (fallbacks self token)
      end
  end.

Definition TypeDispatcher_gen_methods (args : list value) (kw : kwargs)
    : generator method_data := λ self,
  (tmap MBare (dedupe (TypeDispatcher_gen_methods_undeduped self args kw)),
   self).

(** ** nmmd.ext.regex.RegexDispatcher *)

(** [get_text(self, text)] called as [self.get_text(args..., kwargs...)]:
    any other shape of arguments is a [TypeError] of the call. *)
Definition RegexDispatcher_get_text (args : list value) (kw : kwargs)
    : result value :=
  match args with
  | [text] => if decide (kw = ∅) then Ok text else Err TypeError
  | [] =>
      match kw !! "text" with
      | Some text => if decide (dom kw = {["text"]}) then Ok text else Err TypeError
      | None => Err TypeError
      end
  | _ => Err TypeError
  end.

Definition get_text (self : dispatcher) (args : list value) (kw : kwargs)
    : result value :=
  delegated self "get_text"
    (λ f, run_get_text PY f args kw)
    (RegexDispatcher_get_text args kw).

(** [rgx.match(text)]: a match object or [None]; a text that is not a
    [str] is refused by [re]. *)
Definition rgx_match (rgx : regex) (text : value) : result (option value) :=
  match text with
  | VStr s => Ok (if re_match RT rgx s then Some (VMatch rgx s) else None)
  | _ => Err TypeError
  end.

(** The loop of [RegexDispatcher.gen_methods] over [dispatch_data]. *)
Fixpoint match_patterns (o : result (option owner)) (text : value)
    (data : list (regex * string)) (k : trace method_data) : trace method_data :=
  match data with
  | [] => k
  | (rgx, methodname) :: rest =>
      match rgx_match rgx text with
      | Err e => Raise e
      | Ok None => match_patterns o text rest k
      | Ok (Some matchobj) =>
          match o ≫= λ ob, getattr ob methodname with
          | Err e => Raise e
          | Ok m => Yield (MTuple2 m [text; matchobj])
                          (match_patterns o text rest k)
          end
      end
  end.

Definition try_generic_handler (o : result (option owner)) : trace method_data :=
  match o with
  | Err e => Raise e
  | Ok ob =>
      match getattr_default ob "generic_handler" with
      | Some generic => Yield (MBare generic) Stop
      | None => Stop
      end
  end.

(** [RegexDispatcher.gen_methods]. When [dispatch_data] is the registry
    itself (an owner's [prepare] returned it), its entries are pickled
    bytes, which have no [match]. *)
Definition RegexDispatcher_gen_methods (args : list value) (kw : kwargs)
    : generator method_data := λ self,
  match get_text self args kw with
  | Err e => (Raise e, self)
  | Ok text =>
      match dispatch_data self with
      | (Err e, self') => (Raise e, self')
      | (Ok (PCompiled data), self') =>
          (match_patterns (self_inst self') text data
             (try_generic_handler (self_inst self')), self')
      | (Ok PRegistry, self') =>
          let '(reg, self'') := read_registry self' in
          (match reg with
           | [] => try_generic_handler (self_inst self'')
           | _ :: _ => Raise AttributeError
           end, self'')
      end
  end.

(** ** Candidates and their evaluation (inherited from Dispatcher) *)

(** [self.gen_methods(...)] called and advanced by a [for] loop. *)
Definition gen_methods (args : list value) (kw : kwargs)
    : generator method_data := λ self,
  delegated self "gen_methods"
    (λ f, (iterate (run_gen_methods PY f args kw), self))
    (match cls self with
     | SignatureD => Dispatcher_gen_methods args kw self
     | TypeD => TypeDispatcher_gen_methods args kw self
     | RegexD => RegexDispatcher_gen_methods args kw self
     end).

(** [Dispatcher.get_method]. *)
Definition get_method (args : list value) (kw : kwargs)
    : call_on method_data := λ self,
  delegated self "get_method"
    (λ f, (run_get_method PY f args kw, self))
    (match gen_methods args kw self with
     | (Yield method _, self') => (Ok method, self')
     | (Stop, self') => (Err DispatchError, self')
     | (Raise e, self') => (Err e, self')
     end).

(** [Dispatcher.apply_handler]. *)
Definition Dispatcher_apply_handler (method_data_ : method_data)
    (args : list value) (kw : kwargs) : result value :=
  match method_data_ with
  | MBare m | MTuple1 m => call PY m args kw
  | MTuple2 m margs => call PY m (args ++ margs) kw
  | MTuple3 m margs mkw =>
      kw' ← NoClobberDict_update kw mkw;
      call PY m (args ++ margs) kw'
  end.

(** [RegexDispatcher.apply_handler]. *)
Definition RegexDispatcher_apply_handler (method_data_ : method_data)
    (args : list value) (kw : kwargs) : result value :=
  match method_data_ with
  | MBare m | MTuple1 m => call PY m args kw
  | MTuple2 m margs => call PY m margs kw
  | MTuple3 m margs mkw => call PY m margs mkw
  end.

(** [self.apply_handler(method_data, args..., kwargs...)] as [gen_dispatch]
    calls it. The wrapper of [try_delegation] takes any keyword; the method
    of the class has a parameter [method_data], already bound by position:
    a keyword of that name is a [TypeError] of the call. *)
Definition apply_handler (self : dispatcher) (method_data_ : method_data)
    (args : list value) (kw : kwargs) : result value :=
  delegated self "apply_handler"
    (λ f, run_apply_handler PY f method_data_ args kw)
    (if decide ("method_data" ∈ dom kw) then Err TypeError
     else match cls self with
          | RegexD => RegexDispatcher_apply_handler method_data_ args kw
          | SignatureD | TypeD => Dispatcher_apply_handler method_data_ args kw
          end).

(** The loop of [Dispatcher.gen_dispatch] over the candidates. *)
Fixpoint evaluate_candidates (self : dispatcher) (args : list value)
    (kw : kwargs) (dispatched : bool) (candidates : trace method_data)
    : trace value :=
  match candidates with
  | Stop => if dispatched then Stop else Raise DispatchError
  | Raise e => Raise e
  | Yield method_data_ rest =>
      match apply_handler self method_data_ args kw with
      | Ok result_ => Yield result_ (evaluate_candidates self args kw true rest)
      | Err e => Raise e
      end
  end.

(** The body of the generator function [Dispatcher.gen_dispatch]. *)
Definition Dispatcher_gen_dispatch (args : list value) (kw : kwargs)
    : generator value := λ self,
  let '(candidates, self') := gen_methods args kw self in
  (evaluate_candidates self' args kw false candidates, self').

(** The call [self.gen_dispatch(...)]: it hands back a generator object
    whose body has not run, unless the owner's replacement raises. *)
Definition gen_dispatch (args : list value) (kw : kwargs) (self : dispatcher)
    : result (generator value) :=
  delegated self "gen_dispatch"
    (λ f, pure_generator <$> run_gen_dispatch PY f args kw)
    (Ok (Dispatcher_gen_dispatch args kw)).


(** [Dispatcher.dispatch]: the first result of [gen_dispatch]; a loop that
    never runs falls off the end of the function, which returns [None]. *)
Definition dispatch (args : list value) (kw : kwargs) : call_on value := λ self,
  delegated self "dispatch"
    (λ f, (run_dispatch PY f args kw, self))
    (match gen_dispatch args kw self with
     | Err e => (Err e, self)
     | Ok g =>
         match next g self with
         | (Yielded result_, self') => (Ok result_, self')
         | (StopIteration, self') => (Ok VNone, self')
         | (Raised e, self') => (Err e, self')
         end
     end).

(** A run of dispatch calls on one dispatcher instance. *)
Fixpoint dispatch_all (calls : list (list value * kwargs)) (self : dispatcher)
    : list (result value) * dispatcher :=
  match calls with
  | [] => ([], self)
  | (args, kw) :: rest =>
      let '(r, self') := dispatch args kw self in
      let '(rs, self'') := dispatch_all rest self' in
      (r :: rs, self'')
  end.
End engine.

(** ** A concrete runtime: CPython's built-in values *)

Definition object_class : pyclass := PyClass "builtins" "object".
Definition builtin_class (name : string) : pyclass := PyClass "builtins" name.
Definition user_class (name : string) : pyclass := PyClass "__main__" name.
Definition abc_class (name : string) : pyclass := PyClass "collections.abc" name.
Definition types_class (name : string) : pyclass := PyClass "types" name.

Definition cpython_type_of (v : value) : pyclass :=
  match v with
  | VNone => builtin_class "NoneType"
  | VInt _ => builtin_class "int"
  | VStr _ => builtin_class "str"
  | VTuple _ => builtin_class "tuple"
  | VList _ => builtin_class "list"
  | VMatch _ _ => PyClass "re" "Match"
  | VObj [] _ => object_class
  | VObj (c :: _) _ => user_class c
  end.

Definition cpython_ancestors (v : value) : list pyclass :=
  match v with
  | VObj [] _ => []
  | VObj (_ :: bases) _ => (user_class <$> bases) ++ [object_class]
  | _ => [object_class]
  end.

(** Which abstract base classes of [collections.abc] the values
    satisfy, among those named in [abc_types]. *)
Definition cpython_abc (v : value) (name : string) : bool :=
  match v with
  | VNone | VInt _ | VMatch _ _ | VObj _ _ => bool_decide (name = "Hashable")
  | VStr _ | VTuple _ =>
      bool_decide (name ∈ ["Hashable"; "Iterable"; "Sized"; "Container"; "Sequence"])
  | VList _ =>
      bool_decide (name ∈ ["Iterable"; "Sized"; "Container"; "Sequence";
                           "MutableSequence"])
  end.

Definition cpython_isinstance (v : value) (c : pyclass) : bool :=
  bool_decide (c ∈ cpython_type_of v :: cpython_ancestors v)
  || (bool_decide (cls_module c = "collections.abc") && cpython_abc v (cls_name c)).

(** The names of [__builtins__] bound to a class of that name, and those
    bound to something that is neither a class nor [None] (CPython 3.11). *)
Definition builtin_classes : list string :=
  ["ArithmeticError"; "AssertionError"; "AttributeError"; "BaseException";
   "BaseExceptionGroup"; "BlockingIOError"; "BrokenPipeError"; "BufferError";
   "BytesWarning"; "ChildProcessError"; "ConnectionAbortedError";
   "ConnectionError"; "ConnectionRefusedError"; "ConnectionResetError";
   "DeprecationWarning"; "EOFError"; "EncodingWarning"; "Exception";
   "ExceptionGroup"; "FileExistsError"; "FileNotFoundError";
   "FloatingPointError"; "FutureWarning"; "GeneratorExit"; "ImportError";
   "ImportWarning"; "IndentationError"; "IndexError"; "InterruptedError";
   "IsADirectoryError"; "KeyError"; "KeyboardInterrupt"; "LookupError";
   "MemoryError"; "ModuleNotFoundError"; "NameError"; "NotADirectoryError";
   "NotImplementedError"; "OSError"; "OverflowError";
   "PendingDeprecationWarning"; "PermissionError"; "ProcessLookupError";
   "RecursionError"; "ReferenceError"; "ResourceWarning"; "RuntimeError";
   "RuntimeWarning"; "StopAsyncIteration"; "StopIteration"; "SyntaxError";
   "SyntaxWarning"; "SystemError"; "SystemExit"; "TabError"; "TimeoutError";
   "TypeError"; "UnboundLocalError"; "UnicodeDecodeError";
   "UnicodeEncodeError"; "UnicodeError"; "UnicodeTranslateError";
   "UnicodeWarning"; "UserWarning"; "ValueError"; "Warning";
   "ZeroDivisionError"; "bool"; "bytearray"; "bytes"; "classmethod";
   "complex"; "dict"; "enumerate"; "filter"; "float"; "frozenset"; "int";
   "list"; "map"; "memoryview"; "object"; "property"; "range"; "reversed";
   "set"; "slice"; "staticmethod"; "str"; "super"; "tuple"; "type"; "zip"].

Definition builtin_objects : list string :=
  ["Ellipsis"; "False"; "NotImplemented"; "True"; "__build_class__";
   "__debug__"; "__doc__"; "__import__"; "__name__"; "__package__";
   "__spec__"; "abs"; "aiter"; "all"; "anext"; "any"; "ascii"; "bin";
   "breakpoint"; "callable"; "chr"; "compile"; "copyright"; "credits";
   "delattr"; "dir"; "divmod"; "eval"; "exec"; "exit"; "format"; "getattr";
   "globals"; "hasattr"; "hash"; "help"; "hex"; "id"; "input"; "isinstance";
   "issubclass"; "iter"; "len"; "license"; "locals"; "max"; "min"; "next";
   "oct"; "open"; "ord"; "pow"; "print"; "quit"; "repr"; "round"; "setattr";
   "sorted"; "sum"; "vars"].

(** [__builtins__.get(name)]. [IOError] and [EnvironmentError] are other
    names of [OSError]; [__loader__] is a class too. *)
Definition cpython_builtins_get (name : string) : option basetype :=
  if bool_decide (name ∈ builtin_classes) then Some (AClass (builtin_class name))
  else if bool_decide (name ∈ ["EnvironmentError"; "IOError"])
  then Some (AClass (builtin_class "OSError"))
  else if bool_decide (name = "__loader__")
  then Some (AClass (PyClass "_frozen_importlib" "BuiltinImporter"))
  else if bool_decide (name ∈ builtin_objects) then Some NotAClass
  else None.

(** [getattr(types, name, None)]: the classes behind the names of
    [interp_types], with their [__name__]. *)
Definition cpython_types_getattr (name : string) : option pyclass :=
  types_class <$>
    list_to_map (M := gmap string string)
      [("BuiltinFunctionType", "builtin_function_or_method");
       ("BuiltinMethodType", "builtin_function_or_method");
       ("CodeType", "code");
       ("DynamicClassAttribute", "DynamicClassAttribute");
       ("FrameType", "frame");
       ("FunctionType", "function");
       ("GeneratorType", "generator");
       ("GetSetDescriptorType", "getset_descriptor");
       ("LambdaType", "function");
       ("MappingProxyType", "mappingproxy");
       ("MemberDescriptorType", "member_descriptor");
       ("MethodType", "method");
       ("ModuleType", "module");
       ("SimpleNamespace", "SimpleNamespace");
       ("TracebackType", "traceback")] !! name.

(** [getattr(collections, name, None)]: the classes of the module. The
    abstract base classes are not among them: since Python 3.10 they are
    reachable as [collections.abc.Iterable] and so on only. *)
Definition cpython_collections_getattr (name : string) : option pyclass :=
  if bool_decide (name ∈ ["ChainMap"; "Counter"; "OrderedDict"; "UserDict";
      "UserList"; "UserString"; "defaultdict"; "deque"])
  then Some (PyClass "collections" name) else None.

(** The same lookup up to Python 3.9, where [collections] still gave
    access to the abstract base classes under their names. *)
Definition legacy_collections_getattr (name : string) : option pyclass :=
  if bool_decide (name ∈ abc_types) then Some (abc_class name)
  else cpython_collections_getattr name.

(** [re.compile(pattern)] and [re.compile(pattern, flags)]; the validity of
    the pattern and the matching are left to [valid] and [matches]. *)
Definition cpython_re_compile (valid : string → bool) (args : list value)
    (kw : kwargs) : result regex :=
  if decide (kw = ∅) then
    match args with
    | [VStr p] => if valid p then Ok (Regex p 0) else Err ReError
    | [VStr p; VInt flags] => if valid p then Ok (Regex p flags) else Err ReError
    | _ => Err TypeError
    end
  else Err TypeError.

Definition cpython (order : list string → list string)
    (valid : string → bool) (matches : regex → string → bool) : runtime :=
  Runtime cpython_type_of cpython_ancestors cpython_isinstance
    cpython_builtins_get cpython_types_getattr cpython_collections_getattr
    order (cpython_re_compile valid) matches.

(** The same runtime with the [collections] module of CPython 3.9 and
    before. *)
Definition legacy_cpython (order : list string → list string)
    (valid : string → bool) (matches : regex → string → bool) : runtime :=
  Runtime cpython_type_of cpython_ancestors cpython_isinstance
    cpython_builtins_get cpython_types_getattr legacy_collections_getattr
    order (cpython_re_compile valid) matches.

(** Patterns made of an optional leading [^] and literal characters:
    [match] anchors at the start of the text either way. *)
Definition literal_matches (r : regex) (text : string) : bool :=
  match re_pattern r with
  | String "^"%char p => bool_decide (String.prefix p text = true)
  | p => bool_decide (String.prefix p text = true)
  end.

(** An owner with plain handlers only: each listed attribute is a method of
    its own name; calling a handler returns its name and what it received. *)
Definition owner_with (names : list string) : owner :=
  Owner (λ name, if bool_decide (name ∈ names) then Some (BoundMethod name) else None).

Definition received (m : method) (args : list value) (kw : kwargs) : value :=
  let 'BoundMethod f := m in
  VTuple [VStr f; VTuple args; VTuple ((λ '(k, v), VTuple [VStr k; v]) <$> map_to_list kw)].

Definition no_replacement {A} : result A := Err TypeError.

(** The behaviour of an owner that defines handlers only. *)
Definition handlers_only (call_ : method → list value → kwargs → result value)
    : behaviour :=
  Behaviour call_
    (λ _ _ _ _, no_replacement) (λ _, no_replacement)
    (λ _ _ _, no_replacement) (λ _ _ _, no_replacement)
    (λ _ _ _, no_replacement) (λ _ _ _, no_replacement)
    (λ _ _ _ _, no_replacement) (λ _ _ _, no_replacement)
    (λ _, no_replacement) (λ _ _ _ _, no_replacement)
    (λ _ _ _, no_replacement).

Definition echo : behaviour :=
  handlers_only (λ m args kw, Ok (received m args kw)).

(** Handlers that echo, except [stop], which raises [DispatchInterrupt]. *)
Definition interrupting : behaviour :=
  handlers_only (λ m args kw,
    if decide (m = BoundMethod "stop") then Err DispatchInterrupt
    else Ok (received m args kw)).

(** ** Facts about traces *)

Section trace_facts.
Context {A : Type}.

Lemma yields_tseq (t k : trace A) :
  yields (tseq t k) = yields t ++ (if raised t is None then yields k else []).
Proof.
  induction t as [|e|a rest IH]; simpl; [done..|].
  by rewrite IH.
Qed.

Lemma raised_tseq (t k : trace A) :
  raised (tseq t k) = if raised t is None then raised k else raised t.
Proof.
  induction t as [|e|a rest IH]; simpl; [done..|].
  rewrite IH. by destruct (raised rest).
Qed.

Lemma yields_yield_all (xs : list A) : yields (yield_all xs) = xs.
Proof. induction xs as [|x xs IH]; simpl; [done|]. by rewrite IH. Qed.

Lemma raised_yield_all (xs : list A) : raised (yield_all xs) = None.
Proof. induction xs as [|x xs IH]; simpl; done. Qed.

Lemma yields_tmap {B} (f : A → B) (t : trace A) :
  yields (tmap f t) = f <$> yields t.
Proof. induction t as [|e|a rest IH]; simpl; [done..|]. by rewrite IH. Qed.

Lemma raised_tmap {B} (f : A → B) (t : trace A) :
  raised (tmap f t) = raised t.
Proof. induction t as [|e|a rest IH]; simpl; done. Qed.

Lemma yields_tomap {B} (f : A → option B) (t : trace A) :
  yields (tomap f t) = omap f (yields t).
Proof.
  induction t as [|e|a rest IH]; simpl; [done..|].
  destruct (f a); simpl; by rewrite IH.
Qed.

Lemma raised_tomap {B} (f : A → option B) (t : trace A) :
  raised (tomap f t) = raised t.
Proof.
  induction t as [|e|a rest IH]; simpl; [done..|].
  by destruct (f a).
Qed.

Context `{EqDecision A}.

Lemma yields_dedupe_from (seen : list A) (t : trace A) :
  yields (dedupe_from seen t) = first_occurrences seen (yields t).
Proof.
  revert seen. induction t as [|e|a rest IH]; intros seen; simpl; [done..|].
  destruct (decide (a ∈ seen)); simpl; by rewrite IH.
Qed.

Lemma raised_dedupe_from (seen : list A) (t : trace A) :
  raised (dedupe_from seen t) = raised t.
Proof.
  revert seen. induction t as [|e|a rest IH]; intros seen; simpl; [done..|].
  destruct (decide (a ∈ seen)); simpl; by rewrite IH.
Qed.

Lemma first_occurrences_fresh (seen l : list A) (x : A) :
  x ∈ first_occurrences seen l → x ∈ l ∧ x ∉ seen.
Proof.
  revert seen. induction l as [|a l IH]; intros seen; simpl.
  - by intros ?%elem_of_nil.
  - destruct (decide (a ∈ seen)) as [Hin|Hout].
    + intros [? ?]%IH. split; [by right | done].
    + intros [->|[? Hx]%IH]%elem_of_cons.
      * split; [by left | done].
      * split; [by right|]. intros ?. apply Hx. by right.
Qed.

Lemma first_occurrences_NoDup (seen l : list A) :
  NoDup (first_occurrences seen l).
Proof.
  revert seen. induction l as [|a l IH]; intros seen; simpl.
  - constructor.
  - destruct (decide (a ∈ seen)); [apply IH|].
    constructor; [|apply IH].
    intros [_ Hx]%first_occurrences_fresh. apply Hx. by left.
Qed.

Lemma first_occurrences_seen_equiv (seen seen' l : list A) :
  (∀ x, x ∈ seen ↔ x ∈ seen') →
  first_occurrences seen l = first_occurrences seen' l.
Proof.
  revert seen seen'. induction l as [|a l IH]; intros seen seen' Heq; simpl; [done|].
  destruct (decide (a ∈ seen)) as [Hin|Hout], (decide (a ∈ seen')) as [Hin'|Hout'].
  - by apply IH.
  - by apply Heq in Hin.
  - by apply Heq in Hin'.
  - f_equal. apply IH. intros x. rewrite !elem_of_cons, Heq. done.
Qed.

Lemma first_occurrences_app (seen l1 l2 : list A) :
  first_occurrences seen (l1 ++ l2) =
  first_occurrences seen l1 ++ first_occurrences (l1 ++ seen) l2.
Proof.
  revert seen. induction l1 as [|a l1 IH]; intros seen; simpl; [done|].
  destruct (decide (a ∈ seen)) as [Hin|Hout].
  - rewrite IH. f_equal. apply first_occurrences_seen_equiv.
    intros x. rewrite !elem_of_app, elem_of_cons, elem_of_app. intuition (subst; auto).
  - simpl. rewrite IH. do 2 f_equal. apply first_occurrences_seen_equiv.
    intros x. rewrite !elem_of_app, !elem_of_cons, elem_of_app. intuition (subst; auto).
Qed.

Lemma first_occurrences_elem (seen l : list A) (x : A) :
  x ∈ l → x ∉ seen → x ∈ first_occurrences seen l.
Proof.
  revert seen. induction l as [|a l IH]; intros seen; simpl.
  - by intros ?%elem_of_nil.
  - intros [->|Hin]%elem_of_cons Hout.
    + rewrite decide_False by done. by left.
    + destruct (decide (a ∈ seen)); [by apply IH|].
      destruct (decide (x = a)) as [->|Hne]; [by left|].
      right. apply IH; [done|]. by intros [?|?]%elem_of_cons.
Qed.
End trace_facts.

(** ** Delegation switched off or unused *)

(** The engine operations wrapped by [try_delegation]. *)
Definition engine_operations : list string :=
  ["register"; "prepare"; "gen_methods"; "get_method"; "dispatch";
   "gen_dispatch"; "apply_handler"; "yield_from_handler"; "gen_method_keys";
   "gen_generic"; "check_basetype"; "get_text"].

(** No engine operation is replaced by the owner: delegation is off, no
    owner is bound, or the owner defines none of the names. *)
Definition undelegated (self : dispatcher) : bool :=
  forallb (λ name, bool_decide (delegate self name = None)) engine_operations.

Lemma undelegated_delegate (self : dispatcher) (name : string) :
  undelegated self = true → name ∈ engine_operations →
  delegate self name = None.
Proof.
  unfold undelegated. rewrite forallb_forall. intros Hall Hin.
  apply list_elem_of_In, Hall, bool_decide_eq_true in Hin. done.
Qed.

Lemma delegated_default {R} (self : dispatcher) (name : string)
    (func : method → R) (dflt : R) :
  delegate self name = None → delegated self name func dflt = dflt.
Proof. unfold delegated. by intros ->. Qed.

(** [delegate] reads the flags and [inst] only. *)
Definition same_binding (s s' : dispatcher) : Prop :=
  try_delegation s' = try_delegation s ∧
  delegator_prefix s' = delegator_prefix s ∧
  inst s' = inst s.

Lemma delegate_same_binding (s s' : dispatcher) (name : string) :
  same_binding s s' → delegate s' name = delegate s name.
Proof. intros (Hd & Hp & Hi). unfold delegate. by rewrite Hd, Hp, Hi. Qed.

Lemma undelegated_same_binding (s s' : dispatcher) :
  same_binding s s' → undelegated s' = undelegated s.
Proof.
  intros H. unfold undelegated. generalize engine_operations. intros names.
  induction names as [|name names IH]; simpl; [done|].
  by rewrite (delegate_same_binding s s' name H), IH.
Qed.

Ltac engine_op := apply list_elem_of_In; simpl; tauto.

(** Rewrites every delegated call of the goal to the engine's own method,
    given [Hu : undelegated self = true]. *)
Ltac undelegate Hu :=
  repeat match goal with
  | |- context [delegated ?s ?name ?f ?d] =>
      rewrite (delegated_default s name f d)
        by (apply (undelegated_delegate s name Hu); engine_op)
  end.

(** ** The Type strategy *)

Section type_strategy.
Context (RT : runtime) (PY : behaviour).

(** The handlers found by the walk of the ancestors, nearest first. *)
Definition ancestor_handlers (self : dispatcher) (o : option owner)
    (token : value) : list method :=
  omap (λ c, getattr_default o (method_prefix self +:+ cls_name c))
       (removelast (mro RT token)).

Lemma ancestor_walk_yields self o token rest kw :
  delegate self "gen_method_keys" = None →
  yields (ancestor_walk RT PY self o (token :: rest) kw)
    = ancestor_handlers self o token
  ∧ raised (ancestor_walk RT PY self o (token :: rest) kw) = None.
Proof.
  intros Hd. unfold ancestor_walk, gen_method_keys.
  rewrite (delegated_default _ _ _ _ Hd).
  unfold TypeDispatcher_gen_method_keys.
  rewrite yields_tomap, raised_tomap, yields_yield_all, raised_yield_all.
  split; [|done]. unfold ancestor_handlers.
  generalize (removelast (mro RT token)). intros l.
  induction l as [|c l IH]; [done|].
  csimpl. by rewrite IH.
Qed.

Lemma TypeDispatcher_gen_methods_yields self o token rest kw :
  inst self = Bound o →
  delegate self "gen_method_keys" = None →
  yields (fst (TypeDispatcher_gen_methods RT PY (token :: rest) kw self)) =
    MBare <$> (first_occurrences [] (ancestor_handlers self o token) ++
               first_occurrences (ancestor_handlers self o token)
                 (yields (fallbacks RT PY self token))).
Proof.
  intros Hi Hd. unfold TypeDispatcher_gen_methods; simpl.
  rewrite yields_tmap. f_equal. unfold dedupe.
  rewrite yields_dedupe_from. unfold TypeDispatcher_gen_methods_undeduped.
  unfold self_inst. rewrite Hi.
  destruct (ancestor_walk_yields self o token rest kw Hd) as [Hy Hr].
  rewrite yields_tseq, Hy, Hr, first_occurrences_app.
  by rewrite app_nil_r.
Qed.

Lemma TypeDispatcher_gen_methods_NoDup self args kw :
  NoDup (yields (fst (TypeDispatcher_gen_methods RT PY args kw self))).
Proof.
  unfold TypeDispatcher_gen_methods; simpl. rewrite yields_tmap.
  apply NoDup_fmap_2; [by intros ?? [= ->]|].
  unfold dedupe. rewrite yields_dedupe_from. apply first_occurrences_NoDup.
Qed.
End type_strategy.

Lemma for_each_ext {A B} (f g : A → trace B) (l : list A) :
  (∀ x, f x = g x) → for_each l f = for_each l g.
Proof. intros H. induction l as [|x l IH]; simpl; [done|]. by rewrite H, IH. Qed.

Lemma for_each_stop {A B} (f : A → trace B) (l : list A) :
  (∀ x, f x = Stop) → for_each l f = Stop.
Proof. intros H. induction l as [|x l IH]; simpl; [done|]. by rewrite H, IH. Qed.

(** ** The end-to-end scenario of the Type strategy *)

(** A dispatcher declared with the defaults and reached through an
    instance of the owner class. *)
Definition bound_dispatcher (c : dispatcher_class) (o : owner) : dispatcher :=
  __get__ (Some o) (new_dispatcher c true None).

Definition scenario_owner : owner := owner_with ["handle_int"; "handle_Iterable"].

Definition scenario_dispatcher : dispatcher := bound_dispatcher TypeD scenario_owner.

Section scenario.
Context (order : list string → list string) (valid : string → bool)
        (matches : regex → string → bool).

(** The runtime, whatever its [collections] module holds. *)
Let RT (collections_getattr_ : string → option pyclass) : runtime :=
  Runtime cpython_type_of cpython_ancestors cpython_isinstance
    cpython_builtins_get cpython_types_getattr collections_getattr_
    order (cpython_re_compile valid) matches.

Lemma scenario_types_stop collections_getattr_ (items : list value) (name : string) :
  check_basetype (RT collections_getattr_) echo scenario_dispatcher (VList items)
    name (AClass <$> cpython_types_getattr name) = Stop.
Proof.
  unfold check_basetype. rewrite delegated_default by reflexivity.
  unfold cpython_types_getattr.
  destruct (_ !! name) as [cname|]; reflexivity.
Qed.

(** Up to Python 3.9 a list is found to be an [Iterable]. *)
Lemma scenario_abc (items : list value) (name : string) :
  check_basetype (RT legacy_collections_getattr) echo scenario_dispatcher
    (VList items) name (AClass <$> legacy_collections_getattr name) =
  if bool_decide (name = "Iterable")
  then Yield (BoundMethod "handle_Iterable")
         (Yield (BoundMethod "handle_Iterable") Stop)
  else Stop.
Proof.
  unfold check_basetype. rewrite delegated_default by reflexivity.
  unfold legacy_collections_getattr.
  case_bool_decide as Hin.
  - unfold abc_types in Hin.
    repeat (apply elem_of_cons in Hin as [->|Hin]); try reflexivity.
    by apply elem_of_nil in Hin.
  - case_bool_decide as Hname;
      [subst; exfalso; apply Hin; unfold abc_types; set_solver|].
    unfold cpython_collections_getattr.
    case_bool_decide as Hown; reflexivity.
Qed.

Lemma scenario_abc_loop (items : list value) (names : list string) :
  "Iterable" ∈ names →
  ∃ rest, for_each names (λ name,
      check_basetype (RT legacy_collections_getattr) echo scenario_dispatcher
        (VList items) name (AClass <$> legacy_collections_getattr name))
    = Yield (BoundMethod "handle_Iterable") rest.
Proof.
  induction names as [|name names IH]; [by intros ?%elem_of_nil|].
  intros Hin. cbn [for_each]. rewrite scenario_abc. case_bool_decide as Hname.
  - eexists. reflexivity.
  - apply elem_of_cons in Hin as [?|Hin]; [done|].
    destruct (IH Hin) as [rest ->]. eexists. reflexivity.
Qed.

(** Since Python 3.10 no name of [abc_types] is found in [collections]. *)
Lemma scenario_no_abc (items : list value) (name : string) :
  check_basetype (RT cpython_collections_getattr) echo scenario_dispatcher
    (VList items) name (AClass <$> cpython_collections_getattr name) = Stop.
Proof.
  unfold check_basetype. rewrite delegated_default by reflexivity.
  unfold cpython_collections_getattr.
  case_bool_decide as Hown; reflexivity.
Qed.

Lemma scenario_int :
  fst (get_method (cpython order valid matches) echo [VInt 5] ∅ scenario_dispatcher)
    = Ok (MBare (BoundMethod "handle_int")).
Proof. reflexivity. Qed.

Lemma scenario_list_legacy :
  "Iterable" ∈ order abc_types →
  fst (get_method (legacy_cpython order valid matches) echo
         [VList [VInt 1; VInt 2]] ∅ scenario_dispatcher)
    = Ok (MBare (BoundMethod "handle_Iterable")).
Proof.
  intros Hin.
  destruct (scenario_abc_loop [VInt 1; VInt 2] (order abc_types) Hin) as [rest Hrest].
  unfold get_method, gen_methods. rewrite !delegated_default by reflexivity.
  change (cls scenario_dispatcher) with TypeD. cbv beta iota.
  unfold TypeDispatcher_gen_methods, TypeDispatcher_gen_methods_undeduped, fallbacks.
  change (legacy_cpython order valid matches) with (RT legacy_collections_getattr).
  change (iter_set (RT legacy_collections_getattr)) with order.
  change (types_getattr (RT legacy_collections_getattr)) with cpython_types_getattr.
  change (collections_getattr (RT legacy_collections_getattr))
    with legacy_collections_getattr.
  rewrite (for_each_stop _ (order interp_types))
    by (intros name; apply scenario_types_stop).
  rewrite Hrest. reflexivity.
Qed.

Lemma scenario_list :
  fst (gen_methods (cpython order valid matches) echo
         [VList [VInt 1; VInt 2]] ∅ scenario_dispatcher) = Stop.
Proof.
  unfold gen_methods. rewrite !delegated_default by reflexivity.
  change (cls scenario_dispatcher) with TypeD. cbv beta iota.
  unfold TypeDispatcher_gen_methods, TypeDispatcher_gen_methods_undeduped, fallbacks.
  change (cpython order valid matches) with (RT cpython_collections_getattr).
  change (iter_set (RT cpython_collections_getattr)) with order.
  change (types_getattr (RT cpython_collections_getattr)) with cpython_types_getattr.
  change (collections_getattr (RT cpython_collections_getattr))
    with cpython_collections_getattr.
  rewrite (for_each_stop _ (order interp_types))
    by (intros name; apply scenario_types_stop).
  rewrite (for_each_stop _ (order abc_types))
    by (intros name; apply scenario_no_abc).
  reflexivity.
Qed.
End scenario.

(** C1, the general order and the code at the failing input. For a bound
    Type dispatcher whose operations are not replaced by the owner,
    [gen_methods] yields first the owner's handlers [<prefix><TypeName>] of
    the ancestor types of the token, nearest first and without [object], and
    only then the handlers of the fallbacks that are not among them. With an
    owner defining [handle_int] and [handle_Iterable] only, token [5]
    resolves to [handle_int]. Token [[1, 2]] has no candidate at all, in
    whatever order the set [abc_types] is visited: [collections] has no
    attribute [Iterable], so [get_method] and [dispatch] fail with
    [DispatchError]. Where [collections] still has the abstract base
    classes (Python 3.9 and before), the same code resolves [[1, 2]] to
    [handle_Iterable]. *)
Theorem type_strategy_resolution_order
    (RT : runtime) (PY : behaviour) (self : dispatcher) (o : option owner)
    (token : value) (rest : list value) (kw : kwargs)
    (order : list string → list string) (valid : string → bool)
    (matches : regex → string → bool) :
  cls self = TypeD →
  inst self = Bound o →
  undelegated self = true →
  order abc_types ≡ₚ abc_types →
  let found := ancestor_handlers RT self o token in
  let CPY := cpython order valid matches in
  yields (fst (gen_methods RT PY (token :: rest) kw self)) =
    MBare <$> (first_occurrences [] found ++
               first_occurrences found (yields (fallbacks RT PY self token)))
  ∧ fst (get_method CPY echo [VInt 5] ∅ scenario_dispatcher)
      = Ok (MBare (BoundMethod "handle_int"))
  ∧ fst (gen_methods CPY echo [VList [VInt 1; VInt 2]] ∅ scenario_dispatcher)
      = Stop
  ∧ fst (get_method CPY echo [VList [VInt 1; VInt 2]] ∅ scenario_dispatcher)
      = Err DispatchError
  ∧ fst (dispatch CPY echo [VList [VInt 1; VInt 2]] ∅ scenario_dispatcher)
      = Err DispatchError
  ∧ fst (get_method (legacy_cpython order valid matches) echo
           [VList [VInt 1; VInt 2]] ∅ scenario_dispatcher)
      = Ok (MBare (BoundMethod "handle_Iterable")).
Proof.
  intros Hc Hi Hu Hperm found CPY.
  pose proof (scenario_list order valid matches) as Hnone. fold CPY in Hnone.
  split; [|split; [|split; [|split; [|split]]]].
  - unfold gen_methods. undelegate Hu. rewrite Hc.
    apply TypeDispatcher_gen_methods_yields; [done|].
    apply undelegated_delegate; [done|engine_op].
  - apply scenario_int.
  - exact Hnone.
  - unfold get_method. rewrite delegated_default by reflexivity.
    destruct (gen_methods CPY echo [VList [VInt 1; VInt 2]] ∅ scenario_dispatcher)
      as [cands s']. simpl in Hnone. by subst cands.
  - unfold dispatch, gen_dispatch. rewrite !delegated_default by reflexivity.
    unfold next, Dispatcher_gen_dispatch.
    destruct (gen_methods CPY echo [VList [VInt 1; VInt 2]] ∅ scenario_dispatcher)
      as [cands s']. simpl in Hnone. by subst cands.
  - apply scenario_list_legacy. rewrite Hperm. unfold abc_types. set_solver.
Qed.

Definition default_cpython : runtime := cpython id (λ _, true) literal_matches.

Definition kennel_owner : owner :=
  owner_with ["handle_Dog"; "handle_Animal"; "handle_anything"].

Lemma type_strategy_resolution_order_witness :
  yields (fst (gen_methods default_cpython echo
                 [VObj ["Puppy"; "Dog"; "Animal"] (Created 0)] ∅
                 (bound_dispatcher TypeD kennel_owner)))
  = [MBare (BoundMethod "handle_Dog"); MBare (BoundMethod "handle_Animal");
     MBare (BoundMethod "handle_anything")].
Proof.
  destruct (type_strategy_resolution_order default_cpython echo
              (bound_dispatcher TypeD kennel_owner) (Some kennel_owner)
              (VObj ["Puppy"; "Dog"; "Animal"] (Created 0)) [] ∅
              id (λ _, true) literal_matches
              eq_refl eq_refl eq_refl (reflexivity _)) as [Hyields _].
  rewrite Hyields. vm_compute. reflexivity.
Defined.

(** C2. Deduplication. The candidates of [TypeDispatcher.gen_methods] are
    pairwise distinct: a handler reachable through several ancestor types,
    runtime categories or capability categories is yielded once. *)
Theorem type_strategy_yields_each_handler_once
    (RT : runtime) (PY : behaviour) (self : dispatcher)
    (args : list value) (kw : kwargs) :
  cls self = TypeD →
  delegate self "gen_methods" = None →
  NoDup (yields (fst (gen_methods RT PY args kw self))).
Proof.
  intros Hc Hd. unfold gen_methods.
  rewrite (delegated_default _ _ _ _ Hd), Hc.
  apply TypeDispatcher_gen_methods_NoDup.
Qed.

(** An owner whose handler for a list and generic handler are one and the
    same function. *)
Definition catch_all_owner : owner :=
  Owner (λ name,
    if bool_decide (name ∈ ["handle_list"; "handle_anything"])
    then Some (BoundMethod "catch_all") else None).

Lemma type_strategy_yields_each_handler_once_witness :
  yields (TypeDispatcher_gen_methods_undeduped default_cpython echo
            (bound_dispatcher TypeD catch_all_owner) [VList [VInt 1; VInt 2]] ∅)
    = [BoundMethod "catch_all"; BoundMethod "catch_all";
       BoundMethod "catch_all"; BoundMethod "catch_all"]
  ∧ yields (fst (gen_methods default_cpython echo [VList [VInt 1; VInt 2]] ∅
                   (bound_dispatcher TypeD catch_all_owner)))
    = [MBare (BoundMethod "catch_all")]
  ∧ NoDup (yields (fst (gen_methods default_cpython echo
                          [VList [VInt 1; VInt 2]] ∅
                          (bound_dispatcher TypeD catch_all_owner)))).
Proof.
  split; [vm_compute; reflexivity|]. split; [vm_compute; reflexivity|].
  apply (type_strategy_yields_each_handler_once default_cpython echo
           (bound_dispatcher TypeD catch_all_owner)); reflexivity.
Defined.

(** ** NoClobberDict *)

Lemma clobbers_spec (self otherdict : kwargs) :
  clobbers self otherdict = true ↔
  ∃ key v v', self !! key = Some v ∧ otherdict !! key = Some v' ∧ v ≠ v'.
Proof.
  unfold clobbers, dupes. rewrite existsb_exists. split.
  - intros (key & Hin & Hne). apply bool_decide_eq_true in Hne.
    apply list_elem_of_In, elem_of_elements, elem_of_intersection in Hin.
    destruct Hin as [[v' Hv']%elem_of_dom [v Hv]%elem_of_dom].
    exists key, v, v'. repeat split; [done..|]. congruence.
  - intros (key & v & v' & Hv & Hv' & Hne). exists key. split.
    + apply list_elem_of_In, elem_of_elements, elem_of_intersection.
      split; apply elem_of_dom; eauto.
    + apply bool_decide_eq_true. congruence.
Qed.

Lemma clobbers_false (self otherdict : kwargs) :
  clobbers self otherdict = false ↔
  ∀ key v v', self !! key = Some v → otherdict !! key = Some v' → v = v'.
Proof.
  rewrite <- not_true_iff_false, clobbers_spec. split.
  - intros Hno key v v' Hv Hv'. destruct (decide (v = v')); [done|].
    exfalso. apply Hno. eauto 6.
  - intros Hall (key & v & v' & Hv & Hv' & Hne). eauto.
Qed.

Lemma NoClobberDict_update_self (kw : kwargs) :
  NoClobberDict_update kw kw = Ok kw.
Proof.
  unfold NoClobberDict_update.
  replace (clobbers kw kw) with false
    by (symmetry; apply clobbers_false; congruence).
  f_equal. apply (idemp_L (∪)).
Qed.

Lemma NoClobberDict_update_empty (kw : kwargs) :
  NoClobberDict_update kw ∅ = Ok kw.
Proof.
  unfold NoClobberDict_update.
  replace (clobbers kw ∅) with false.
  - f_equal. apply (left_id_L ∅ (∪)).
  - symmetry. apply clobbers_false. intros key v v' _ Hv'.
    by rewrite lookup_empty in Hv'.
Qed.

(** ** The Signature strategy *)

(** C10. The base dispatcher with an empty registry and an owner defining
    [generic_handler]: [gen_methods] yields the generic handler with the
    arguments of the call and raises [DispatchError] when advanced past it.
    [get_method] and [dispatch] therefore succeed through the generic
    handler, and draining [gen_dispatch] raises [DispatchError] after the
    generic handler's result. (The one call that does not reach the handler
    passes a keyword named [method_data], which [apply_handler] cannot
    bind: [TypeError].) *)
Theorem signature_generic_handler_then_dispatch_error
    (RT : runtime) (PY : behaviour) (self : dispatcher) (o : owner)
    (generic : method) (args : list value) (kw : kwargs) :
  cls self = SignatureD →
  inst self = Bound (Some o) →
  default [] (registry_slot self) = [] →
  attr o "generic_handler" = Some generic →
  undelegated self = true →
  let applied :=
    if decide ("method_data" ∈ dom kw) then Err TypeError
    else call PY generic (args ++ args) kw in
  fst (gen_methods RT PY args kw self)
    = Yield (MTuple3 generic args kw) (Raise DispatchError)
  ∧ fst (get_method RT PY args kw self) = Ok (MTuple3 generic args kw)
  ∧ fst (dispatch RT PY args kw self) = applied
  ∧ ∃ g, gen_dispatch RT PY args kw self = Ok g ∧
         fst (g self) =
           match applied with
           | Ok result_ => Yield result_ (Raise DispatchError)
           | Err e => Raise e
           end.
Proof.
  intros Hc Hi Hreg Hgen Hu applied.
  assert (Hcands : fst (gen_methods RT PY args kw self)
                   = Yield (MTuple3 generic args kw) (Raise DispatchError)).
  { unfold gen_methods. undelegate Hu. rewrite Hc.
    destruct self as [c td dp mp i [reg|] dd n]; simpl in *; subst;
      unfold Dispatcher_gen_methods, read_registry, registry, CachedAttr; simpl;
      unfold getattr_default; simpl; by rewrite Hgen. }
  assert (Happly : apply_handler PY self (MTuple3 generic args kw) args kw = applied).
  { unfold apply_handler, applied. undelegate Hu. rewrite Hc.
    destruct (decide ("method_data" ∈ dom kw)); [done|].
    simpl. by rewrite NoClobberDict_update_self. }
  assert (Hbody : fst (Dispatcher_gen_dispatch RT PY args kw self) =
           match applied with
           | Ok result_ => Yield result_ (Raise DispatchError)
           | Err e => Raise e
           end).
  { unfold Dispatcher_gen_dispatch.
    destruct (gen_methods RT PY args kw self) as [cands self'] eqn:Hg.
    assert (Hu' : undelegated self' = true).
    { rewrite <- Hu. apply undelegated_same_binding.
      revert Hg. unfold gen_methods. undelegate Hu. rewrite Hc.
      unfold Dispatcher_gen_methods, read_registry, registry, CachedAttr.
      destruct self as [c td dp mp i [reg|] dd n]; simpl; intros [= _ <-]; done. }
    assert (Hc' : cls self' = SignatureD).
    { revert Hg. unfold gen_methods. undelegate Hu. rewrite Hc.
      unfold Dispatcher_gen_methods, read_registry, registry, CachedAttr.
      destruct self as [c td dp mp i [reg|] dd n]; simpl in *; intros [= _ <-]; done. }
    simpl in Hcands. subst cands. simpl.
    assert (apply_handler PY self' (MTuple3 generic args kw) args kw = applied) as ->.
    { rewrite <- Happly. unfold apply_handler. undelegate Hu'. undelegate Hu.
      by rewrite Hc, Hc'. }
    by destruct applied. }
  split; [done|]. split; [|split].
  - unfold get_method. undelegate Hu.
    destruct (gen_methods RT PY args kw self) as [cands self'].
    simpl in Hcands. by subst cands.
  - unfold dispatch, gen_dispatch. undelegate Hu. unfold next.
    destruct (Dispatcher_gen_dispatch RT PY args kw self) as [out self'].
    simpl in Hbody. subst out. by destruct applied.
  - exists (Dispatcher_gen_dispatch RT PY args kw).
    split; [|done]. unfold gen_dispatch. by undelegate Hu.
Qed.

Lemma signature_generic_handler_then_dispatch_error_witness :
  fst (dispatch default_cpython echo [VInt 7] ∅
         (bound_dispatcher SignatureD (owner_with ["generic_handler"])))
  = Ok (received (BoundMethod "generic_handler") [VInt 7; VInt 7] ∅).
Proof.
  destruct (signature_generic_handler_then_dispatch_error default_cpython echo
              (bound_dispatcher SignatureD (owner_with ["generic_handler"]))
              (owner_with ["generic_handler"]) (BoundMethod "generic_handler")
              [VInt 7] ∅ eq_refl eq_refl eq_refl eq_refl eq_refl)
    as (_ & _ & Hdispatch & _).
  exact Hdispatch.
Defined.

(** ** What a call leaves in the dispatcher *)

(** [s'] has the class, flags, owner and registry content of [s]. *)
Definition same_config (s s' : dispatcher) : Prop :=
  cls s' = cls s ∧ same_binding s s' ∧ method_prefix s' = method_prefix s ∧
  default [] (registry_slot s') = default [] (registry_slot s).

(** The effect of a call on the prepared data: untouched, or computed by
    one run of [prepare] by a Pattern dispatcher whose cache was empty. *)
Definition cache_step (s s' : dispatcher) : Prop :=
  same_config s s' ∧
  ((dispatch_data_slot s' = dispatch_data_slot s ∧
    prepare_calls s' = prepare_calls s)
   ∨ (cls s = RegexD ∧ dispatch_data_slot s = None ∧
      prepare_calls s' = S (prepare_calls s))).

Lemma same_config_refl s : same_config s s.
Proof. by repeat split. Qed.

Lemma same_config_trans s1 s2 s3 :
  same_config s1 s2 → same_config s2 s3 → same_config s1 s3.
Proof.
  intros (Hc & (Hd & Hp & Hi) & Hm & Hr) (Hc' & (Hd' & Hp' & Hi') & Hm' & Hr').
  repeat split; congruence.
Qed.

Lemma cache_step_refl s : cache_step s s.
Proof. split; [apply same_config_refl|by left]. Qed.

Lemma same_config_undelegated s s' :
  same_config s s' → undelegated s' = undelegated s.
Proof. intros (_ & Hb & _). by apply undelegated_same_binding. Qed.

Section effects.
Context (RT : runtime) (PY : behaviour).

Lemma read_registry_effect self :
  fst (read_registry self) = default [] (registry_slot self) ∧
  registry_slot (snd (read_registry self))
    = Some (default [] (registry_slot self)) ∧
  same_config self (snd (read_registry self)) ∧
  dispatch_data_slot (snd (read_registry self)) = dispatch_data_slot self ∧
  prepare_calls (snd (read_registry self)) = prepare_calls self.
Proof.
  unfold read_registry, registry, CachedAttr.
  destruct self as [c td dp mp i [reg|] dd n]; simpl; by repeat split.
Qed.

Lemma prepare_effect self :
  same_config self (snd (prepare RT PY self)) ∧
  dispatch_data_slot (snd (prepare RT PY self)) = dispatch_data_slot self ∧
  prepare_calls (snd (prepare RT PY self)) = S (prepare_calls self).
Proof.
  unfold prepare, delegated.
  destruct (delegate (count_prepare self) "prepare").
  - destruct self; simpl; by repeat split.
  - unfold RegexDispatcher_prepare, Dispatcher_prepare.
    pose proof (read_registry_effect (count_prepare self)) as (_ & _ & Hcfg & Hdd & Hn).
    destruct (read_registry (count_prepare self)) as [reg s'].
    simpl in *.
    assert (same_config self s') as Hcfg'.
    { eapply same_config_trans; [|exact Hcfg]. destruct self; by repeat split. }
    assert (Hgoal : same_config self s' ∧
              dispatch_data_slot s' = dispatch_data_slot self ∧
              prepare_calls s' = S (prepare_calls self)).
    { rewrite Hdd, Hn. split; [done|]. by destruct self. }
    by destruct (cls self).
Qed.

Lemma dispatch_data_effect self :
  cache_step self (snd (dispatch_data RT PY self)) ∨ cls self ≠ RegexD.
Proof.
  destruct (decide (cls self = RegexD)) as [Hc|]; [left|by right].
  unfold dispatch_data, CachedAttr.
  destruct (dispatch_data_slot self) as [p|] eqn:Hslot; [apply cache_step_refl|].
  pose proof (prepare_effect self) as (Hcfg & Hdd & Hn).
  destruct (prepare RT PY self) as [[p|e] s']; simpl in *.
  - split; [|by right].
    eapply same_config_trans; [exact Hcfg|]. destruct s'; by repeat split.
  - destruct e; simpl; (split; [done|by right]).
Qed.

Lemma dispatch_data_cached self p :
  dispatch_data_slot self = Some p →
  dispatch_data RT PY self = (Ok p, self).
Proof. intros H. unfold dispatch_data, CachedAttr. by rewrite H. Qed.

Lemma gen_methods_effect args kw self :
  cache_step self (snd (gen_methods RT PY args kw self)).
Proof.
  unfold gen_methods, delegated.
  destruct (delegate self "gen_methods"); [apply cache_step_refl|].
  destruct (cls self) eqn:Hc.
  - unfold Dispatcher_gen_methods.
    pose proof (read_registry_effect self) as (_ & _ & Hcfg & Hdd & Hn).
    destruct (read_registry self) as [reg s']. simpl in *.
    split; [done|by left].
  - apply cache_step_refl.
  - unfold RegexDispatcher_gen_methods.
    destruct (get_text PY self args kw); [|apply cache_step_refl].
    destruct (dispatch_data_effect self) as [Hstep|]; [|done].
    destruct (dispatch_data RT PY self) as [[[|data]|e] s']; simpl in *; [|done..].
    pose proof (read_registry_effect s') as (_ & _ & Hcfg & Hdd & Hn).
    destruct (read_registry s') as [reg s'']. simpl in *.
    destruct Hstep as [Hcfg' Hcache]. split.
    + eapply same_config_trans; eauto.
    + rewrite Hdd, Hn. done.
Qed.

Lemma dispatch_effect args kw self :
  cache_step self (snd (dispatch RT PY args kw self)).
Proof.
  unfold dispatch, delegated.
  destruct (delegate self "dispatch"); [apply cache_step_refl|].
  unfold gen_dispatch, delegated.
  destruct (delegate self "gen_dispatch").
  - destruct (run_gen_dispatch PY m args kw) as [t|e]; simpl; [|apply cache_step_refl].
    unfold next, pure_generator. destruct t; apply cache_step_refl.
  - unfold next, Dispatcher_gen_dispatch.
    pose proof (gen_methods_effect args kw self) as Hstep.
    destruct (gen_methods RT PY args kw self) as [cands s']. simpl in *.
    by destruct (evaluate_candidates PY s' args kw false cands).
Qed.
End effects.

(** ** Single mode and multi mode on the engine's own methods *)

Section dispatching.
Context (RT : runtime) (PY : behaviour).

Lemma apply_handler_same_config s s' c args kw :
  same_config s s' →
  apply_handler PY s' c args kw = apply_handler PY s c args kw.
Proof.
  intros (Hc & Hb & _). unfold apply_handler, delegated.
  by rewrite (delegate_same_binding s s' _ Hb), Hc.
Qed.

Lemma evaluate_candidates_same_config s s' args kw b t :
  same_config s s' →
  evaluate_candidates PY s' args kw b t = evaluate_candidates PY s args kw b t.
Proof.
  intros H. revert b. induction t as [|e|c rest IH]; intros b; simpl; [done..|].
  rewrite (apply_handler_same_config s s' c args kw H).
  destruct (apply_handler PY s c args kw); [|done]. by rewrite IH.
Qed.

(** The results of multi mode, from the candidates. *)
Lemma Dispatcher_gen_dispatch_trace self args kw :
  fst (Dispatcher_gen_dispatch RT PY args kw self) =
  evaluate_candidates PY self args kw false (fst (gen_methods RT PY args kw self)).
Proof.
  unfold Dispatcher_gen_dispatch.
  pose proof (gen_methods_effect RT PY args kw self) as [Hcfg _].
  destruct (gen_methods RT PY args kw self) as [cands s']. simpl in *.
  by apply evaluate_candidates_same_config.
Qed.

Lemma gen_dispatch_own self args kw :
  undelegated self = true →
  gen_dispatch RT PY args kw self = Ok (Dispatcher_gen_dispatch RT PY args kw).
Proof. intros Hu. unfold gen_dispatch. by undelegate Hu. Qed.

(** The result of single mode, from the candidates. *)
Lemma dispatch_own self args kw :
  undelegated self = true →
  fst (dispatch RT PY args kw self) =
  match evaluate_candidates PY self args kw false
          (fst (gen_methods RT PY args kw self)) with
  | Yield result_ _ => Ok result_
  | Stop => Ok VNone
  | Raise e => Err e
  end.
Proof.
  intros Hu. unfold dispatch. undelegate Hu. rewrite gen_dispatch_own by done.
  unfold next. rewrite <- Dispatcher_gen_dispatch_trace.
  destruct (Dispatcher_gen_dispatch RT PY args kw self) as [[|e|r rest] s']; done.
Qed.

Lemma dispatch_first_candidate self args kw c more :
  undelegated self = true →
  fst (gen_methods RT PY args kw self) = Yield c more →
  fst (dispatch RT PY args kw self) = apply_handler PY self c args kw.
Proof.
  intros Hu Hc. rewrite dispatch_own, Hc by done. simpl.
  by destruct (apply_handler PY self c args kw).
Qed.

(** The engine's own [apply_handler]. *)
Lemma apply_handler_own self c args kw :
  undelegated self = true →
  apply_handler PY self c args kw =
    if decide ("method_data" ∈ dom kw) then Err TypeError
    else match cls self with
         | RegexD => RegexDispatcher_apply_handler PY c args kw
         | SignatureD | TypeD => Dispatcher_apply_handler PY c args kw
         end.
Proof. intros Hu. unfold apply_handler. by undelegate Hu. Qed.

Lemma apply_handler_no_keyword self c args :
  undelegated self = true →
  apply_handler PY self c args ∅ =
    match cls self with
    | RegexD => RegexDispatcher_apply_handler PY c args ∅
    | SignatureD | TypeD => Dispatcher_apply_handler PY c args ∅
    end.
Proof.
  intros Hu. rewrite apply_handler_own by done.
  rewrite decide_False; [done|]. rewrite dom_empty_L. apply not_elem_of_empty.
Qed.

(** The first candidate of the Signature strategy is the first entry of
    the registry. *)
Lemma signature_first_candidate self o i name rest m args kw :
  cls self = SignatureD →
  inst self = Bound (Some o) →
  undelegated self = true →
  default [] (registry_slot self) = (i, name) :: rest →
  attr o name = Some m →
  ∃ more, fst (gen_methods RT PY args kw self)
          = Yield (MTuple3 m (fst (loads i)) (snd (loads i))) more.
Proof.
  intros Hc Hi Hu Hreg Hm. unfold gen_methods. undelegate Hu. rewrite Hc.
  unfold Dispatcher_gen_methods.
  pose proof (read_registry_effect self) as (Hfst & _ & (_ & (_ & _ & Hinst) & _) & _).
  destruct (read_registry self) as [reg s']. simpl in *.
  rewrite Hfst, Hreg. unfold self_inst. rewrite Hinst, Hi.
  destruct i as [a rk]. simpl. unfold getattr, getattr_default. simpl.
  rewrite Hm. eexists. reflexivity.
Qed.
End dispatching.

(** ** What pickling keeps *)

(** Numbers, strings, [None] and the tuples and lists of them. *)
Fixpoint plain (v : value) : bool :=
  match v with
  | VTuple items | VList items => forallb plain items
  | VNone | VInt _ | VStr _ => true
  | VMatch _ _ | VObj _ _ => false
  end.

Lemma unpickled_plain (v : value) : plain v = true → unpickled v = v.
Proof.
  induction v as [| | |items IH|items IH| |] using value_nested_ind;
    simpl; try done.
  - intros Hall. f_equal. induction IH as [|x items Hx _ IHitems]; [done|].
    simpl in Hall. apply andb_true_iff in Hall as [H1 H2].
    csimpl. by rewrite Hx, IHitems.
  - intros Hall. f_equal. induction IH as [|x items Hx _ IHitems]; [done|].
    simpl in Hall. apply andb_true_iff in Hall as [H1 H2].
    csimpl. by rewrite Hx, IHitems.
Qed.

Lemma plain_picklable (v : value) : plain v = true → picklable v = true.
Proof.
  induction v as [| | |items IH|items IH| |] using value_nested_ind;
    simpl; try done.
  - intros Hall. induction IH as [|x items Hx _ IHitems]; [done|].
    simpl in *. apply andb_true_iff in Hall as [H1 H2].
    by rewrite Hx, IHitems.
  - intros Hall. induction IH as [|x items Hx _ IHitems]; [done|].
    simpl in *. apply andb_true_iff in Hall as [H1 H2].
    by rewrite Hx, IHitems.
Qed.

Lemma unpickled_plain_args (args : list value) :
  Forall (λ v, plain v = true) args → unpickled <$> args = args.
Proof.
  induction 1 as [|v args Hv _ IH]; [done|].
  csimpl. by rewrite (unpickled_plain v Hv), IH.
Qed.

Lemma unpickled_plain_kwargs (kw : kwargs) :
  map_Forall (λ _ v, plain v = true) kw → unpickled <$> kw = kw.
Proof.
  intros Hall. apply map_eq. intros key. rewrite lookup_fmap.
  destruct (kw !! key) as [v|] eqn:Hv; [|done].
  simpl. by rewrite (unpickled_plain v (Hall key v Hv)).
Qed.

(** The values that hold no object built by [pickle.loads]. *)
Fixpoint original (v : value) : bool :=
  match v with
  | VTuple items | VList items => forallb original items
  | VObj _ (Unpickled _) => false
  | VNone | VInt _ | VStr _ | VMatch _ _ | VObj _ (Created _) => true
  end.

(** An instance never survives pickling as the same object. *)
Lemma unpickled_instance (classes : list string) (ident : object_id) :
  unpickled (VObj classes ident) ≠ VObj classes ident.
Proof.
  simpl. intros [= H]. induction ident as [n|source IH]; [done|].
  injection H as H. by apply IH.
Qed.

(** Single mode on the Signature strategy: the first registered handler,
    with its recorded arguments, as unpickled, merged into the call's. *)
Lemma signature_first_registered (RT : runtime) (PY : behaviour)
    (self : dispatcher) (o : owner) (name : string) (i : invoc)
    (rest : list (invoc * string)) (m : method)
    (args : list value) (kw : kwargs) :
  cls self = SignatureD →
  inst self = Bound (Some o) →
  undelegated self = true →
  default [] (registry_slot self) = (i, name) :: rest →
  attr o name = Some m →
  fst (dispatch RT PY args kw self) =
    (if decide ("method_data" ∈ dom kw) then Err TypeError
     else if clobbers kw (loads i).2 then Err KeyClobberError
     else call PY m (args ++ (loads i).1) ((loads i).2 ∪ kw)).
Proof.
  intros Hc Hi Hu Hreg Hm.
  destruct (signature_first_candidate RT PY self o _ name rest m args kw
              Hc Hi Hu Hreg Hm) as [more Hfirst].
  rewrite (dispatch_first_candidate RT PY self args kw _ more Hu Hfirst).
  rewrite apply_handler_own by done. rewrite Hc.
  destruct (decide ("method_data" ∈ dom kw)); [done|]. simpl.
  unfold NoClobberDict_update. by destruct (clobbers kw _).
Qed.

(** The registration of the spec's scenario: a handler decorated with the
    key arguments [(1, 2)]. *)
Definition signature_scenario : dispatcher :=
  __get__ (Some (owner_with ["handler"]))
    (snd (decorate echo "handler" [VInt 1; VInt 2] ∅
            (new_dispatcher SignatureD true None))).

(** The same handler decorated with [(1, 2, x=5)]. *)
Definition keyword_scenario : dispatcher :=
  __get__ (Some (owner_with ["handler"]))
    (snd (decorate echo "handler" [VInt 1; VInt 2] {["x" := VInt 5]}
            (new_dispatcher SignatureD true None))).

(** C5, as amended. Signature dispatch hands the first registered handler
    the call's positional arguments followed by the recorded ones, and the
    recorded keyword arguments merged into the call's; the recorded
    arguments are the ones [pickle.loads] gives back, equal to the
    registered ones when these are numbers, strings and the like. With
    [(1, 2)] recorded and [x=5] passed, the handler receives [(1, 2)] and
    [x=5]. The call fails with [KeyClobberError] exactly when some keyword
    is both recorded and passed and the value passed differs from the
    unpickled one, which an instance of a plain class always does. A
    keyword named [method_data] is refused with [TypeError] before any
    merging. (The keyword arguments of the call are values of the caller's
    own making.) *)
Theorem signature_merges_arguments
    (RT : runtime) (PY : behaviour) (self : dispatcher) (o : owner)
    (name : string) (recorded_args : list value) (recorded_kw : kwargs)
    (rest : list (invoc * string)) (m : method)
    (args : list value) (kw : kwargs) :
  cls self = SignatureD →
  inst self = Bound (Some o) →
  undelegated self = true →
  default [] (registry_slot self) = ((recorded_args, recorded_kw), name) :: rest →
  attr o name = Some m →
  map_Forall (λ _ v, original v = true) kw →
  let stored_args := unpickled <$> recorded_args in
  let stored_kw := unpickled <$> recorded_kw in
  fst (dispatch RT PY args kw self) =
    (if decide ("method_data" ∈ dom kw) then Err TypeError
     else if clobbers kw stored_kw then Err KeyClobberError
     else call PY m (args ++ stored_args) (stored_kw ∪ kw))
  ∧ (clobbers kw stored_kw = true ↔
     ∃ key v v', kw !! key = Some v ∧ stored_kw !! key = Some v' ∧ v ≠ v')
  ∧ (Forall (λ v, plain v = true) recorded_args →
     map_Forall (λ _ v, plain v = true) recorded_kw →
     stored_args = recorded_args ∧ stored_kw = recorded_kw)
  ∧ (∀ key classes ident,
       kw !! key = Some (VObj classes ident) →
       recorded_kw !! key = Some (VObj classes ident) →
       clobbers kw stored_kw = true)
  ∧ fst (dispatch RT PY [] {["x" := VInt 5]} signature_scenario)
    = call PY (BoundMethod "handler") [VInt 1; VInt 2] {["x" := VInt 5]}.
Proof.
  intros Hc Hi Hu Hreg Hm Horiginal stored_args stored_kw.
  split;
    [by apply (signature_first_registered RT PY self o name
                 (recorded_args, recorded_kw) rest)|].
  split; [apply clobbers_spec|].
  split; [intros Ha Hk; split;
            [by apply unpickled_plain_args|by apply unpickled_plain_kwargs]|].
  split.
  - intros key classes ident Hkw Hrec. apply clobbers_spec.
    exists key, (VObj classes ident), (unpickled (VObj classes ident)).
    split; [done|]. split.
    + unfold stored_kw. by rewrite lookup_fmap, Hrec.
    + intros Heq. by apply (unpickled_instance classes ident).
  - rewrite (signature_first_registered RT PY signature_scenario
               (owner_with ["handler"]) "handler"
               ([VInt 1; VInt 2], ∅) [] (BoundMethod "handler")) by reflexivity.
    rewrite decide_False by (by vm_compute).
    replace (clobbers {["x" := VInt 5]} (loads ([VInt 1; VInt 2], ∅)).2)
      with false by (by vm_compute).
    unfold loads. simpl. rewrite fmap_empty. by rewrite (left_id_L ∅ (∪)).
Qed.

Lemma signature_merges_arguments_witness :
  fst (dispatch default_cpython echo [VStr "token"] {["y" := VInt 6]} keyword_scenario)
  = Ok (received (BoundMethod "handler") [VStr "token"; VInt 1; VInt 2]
          {["x" := VInt 5; "y" := VInt 6]}).
Proof.
  destruct (signature_merges_arguments default_cpython echo keyword_scenario
              (owner_with ["handler"]) "handler" [VInt 1; VInt 2]
              {["x" := VInt 5]} [] (BoundMethod "handler")
              [VStr "token"] {["y" := VInt 6]}
              eq_refl eq_refl eq_refl eq_refl eq_refl) as [Hmerge _].
  - by apply map_Forall_singleton.
  - rewrite Hmerge. vm_compute. reflexivity.
Defined.

(** C5, the claim as stated fails: a keyword that duplicates a recorded one
    with the same value is accepted. *)
Lemma duplicate_keyword_with_equal_value_accepted :
  default [] (registry_slot keyword_scenario)
    = [(([VInt 1; VInt 2], {["x" := VInt 5]}), "handler")] ∧
  fst (dispatch default_cpython echo [] {["x" := VInt 5]} keyword_scenario)
    = Ok (received (BoundMethod "handler") [VInt 1; VInt 2] {["x" := VInt 5]})
  ∧ fst (dispatch default_cpython echo [] {["x" := VInt 5]} keyword_scenario)
    ≠ Err KeyClobberError.
Proof. split; [by vm_compute|]. split; [by vm_compute|]. by vm_compute. Qed.

(** ** The Pattern strategy *)

Section pattern_strategy.
Context (RT : runtime) (PY : behaviour).

(** [dispatch_data] is, or will be on first use, the compiled [data]. *)
Definition prepares_to (self : dispatcher) (data : list (regex * string)) : Prop :=
  dispatch_data_slot self = Some (PCompiled data)
  ∨ (dispatch_data_slot self = None ∧
     compile_registry RT (default [] (registry_slot self)) = Ok data).

Lemma regex_prepare self data :
  cls self = RegexD →
  undelegated self = true →
  dispatch_data_slot self = None →
  compile_registry RT (default [] (registry_slot self)) = Ok data →
  fst (dispatch_data RT PY self) = Ok (PCompiled data) ∧
  dispatch_data_slot (snd (dispatch_data RT PY self)) = Some (PCompiled data) ∧
  prepare_calls (snd (dispatch_data RT PY self)) = S (prepare_calls self) ∧
  same_config self (snd (dispatch_data RT PY self)).
Proof.
  intros Hc Hu Hslot Hcomp. unfold dispatch_data, CachedAttr. rewrite Hslot.
  unfold prepare.
  rewrite delegated_default
    by (apply (undelegated_delegate (count_prepare self));
        [by rewrite <- Hu; apply undelegated_same_binding|engine_op]).
  rewrite Hc. unfold RegexDispatcher_prepare.
  pose proof (read_registry_effect (count_prepare self))
    as (Hfst & _ & Hcfg & Hdd & Hn).
  destruct (read_registry (count_prepare self)) as [reg s'].
  assert (same_config self s') as Hcfg'.
  { eapply same_config_trans; [|exact Hcfg]. destruct self; by repeat split. }
  simpl in *. rewrite Hfst, Hcomp. simpl. split; [done|]. split; [done|].
  split; [done|]. eapply same_config_trans; [exact Hcfg'|].
  destruct s'; by repeat split.
Qed.

(** The candidates of a call whose arguments [get_text] accepts. *)
Lemma regex_gen_methods_text self o data args kw text :
  cls self = RegexD →
  inst self = Bound o →
  undelegated self = true →
  prepares_to self data →
  RegexDispatcher_get_text args kw = Ok text →
  fst (gen_methods RT PY args kw self) =
    match_patterns RT (Ok o) text data (try_generic_handler (Ok o))
  ∧ dispatch_data_slot (snd (gen_methods RT PY args kw self))
    = Some (PCompiled data).
Proof.
  intros Hc Hi Hu Hprep Htext. unfold gen_methods. undelegate Hu. rewrite Hc.
  unfold RegexDispatcher_gen_methods, get_text. undelegate Hu. rewrite Htext.
  destruct Hprep as [Hslot|[Hslot Hcomp]].
  - rewrite (dispatch_data_cached RT PY self _ Hslot).
    unfold self_inst. by rewrite Hi.
  - destruct (regex_prepare self data Hc Hu Hslot Hcomp)
      as (Hfst & Hdd & _ & (_ & (_ & _ & Hinst) & _)).
    destruct (dispatch_data RT PY self) as [r s']. simpl in *. subst r.
    unfold self_inst. by rewrite Hinst, Hi.
Qed.

Lemma regex_gen_methods self o data text :
  cls self = RegexD →
  inst self = Bound o →
  undelegated self = true →
  prepares_to self data →
  fst (gen_methods RT PY [text] ∅ self) =
    match_patterns RT (Ok o) text data (try_generic_handler (Ok o))
  ∧ dispatch_data_slot (snd (gen_methods RT PY [text] ∅ self))
    = Some (PCompiled data).
Proof.
  intros Hc Hi Hu Hprep.
  by apply regex_gen_methods_text.
Qed.

(** Patterns that do not match are passed over. *)
Lemma match_patterns_skip o text s pre data k :
  text = VStr s →
  Forall (λ entry, re_match RT entry.1 s = false) pre →
  match_patterns RT o text (pre ++ data) k = match_patterns RT o text data k.
Proof.
  intros ->. induction 1 as [|[rgx name] pre Hno _ IH]; simpl; [done|].
  simpl in Hno. by rewrite Hno.
Qed.

(** First registered, first matched. *)
Lemma regex_first_match self o data pre rgx name post m s :
  cls self = RegexD →
  inst self = Bound (Some o) →
  undelegated self = true →
  prepares_to self data →
  data = pre ++ (rgx, name) :: post →
  Forall (λ entry, re_match RT entry.1 s = false) pre →
  re_match RT rgx s = true →
  attr o name = Some m →
  fst (dispatch RT PY [VStr s] ∅ self) = call PY m [VStr s; VMatch rgx s] ∅.
Proof.
  intros Hc Hi Hu Hprep -> Hpre Hmatch Hm.
  destruct (regex_gen_methods self (Some o) _ (VStr s) Hc Hi Hu Hprep) as [Hcands _].
  rewrite (match_patterns_skip _ _ s pre _ _ eq_refl Hpre) in Hcands.
  simpl in Hcands. rewrite Hmatch in Hcands.
  unfold getattr, getattr_default in Hcands. simpl in Hcands. rewrite Hm in Hcands.
  rewrite (dispatch_first_candidate RT PY self _ _ _ _ Hu Hcands).
  rewrite apply_handler_no_keyword by done. by rewrite Hc.
Qed.

(** No pattern matches: the candidates are the generic handler alone, if
    the owner has one. *)
Lemma regex_no_match self o data s :
  cls self = RegexD →
  inst self = Bound o →
  undelegated self = true →
  prepares_to self data →
  Forall (λ entry, re_match RT entry.1 s = false) data →
  fst (gen_methods RT PY [VStr s] ∅ self) = try_generic_handler (Ok o).
Proof.
  intros Hc Hi Hu Hprep Hno.
  destruct (regex_gen_methods self o _ (VStr s) Hc Hi Hu Hprep) as [-> _].
  rewrite <- (app_nil_r data).
  by rewrite (match_patterns_skip _ _ s data [] _ eq_refl Hno).
Qed.
End pattern_strategy.

(** ** Registration order *)

(** A dispatcher declared in a class body and used to decorate the listed
    methods, in order. *)
Definition registered (PY : behaviour) (c : dispatcher_class) (delegate_ : bool)
    (prefix : option string) (entries : list (string * list value * kwargs))
    : dispatcher :=
  foldl (λ d '(name, args, kw), snd (decorate PY name args kw d))
        (new_dispatcher c delegate_ prefix) entries.

(** The arguments of a decoration that [register] can record: they pickle,
    and no keyword is named [self]. *)
Definition recordable (e : string * list value * kwargs) : bool :=
  bool_decide ("self" ∉ dom e.2)
  && forallb picklable (e.1.2 ++ (map_to_list e.2).*2).

Definition registry_entry (e : string * list value * kwargs) : invoc * string :=
  let '(name, args, kw) := e in ((args, kw), name).

Lemma dump_invoc_recordable (name : string) (args : list value) (kw : kwargs) :
  dump_invoc args kw =
    if recordable (name, args, kw) then Ok (args, kw) else Err TypeError.
Proof.
  unfold dump_invoc, dumps, recordable. simpl.
  destruct (decide ("self" ∈ dom kw)) as [Hin|Hout].
  - by rewrite bool_decide_eq_false_2 by (by intros H; apply H).
  - by rewrite bool_decide_eq_true_2 by done.
Qed.

(** Plain arguments without a keyword [self] are recordable. *)
Lemma plain_recordable (name : string) (args : list value) (kw : kwargs) :
  "self" ∉ dom kw →
  Forall (λ v, plain v = true) args →
  map_Forall (λ _ v, plain v = true) kw →
  recordable (name, args, kw) = true.
Proof.
  intros Hself Hargs Hkw. unfold recordable. simpl.
  rewrite bool_decide_eq_true_2 by done. simpl.
  apply forallb_forall. intros v [Hin|Hin]%in_app_or.
  - apply plain_picklable. rewrite Forall_forall in Hargs.
    by apply Hargs, list_elem_of_In.
  - apply list_elem_of_In, list_elem_of_fmap in Hin as ([key w] & -> & Hin).
    apply elem_of_map_to_list in Hin. apply plain_picklable. by apply (Hkw key).
Qed.

Lemma register_unbound PY name args kw self :
  inst self = Unbound →
  recordable (name, args, kw) = true →
  let self' := snd (register PY name args kw self) in
  default [] (registry_slot self')
    = default [] (registry_slot self) ++ [((args, kw), name)]
  ∧ inst self' = Unbound ∧ cls self' = cls self
  ∧ try_delegation self' = try_delegation self
  ∧ delegator_prefix self' = delegator_prefix self
  ∧ dispatch_data_slot self' = dispatch_data_slot self.
Proof.
  intros Hi Hrec. unfold register, delegated, delegate. rewrite Hi.
  rewrite (dump_invoc_recordable name), Hrec.
  destruct self as [c [] dp mp i [reg|] dd n]; simpl in *; by repeat split.
Qed.

(** The registry lists the registrations in the order they were made. *)
Lemma registered_registry PY c delegate_ prefix entries :
  Forall (λ e, recordable e = true) entries →
  default [] (registry_slot (registered PY c delegate_ prefix entries))
    = registry_entry <$> entries
  ∧ cls (registered PY c delegate_ prefix entries) = c
  ∧ try_delegation (registered PY c delegate_ prefix entries) = delegate_
  ∧ delegator_prefix (registered PY c delegate_ prefix entries) = prefix
  ∧ dispatch_data_slot (registered PY c delegate_ prefix entries) = None
  ∧ inst (registered PY c delegate_ prefix entries) = Unbound.
Proof.
  intros Hall. unfold registered.
  assert (∀ d, inst d = Unbound →
    let d' := foldl (λ d '(name, args, kw), snd (decorate PY name args kw d)) d entries in
    default [] (registry_slot d')
      = default [] (registry_slot d) ++ (registry_entry <$> entries)
    ∧ cls d' = cls d ∧ try_delegation d' = try_delegation d
    ∧ delegator_prefix d' = delegator_prefix d
    ∧ dispatch_data_slot d' = dispatch_data_slot d
    ∧ inst d' = Unbound) as Hfold.
  { unfold decorate.
    induction Hall as [|[[name args] kw] entries Hrec _ IH]; intros d Hd.
    - simpl. by rewrite app_nil_r.
    - destruct (register_unbound PY name args kw d Hd Hrec)
        as (Hr & Hi & Hc & Ht & Hp & Hdd).
      specialize (IH _ Hi). cbn [foldl].
      destruct IH as (-> & -> & -> & -> & -> & ->).
      rewrite Hr, Hc, Ht, Hp, Hdd, <- app_assoc. done. }
  by apply (Hfold (new_dispatcher c delegate_ prefix)).
Qed.

(** The patterns of the registrations, once compiled by [prepare]. *)
Lemma compile_registry_entries (RT : runtime)
    (compiled : string * list value * kwargs → regex)
    (entries : list (string * list value * kwargs)) :
  Forall (λ e, re_compile RT (unpickled <$> e.1.2) (unpickled <$> e.2)
               = Ok (compiled e)) entries →
  compile_registry RT (registry_entry <$> entries)
    = Ok ((λ e, (compiled e, e.1.1)) <$> entries).
Proof.
  induction 1 as [|[[name args] kw] entries He _ IH]; [done|].
  csimpl. unfold loads. simpl in *. rewrite He. csimpl. rewrite IH. done.
Qed.

(** The Pattern scenario: [P1 = "^a"] then [P2 = "^ab"]. *)
Definition pattern_scenario : dispatcher :=
  __get__ (Some (owner_with ["on_a"; "on_ab"]))
    (registered echo RegexD true None
       [("on_a", [VStr "^a"], ∅); ("on_ab", [VStr "^ab"], ∅)]).

(** C3. Registration order is the tie-break. Any number of registrations
    made on a fresh dispatcher are kept in the registry in the order they
    were made. Single-mode dispatch returns the result of the first
    registration that is a candidate, whatever was registered after it: for
    the Signature strategy every registration is a candidate, so the first
    one registered wins; for the Pattern strategy the registrations made
    before it whose patterns do not match the text are passed over and any
    registration made after it, matching or not, is not used. With [^a] and
    [^ab] registered in that order, [abc] goes to the handler of [^a].
    (For the Signature strategy the result of the first registration is
    what [apply_handler] makes of its candidate: the call of its handler
    with the merged arguments when no keyword of the call is recorded too or
    named [method_data].) *)
Theorem registration_order_breaks_ties
    (RT : runtime) (PY : behaviour) (o : owner) (c : dispatcher_class)
    (delegate_ : bool) (prefix : option string)
    (entries later earlier later_patterns : list (string * list value * kwargs))
    (n1 : string) (a1 : list value) (k1 : kwargs) (m1 : method)
    (args : list value) (kw : kwargs)
    (h1 : string) (p1 : list value) (q1 : kwargs) (mh1 : method)
    (compiled : string * list value * kwargs → regex) (text : string) :
  let ds := __get__ (Some o)
              (registered PY SignatureD delegate_ prefix ((n1, a1, k1) :: later)) in
  let patterns := earlier ++ (h1, p1, q1) :: later_patterns in
  let dr := __get__ (Some o) (registered PY RegexD delegate_ prefix patterns) in
  Forall (λ e, recordable e = true) entries →
  Forall (λ e, recordable e = true) ((n1, a1, k1) :: later) →
  Forall (λ e, recordable e = true) patterns →
  undelegated ds = true →
  attr o n1 = Some m1 →
  attr o h1 = Some mh1 →
  Forall (λ e, re_compile RT (unpickled <$> e.1.2) (unpickled <$> e.2)
               = Ok (compiled e)) patterns →
  Forall (λ e, re_match RT (compiled e) text = false) earlier →
  re_match RT (compiled (h1, p1, q1)) text = true →
  default [] (registry_slot (registered PY c delegate_ prefix entries))
    = (λ '(name, recorded_args, recorded_kw),
         ((recorded_args, recorded_kw), name)) <$> entries
  ∧ fst (dispatch RT PY args kw ds)
    = apply_handler PY ds (MTuple3 m1 (unpickled <$> a1) (unpickled <$> k1))
        args kw
  ∧ (("method_data" ∉ dom kw) → dom kw ## dom k1 →
     fst (dispatch RT PY args kw ds)
     = call PY m1 (args ++ (unpickled <$> a1)) ((unpickled <$> k1) ∪ kw))
  ∧ fst (dispatch RT PY [VStr text] ∅ dr)
    = call PY mh1 [VStr text; VMatch (compiled (h1, p1, q1)) text] ∅
  ∧ fst (dispatch default_cpython echo [VStr "abc"] ∅ pattern_scenario)
    = Ok (received (BoundMethod "on_a")
            [VStr "abc"; VMatch (Regex "^a" 0) "abc"] ∅).
Proof.
  intros ds patterns dr Hentries Hsig Hpat Hu Hm1 Hmh1 Hcomp Hearlier Hmatch.
  destruct (registered_registry PY c delegate_ prefix entries Hentries)
    as (Hreg & _).
  destruct (registered_registry PY SignatureD delegate_ prefix _ Hsig)
    as (Hsreg & Hsc & Hst & Hsp & _).
  destruct (registered_registry PY RegexD delegate_ prefix _ Hpat)
    as (Hrreg & Hrc & Hrt & Hrp & Hrdd & _).
  assert (Hur : undelegated dr = true).
  { rewrite <- Hu. apply undelegated_same_binding. unfold ds, dr, __get__.
    repeat split; simpl; congruence. }
  assert (Hfirst : ∃ more, fst (gen_methods RT PY args kw ds)
            = Yield (MTuple3 m1 (unpickled <$> a1) (unpickled <$> k1)) more).
  { by apply (signature_first_candidate RT PY ds o (a1, k1) n1
                (registry_entry <$> later)). }
  destruct Hfirst as [more Hfirst].
  split; [exact Hreg|]. split; [|split; [|split]].
  - by apply (dispatch_first_candidate RT PY ds args kw _ more).
  - intros Hmd Hdisjoint.
    rewrite (signature_first_registered RT PY ds o n1 (a1, k1)
               (registry_entry <$> later) m1) by done.
    rewrite decide_False by done.
    replace (clobbers kw (loads (a1, k1)).2) with false; [done|].
    symmetry. apply clobbers_false. intros key v v' Hv Hv'.
    unfold loads in Hv'. simpl in Hv'. rewrite lookup_fmap in Hv'.
    destruct (k1 !! key) as [w|] eqn:Hw; [|done].
    exfalso. apply (Hdisjoint key); apply elem_of_dom; eauto.
  - apply (regex_first_match RT PY dr o
             ((λ e, (compiled e, e.1.1)) <$> patterns)
             ((λ e, (compiled e, e.1.1)) <$> earlier)
             (compiled (h1, p1, q1)) h1
             ((λ e, (compiled e, e.1.1)) <$> later_patterns)); try done.
    + right. split; [exact Hrdd|].
      change (registry_slot dr) with
        (registry_slot (registered PY RegexD delegate_ prefix patterns)).
      rewrite Hrreg. by apply compile_registry_entries.
    + unfold patterns. by rewrite fmap_app, fmap_cons.
    + apply Forall_fmap. eapply Forall_impl; [exact Hearlier|]. done.
  - by vm_compute.
Qed.

(** A pattern that does not match [abc], registered before the two that
    do. *)
Definition three_patterns_scenario : dispatcher :=
  __get__ (Some (owner_with ["on_z"; "on_a"; "on_ab"]))
    (registered echo RegexD true None
       [("on_z", [VStr "^z"], ∅); ("on_a", [VStr "^a"], ∅);
        ("on_ab", [VStr "^ab"], ∅)]).

Lemma registration_order_breaks_ties_witness :
  fst (dispatch default_cpython echo [VStr "abc"] ∅ three_patterns_scenario)
  = Ok (received (BoundMethod "on_a")
          [VStr "abc"; VMatch (Regex "^a" 0) "abc"] ∅).
Proof.
  destruct (registration_order_breaks_ties default_cpython echo
              (owner_with ["on_z"; "on_a"; "on_ab"]) RegexD true None
              [] [("on_ab", [VInt 2], ∅)]
              [("on_z", [VStr "^z"], ∅)] [("on_ab", [VStr "^ab"], ∅)]
              "on_a" [VInt 1] ∅ (BoundMethod "on_a") [] ∅
              "on_a" [VStr "^a"] ∅ (BoundMethod "on_a")
              (λ e, match e.1.2 with [VStr p] => Regex p 0 | _ => Regex "" 0 end)
              "abc")
    as (_ & _ & _ & Hpattern & _);
    [repeat constructor..|exact Hpattern].
Defined.

(** ** The generic handler of the Pattern strategy *)

(** One pattern and a generic handler. *)
Definition fallback_scenario : dispatcher :=
  __get__ (Some (owner_with ["on_a"; "generic_handler"]))
    (registered echo RegexD true None [("on_a", [VStr "^a"], ∅)]).

(** Single mode reaches the generic handler only when no pattern matches,
    and fails with [DispatchError] when there is none either. *)
Lemma regex_dispatch_without_match (RT : runtime) (PY : behaviour)
    (self : dispatcher) (o : owner) (data : list (regex * string)) (s : string) :
  cls self = RegexD →
  inst self = Bound (Some o) →
  undelegated self = true →
  prepares_to RT self data →
  Forall (λ entry, re_match RT entry.1 s = false) data →
  fst (dispatch RT PY [VStr s] ∅ self) =
    match attr o "generic_handler" with
    | Some generic => call PY generic [VStr s] ∅
    | None => Err DispatchError
    end.
Proof.
  intros Hc Hi Hu Hprep Hno.
  rewrite dispatch_own by done.
  rewrite (regex_no_match RT PY self (Some o) data s Hc Hi Hu Hprep Hno).
  simpl. unfold getattr_default. simpl.
  destruct (attr o "generic_handler") as [generic|]; simpl; [|done].
  unfold apply_handler. undelegate Hu. rewrite Hc. simpl.
  by destruct (call PY generic [VStr s] ∅).
Qed.

(** C7, the code at the failing input. The pattern [^a] matches [abc], and
    the generic handler is a candidate all the same: multi mode runs it
    after the matching handler. *)
Theorem regex_generic_handler_follows_a_match :
  yields (fst (gen_methods default_cpython echo [VStr "abc"] ∅ fallback_scenario))
    = [MTuple2 (BoundMethod "on_a") [VStr "abc"; VMatch (Regex "^a" 0) "abc"];
       MBare (BoundMethod "generic_handler")]
  ∧ yields (fst (Dispatcher_gen_dispatch default_cpython echo [VStr "abc"] ∅
                   fallback_scenario))
    = [received (BoundMethod "on_a") [VStr "abc"; VMatch (Regex "^a" 0) "abc"] ∅;
       received (BoundMethod "generic_handler") [VStr "abc"] ∅]
  ∧ fst (dispatch default_cpython echo [VStr "abc"] ∅ fallback_scenario)
    = Ok (received (BoundMethod "on_a") [VStr "abc"; VMatch (Regex "^a" 0) "abc"] ∅).
Proof. repeat split; by vm_compute. Qed.

(** ** Multi mode: when errors surface *)

Section multi_mode.
Context (RT : runtime) (PY : behaviour).

Lemma evaluate_no_candidate self args kw t :
  yields t = [] →
  evaluate_candidates PY self args kw false t
    = Raise (default DispatchError (raised t)).
Proof. destruct t; simpl; [done..|]. discriminate. Qed.

End multi_mode.

(** C4, as amended. [gen_dispatch] called for a token with no candidate
    raises nothing: it returns the generator. [DispatchError] is raised when
    the generator is first advanced, before any result. *)
Theorem gen_dispatch_reports_no_candidate_on_first_next
    (RT : runtime) (PY : behaviour) (self : dispatcher)
    (args : list value) (kw : kwargs) :
  undelegated self = true →
  yields (fst (gen_methods RT PY args kw self)) = [] →
  default DispatchError (raised (fst (gen_methods RT PY args kw self)))
    = DispatchError →
  ∃ g, gen_dispatch RT PY args kw self = Ok g ∧
       fst (next g self) = Raised DispatchError.
Proof.
  intros Hu Hnone Hraised. exists (Dispatcher_gen_dispatch RT PY args kw).
  split; [by apply gen_dispatch_own|].
  pose proof (Dispatcher_gen_dispatch_trace RT PY self args kw) as Htrace.
  rewrite (evaluate_no_candidate PY self args kw _ Hnone), Hraised in Htrace.
  unfold next.
  destruct (Dispatcher_gen_dispatch RT PY args kw self) as [out s'].
  simpl in Htrace. by subst out.
Qed.

Lemma gen_dispatch_reports_no_candidate_on_first_next_witness :
  ∃ g, gen_dispatch default_cpython echo [VStr "zzz"] ∅ pattern_scenario = Ok g ∧
       fst (next g pattern_scenario) = Raised DispatchError.
Proof.
  apply (gen_dispatch_reports_no_candidate_on_first_next default_cpython echo
           pattern_scenario [VStr "zzz"] ∅); reflexivity.
Defined.

(** C4, the claim as stated fails: no pattern matches [zzz] and the owner
    has no generic handler, yet the call of [gen_dispatch] does not raise. *)
Lemma gen_dispatch_call_does_not_raise :
  yields (fst (gen_methods default_cpython echo [VStr "zzz"] ∅ pattern_scenario)) = []
  ∧ gen_dispatch default_cpython echo [VStr "zzz"] ∅ pattern_scenario
    ≠ Err DispatchError.
Proof.
  split; [by vm_compute|].
  rewrite gen_dispatch_own by reflexivity. discriminate.
Qed.

(** Three patterns that all match [abc]; the second handler interrupts. *)
Definition interrupt_scenario : dispatcher :=
  __get__ (Some (owner_with ["on_a"; "stop"; "on_abc"]))
    (registered interrupting RegexD true None
       [("on_a", [VStr "^a"], ∅); ("stop", [VStr "^ab"], ∅);
        ("on_abc", [VStr "^abc"], ∅)]).




(** ** Registration after preparation *)

(** The Pattern scenario after a first dispatch: [dispatch_data] is cached. *)
Definition prepared_scenario : dispatcher :=
  snd (dispatch default_cpython echo [VStr "abc"] ∅ pattern_scenario).

(** C6, as amended. [register] never checks whether the prepared data is
    cached. Called after preparation it does what it does before: when the
    arguments can be pickled (and no keyword is named [self]) it succeeds
    and appends the entry to the registry; otherwise it raises the
    [TypeError] of the pickling and the dispatcher is left as it was. In
    both cases the cached [dispatch_data] attribute is left as it is, with
    no new run of [prepare], and the error is never
    [ImplementationError]. *)
Theorem register_after_preparation_appends
    (PY : behaviour) (self : dispatcher) (name : string)
    (args : list value) (kw : kwargs) (p : prepared) :
  dispatch_data_slot self = Some p →
  delegate self "register" = None →
  (if recordable (name, args, kw)
   then fst (register PY name args kw self) = Ok ()
        ∧ registry_slot (snd (register PY name args kw self))
          = Some (default [] (registry_slot self) ++ [((args, kw), name)])
   else register PY name args kw self = (Err TypeError, self))
  ∧ dispatch_data_slot (snd (register PY name args kw self)) = Some p
  ∧ prepare_calls (snd (register PY name args kw self)) = prepare_calls self
  ∧ fst (register PY name args kw self) ≠ Err ImplementationError.
Proof.
  intros Hp Hd. unfold register. rewrite (delegated_default _ _ _ _ Hd).
  rewrite (dump_invoc_recordable name).
  destruct (recordable (name, args, kw)); [|done].
  unfold read_registry, registry, CachedAttr.
  destruct self as [c td dp mp i [reg|] dd n]; simpl in *; by subst.
Qed.

Lemma register_after_preparation_appends_witness :
  fst (register echo "on_z" [VStr "^z"] ∅ prepared_scenario) = Ok ()
  ∧ registry_slot (snd (register echo "on_z" [VStr "^z"] ∅ prepared_scenario))
    = Some [(([VStr "^a"], ∅), "on_a"); (([VStr "^ab"], ∅), "on_ab");
            (([VStr "^z"], ∅), "on_z")]
  ∧ dispatch_data_slot (snd (register echo "on_z" [VStr "^z"] ∅ prepared_scenario))
    = Some (PCompiled [(Regex "^a" 0, "on_a"); (Regex "^ab" 0, "on_ab")])
  ∧ prepare_calls (snd (register echo "on_z" [VStr "^z"] ∅ prepared_scenario))
    = 1%nat.
Proof.
  destruct (register_after_preparation_appends echo prepared_scenario "on_z"
              [VStr "^z"] ∅
              (PCompiled [(Regex "^a" 0, "on_a"); (Regex "^ab" 0, "on_ab")])
              eq_refl eq_refl) as ([Hok Hreg] & Hdd & Hn & _).
  split; [exact Hok|]. split; [exact Hreg|]. split; [exact Hdd|exact Hn].
Defined.

(** C6, the claim as stated fails: the prepared data is cached and
    [register] returns normally. *)
Lemma register_after_preparation_is_accepted :
  dispatch_data_slot prepared_scenario
    = Some (PCompiled [(Regex "^a" 0, "on_a"); (Regex "^ab" 0, "on_ab")])
  ∧ fst (register echo "on_z" [VStr "^z"] ∅ prepared_scenario) = Ok ()
  ∧ fst (register echo "on_z" [VStr "^z"] ∅ prepared_scenario)
    ≠ Err ImplementationError.
Proof. repeat split; by vm_compute. Qed.

(** The late registration is not seen by the Pattern strategy, which reads
    the cached data. *)
Example late_registration_is_not_dispatched :
  fst (dispatch default_cpython echo [VStr "zzz"] ∅
         (snd (register echo "on_z" [VStr "^z"] ∅ prepared_scenario)))
  = Err DispatchError.
Proof. by vm_compute. Qed.

(** ** Preparation and its cache *)

Section preparation.
Context (RT : runtime) (PY : behaviour).

Lemma cache_step_cached s s' :
  cache_step s s' →
  dispatch_data_slot s ≠ None ∨ cls s ≠ RegexD →
  dispatch_data_slot s' = dispatch_data_slot s ∧
  prepare_calls s' = prepare_calls s.
Proof.
  intros [_ [Hsame|(Hc & Hslot & _)]] Hor; [done|].
  destruct Hor as [H|H]; by destruct H.
Qed.

(** Dispatch calls never run [prepare] once the data is cached, and never
    at all on a Signature or Type dispatcher. *)
Lemma dispatch_all_cached calls self :
  dispatch_data_slot self ≠ None ∨ cls self ≠ RegexD →
  dispatch_data_slot (snd (dispatch_all RT PY calls self))
    = dispatch_data_slot self ∧
  prepare_calls (snd (dispatch_all RT PY calls self)) = prepare_calls self ∧
  same_config self (snd (dispatch_all RT PY calls self)).
Proof.
  revert self. induction calls as [|[args kw] calls IH]; intros self Hor; simpl.
  - repeat split; done.
  - pose proof (dispatch_effect RT PY args kw self) as Hstep.
    destruct (cache_step_cached _ _ Hstep Hor) as [Hdd Hn].
    destruct Hstep as [Hcfg _].
    destruct (dispatch RT PY args kw self) as [r s1]. simpl in *.
    assert (dispatch_data_slot s1 ≠ None ∨ cls s1 ≠ RegexD) as Hor1.
    { destruct Hcfg as (Hc & _). rewrite Hdd, Hc. done. }
    destruct (IH s1 Hor1) as (Hdd' & Hn' & Hcfg').
    destruct (dispatch_all RT PY calls s1) as [rs s2]. simpl in *.
    split; [congruence|]. split; [congruence|].
    by eapply same_config_trans.
Qed.

(** A call whose arguments [get_text(self, text)] cannot bind is refused
    before the dispatcher is touched. *)
Lemma regex_text_refused self args kw e :
  cls self = RegexD →
  undelegated self = true →
  RegexDispatcher_get_text args kw = Err e →
  dispatch RT PY args kw self = (Err e, self).
Proof.
  intros Hc Hu Htext. unfold dispatch. undelegate Hu.
  rewrite gen_dispatch_own by done.
  unfold next, Dispatcher_gen_dispatch, gen_methods. undelegate Hu. rewrite Hc.
  unfold RegexDispatcher_gen_methods, get_text. undelegate Hu.
  by rewrite Htext.
Qed.

(** The first dispatch of a Pattern dispatcher that passes the text runs
    [prepare] once and caches its result. *)
Lemma regex_first_dispatch self data args kw text :
  cls self = RegexD →
  undelegated self = true →
  dispatch_data_slot self = None →
  compile_registry RT (default [] (registry_slot self)) = Ok data →
  RegexDispatcher_get_text args kw = Ok text →
  dispatch_data_slot (snd (dispatch RT PY args kw self)) = Some (PCompiled data) ∧
  prepare_calls (snd (dispatch RT PY args kw self)) = S (prepare_calls self) ∧
  same_config self (snd (dispatch RT PY args kw self)).
Proof.
  intros Hc Hu Hslot Hcomp Htext.
  assert (snd (dispatch RT PY args kw self) = snd (gen_methods RT PY args kw self))
    as ->.
  { unfold dispatch. undelegate Hu. rewrite gen_dispatch_own by done.
    unfold next, Dispatcher_gen_dispatch.
    destruct (gen_methods RT PY args kw self) as [cands s']. simpl.
    by destruct (evaluate_candidates PY s' args kw false cands). }
  destruct (inst self) as [|o] eqn:Hi.
  - (* [self.inst] is missing: the data is prepared before the loop fails *)
    unfold gen_methods. undelegate Hu. rewrite Hc.
    unfold RegexDispatcher_gen_methods, get_text. undelegate Hu. rewrite Htext.
    destruct (regex_prepare RT PY self data Hc Hu Hslot Hcomp)
      as (Hfst & Hdd & Hn & Hcfg).
    destruct (dispatch_data RT PY self) as [r s']. simpl in *. by subst r.
  - destruct (regex_gen_methods_text RT PY self o data args kw text Hc Hi Hu)
      as [_ Hdd]; [by right|done|].
    pose proof (gen_methods_effect RT PY args kw self) as [Hcfg Hcache].
    split; [done|]. split; [|done].
    destruct Hcache as [[Hsame _]|(_ & _ & Hn)]; [|done].
    rewrite Hdd, Hslot in Hsame. discriminate.
Qed.
End preparation.

(** Whether the arguments of a dispatch call pass the binding of
    [get_text(self, text)]. *)
Definition passes_text (call_ : list value * kwargs) : bool :=
  if RegexDispatcher_get_text call_.1 call_.2 is Ok _ then true else false.

(** [get_text] accepts exactly one argument, by position or by name. *)
Lemma get_text_accepts (args : list value) (kw : kwargs) (text : value) :
  RegexDispatcher_get_text args kw = Ok text ↔
  (args = [text] ∧ kw = ∅) ∨ (args = [] ∧ kw = {["text" := text]}).
Proof.
  unfold RegexDispatcher_get_text. split.
  - destruct args as [|a [|b rest]]; [| |done].
    + destruct (kw !! "text") as [t|] eqn:Ht; [|done].
      destruct (decide (dom kw = {["text"]})) as [Hdom|]; [|done].
      intros [= ->]. right. split; [done|]. apply map_eq. intros key.
      destruct (decide (key = "text")) as [->|Hne].
      * by rewrite lookup_singleton_eq.
      * rewrite lookup_singleton_ne by done. apply not_elem_of_dom.
        rewrite Hdom. by apply not_elem_of_singleton.
    + destruct (decide (kw = ∅)) as [->|]; [|done]. intros [= ->]. by left.
  - intros [[-> ->]|[-> ->]].
    + by rewrite decide_True.
    + rewrite lookup_singleton_eq, decide_True; [done|]. apply dom_singleton_L.
Qed.

Lemma get_text_refuses (args : list value) (kw : kwargs) (e : exn) :
  RegexDispatcher_get_text args kw = Err e → e = TypeError.
Proof.
  unfold RegexDispatcher_get_text.
  destruct args as [|a [|b rest]]; [| |congruence].
  - destruct (kw !! "text"); [|congruence]. destruct (decide _); congruence.
  - destruct (decide _); congruence.
Qed.

(** A run of dispatch calls on a Pattern dispatcher that has not prepared
    its data yet. *)
Lemma dispatch_all_unprepared (RT : runtime) (PY : behaviour)
    (data : list (regex * string)) (calls : list (list value * kwargs))
    (self : dispatcher) :
  cls self = RegexD →
  undelegated self = true →
  dispatch_data_slot self = None →
  compile_registry RT (default [] (registry_slot self)) = Ok data →
  let self' := snd (dispatch_all RT PY calls self) in
  same_config self self' ∧
  prepare_calls self'
    = (prepare_calls self + if existsb passes_text calls then 1 else 0)%nat ∧
  dispatch_data_slot self'
    = if existsb passes_text calls then Some (PCompiled data) else None.
Proof.
  revert self. induction calls as [|[args kw] calls IH];
    intros self Hc Hu Hslot Hcomp; cbn [dispatch_all existsb].
  - simpl. split; [apply same_config_refl|]. split; [lia|done].
  - unfold passes_text at 1 3. cbn [fst snd].
    destruct (RegexDispatcher_get_text args kw) as [text|e] eqn:Htext; cbn [orb].
    + destruct (regex_first_dispatch RT PY self data args kw text
                  Hc Hu Hslot Hcomp Htext) as (Hdd & Hn & Hcfg).
      destruct (dispatch RT PY args kw self) as [r s1]. simpl in *.
      destruct (dispatch_all_cached RT PY calls s1) as (Hdd' & Hn' & Hcfg');
        [left; by rewrite Hdd|].
      destruct (dispatch_all RT PY calls s1) as [rs s2]. simpl in *.
      split; [by eapply same_config_trans|]. split; [lia|congruence].
    + rewrite (regex_text_refused RT PY self args kw e Hc Hu Htext).
      specialize (IH self Hc Hu Hslot Hcomp).
      destruct (dispatch_all RT PY calls self) as [rs s2]. simpl in *. done.
Qed.

(** C8, as amended. The prepared data is computed at most once. On a
    Pattern dispatcher whose patterns compile, a run of dispatch calls runs
    [prepare] exactly once, and caches its result, as soon as one call
    passes the text (one argument, by position or as the keyword [text]);
    the calls that [get_text] refuses do not reach the prepared data. No
    later dispatch call runs [prepare] again or changes the cache; after
    the owner deletes the cached attribute the next dispatch that passes
    the text runs [prepare] once more. Dispatch on a Signature or a Type
    dispatcher never runs [prepare]. *)
Theorem prepared_data_is_computed_once
    (RT : runtime) (PY : behaviour) (self : dispatcher)
    (data : list (regex * string)) (calls : list (list value * kwargs)) :
  cls self = RegexD →
  undelegated self = true →
  dispatch_data_slot self = None →
  compile_registry RT (default [] (registry_slot self)) = Ok data →
  let self' := snd (dispatch_all RT PY calls self) in
  (if existsb passes_text calls
   then prepare_calls self' = S (prepare_calls self)
        ∧ dispatch_data_slot self' = Some (PCompiled data)
   else prepare_calls self' = prepare_calls self
        ∧ dispatch_data_slot self' = None)
  ∧ (∀ args kw,
       passes_text (args, kw) = true ↔
       ∃ text, (args = [text] ∧ kw = ∅) ∨ (args = [] ∧ kw = {["text" := text]}))
  ∧ (dispatch_data_slot self' ≠ None →
     ∀ more,
       prepare_calls (snd (dispatch_all RT PY more self')) = prepare_calls self' ∧
       dispatch_data_slot (snd (dispatch_all RT PY more self'))
         = dispatch_data_slot self')
  ∧ (∀ args kw,
       passes_text (args, kw) = true →
       prepare_calls (snd (dispatch RT PY args kw (del_dispatch_data self')))
         = S (prepare_calls self'))
  ∧ (∀ delegate_ prefix mp b reg dd n more,
       prepare_calls (snd (dispatch_all RT PY more
         (Dispatcher SignatureD delegate_ prefix mp b reg dd n))) = n ∧
       prepare_calls (snd (dispatch_all RT PY more
         (Dispatcher TypeD delegate_ prefix mp b reg dd n))) = n).
Proof.
  intros Hc Hu Hslot Hcomp self'.
  destruct (dispatch_all_unprepared RT PY data calls self Hc Hu Hslot Hcomp)
    as (Hcfg & Hn & Hdd).
  fold self' in Hcfg, Hn, Hdd.
  split; [|split; [|split; [|split]]].
  - destruct (existsb passes_text calls); (split; [lia|done]).
  - intros args kw. unfold passes_text. cbn [fst snd]. split.
    + destruct (RegexDispatcher_get_text args kw) as [text|] eqn:Htext; [|done].
      intros _. exists text. by apply get_text_accepts.
    + intros [text Hshape]. apply get_text_accepts in Hshape. by rewrite Hshape.
  - intros Hcached more.
    destruct (dispatch_all_cached RT PY more self') as (H1 & H2 & _);
      [by left|done].
  - intros args kw Hpass. unfold passes_text in Hpass. cbn [fst snd] in Hpass.
    destruct (RegexDispatcher_get_text args kw) as [text|] eqn:Htext; [|done].
    destruct (regex_first_dispatch RT PY (del_dispatch_data self') data args kw text)
      as (_ & Hn' & _); try done.
    + destruct Hcfg as (Hc' & _). simpl. congruence.
    + rewrite <- Hu. apply undelegated_same_binding.
      destruct Hcfg as (_ & (H1 & H2 & H3) & _). by repeat split.
    + destruct Hcfg as (_ & _ & _ & Hreg). simpl. by rewrite Hreg.
  - intros delegate_ prefix mp b reg dd n more. split.
    + by destruct (dispatch_all_cached RT PY more
                     (Dispatcher SignatureD delegate_ prefix mp b reg dd n))
        as (_ & H2 & _); [right|].
    + by destruct (dispatch_all_cached RT PY more
                     (Dispatcher TypeD delegate_ prefix mp b reg dd n))
        as (_ & H2 & _); [right|].
Qed.

Lemma prepared_data_is_computed_once_witness :
  prepare_calls (snd (dispatch_all default_cpython echo
                        [([VStr "abc"; VInt 1], ∅); ([VStr "abc"], ∅);
                         ([VStr "zzz"], ∅); ([], {["text" := VStr "ab"]})]
                        pattern_scenario)) = 1%nat
  ∧ dispatch_data_slot (snd (dispatch_all default_cpython echo
                        [([VStr "abc"; VInt 1], ∅); ([VStr "abc"], ∅);
                         ([VStr "zzz"], ∅); ([], {["text" := VStr "ab"]})]
                        pattern_scenario))
    = Some (PCompiled [(Regex "^a" 0, "on_a"); (Regex "^ab" 0, "on_ab")]).
Proof.
  destruct (prepared_data_is_computed_once default_cpython echo pattern_scenario
              [(Regex "^a" 0, "on_a"); (Regex "^ab" 0, "on_ab")]
              [([VStr "abc"; VInt 1], ∅); ([VStr "abc"], ∅);
               ([VStr "zzz"], ∅); ([], {["text" := VStr "ab"]})]
              eq_refl eq_refl eq_refl eq_refl) as [Hruns _].
  exact Hruns.
Defined.

(** C8, the claim as stated fails: a Signature dispatcher is dispatched
    twice and [prepare] has not run at all. *)
Lemma signature_dispatch_never_prepares :
  prepare_calls (snd (dispatch_all default_cpython echo
                        [([VInt 0], ∅); ([VInt 0], ∅)] signature_scenario)) = 0%nat
  ∧ prepare_calls (snd (dispatch_all default_cpython echo
                          [([VInt 0], ∅); ([VInt 0], ∅)] signature_scenario)) ≠ 1%nat.
Proof. split; by vm_compute. Qed.

(** * Further properties of the engine *)

(** ** Single mode of the Type strategy *)

Lemma yields_cons_inv {A} (t : trace A) (a : A) (l : list A) :
  yields t = a :: l → ∃ rest, t = Yield a rest ∧ yields rest = l.
Proof. destruct t as [|e|b rest]; simpl; [done..|]. intros [= -> <-]. eauto. Qed.

Lemma yields_nil_inv {A} (t : trace A) :
  yields t = [] → t = Stop ∨ ∃ e, t = Raise e.
Proof. destruct t as [|e|b rest]; simpl; [by left|right; eauto|done]. Qed.

Lemma raised_for_each {A B} (f : A → trace B) (l : list A) :
  (∀ x, raised (f x) = None) → raised (for_each l f) = None.
Proof.
  intros H. induction l as [|x l IH]; simpl; [done|].
  by rewrite raised_tseq, H.
Qed.

Lemma yields_for_each {A B} (f : A → trace B) (l : list A) :
  (∀ x, raised (f x) = None) →
  yields (for_each l f) = l ≫= λ x, yields (f x).
Proof.
  intros H. induction l as [|x l IH]; [done|].
  cbn [for_each]. rewrite yields_tseq, H, IH. done.
Qed.

(** How the fallbacks of the Type strategy end for a token: the lookup of
    its type name in [__builtins__] may give something that is no class. *)
Definition builtin_lookup_error (RT : runtime) (token : value) : option exn :=
  match builtins_get RT (cls_name (type_of RT token)) with
  | Some NotAClass => Some TypeError
  | _ => None
  end.

Section type_single_mode.
Context (RT : runtime) (PY : behaviour).

(** On a bound dispatcher the lookups of the fallbacks cannot raise. *)
Lemma lookup_handlers_no_raise self o names :
  inst self = Bound o → raised (lookup_handlers self names) = None.
Proof.
  intros Hi. unfold lookup_handlers. apply raised_for_each. intros name.
  unfold self_inst. rewrite Hi.
  by destruct (getattr_default o (method_prefix self +:+ name)).
Qed.

Lemma check_basetype_raised self o token name basetype_ :
  inst self = Bound o → undelegated self = true →
  raised (check_basetype RT PY self token name basetype_)
    = if basetype_ is Some NotAClass then Some TypeError else None.
Proof.
  intros Hi Hu. unfold check_basetype. undelegate Hu.
  unfold TypeDispatcher_check_basetype.
  destruct basetype_ as [[bt|]|]; [|done..].
  destruct (isinstance RT token bt); [|done].
  by apply (lookup_handlers_no_raise self o).
Qed.

Lemma check_basetype_no_raise self o token name bt :
  inst self = Bound o → undelegated self = true →
  raised (check_basetype RT PY self token name (AClass <$> bt)) = None.
Proof.
  intros Hi Hu. rewrite (check_basetype_raised self o) by done.
  by destruct bt.
Qed.

Lemma gen_generic_trace self o :
  inst self = Bound o → undelegated self = true →
  raised (gen_generic PY self) = None ∧
  yields (gen_generic PY self)
    = omap (getattr_default o) generic_handler_aliases.
Proof.
  intros Hi Hu. unfold gen_generic. undelegate Hu.
  unfold TypeDispatcher_gen_generic, generic_handler_aliases, self_inst.
  rewrite Hi. cbn [for_each omap list_omap].
  destruct (getattr_default o "handle_anything"),
           (getattr_default o "generic_handler"),
           (getattr_default o "generic_handle"); done.
Qed.

Lemma fallbacks_raised self o token :
  inst self = Bound o → undelegated self = true →
  raised (fallbacks RT PY self token) = builtin_lookup_error RT token.
Proof.
  intros Hi Hu. unfold fallbacks, builtin_lookup_error.
  rewrite !raised_tseq.
  rewrite (check_basetype_raised self o) by done.
  rewrite raised_for_each by (intros; by apply (check_basetype_no_raise self o)).
  rewrite raised_for_each by (intros; by apply (check_basetype_no_raise self o)).
  destruct (gen_generic_trace self o Hi Hu) as [-> _].
  by destruct (builtins_get RT _) as [[|]|].
Qed.

Lemma type_gen_methods_raised self o token rest kw :
  cls self = TypeD → inst self = Bound o → undelegated self = true →
  raised (fst (gen_methods RT PY (token :: rest) kw self))
    = builtin_lookup_error RT token.
Proof.
  intros Hc Hi Hu. unfold gen_methods. undelegate Hu. rewrite Hc.
  unfold TypeDispatcher_gen_methods. cbn [fst].
  rewrite raised_tmap. unfold dedupe. rewrite raised_dedupe_from.
  unfold TypeDispatcher_gen_methods_undeduped, self_inst. rewrite Hi.
  rewrite raised_tseq.
  destruct (ancestor_walk_yields RT PY self o token rest kw) as [_ ->];
    [apply undelegated_delegate; [done|engine_op]|].
  by apply (fallbacks_raised self o).
Qed.
End type_single_mode.

(** X1. Single mode of the Type strategy calls the handler of the nearest
    ancestor type that has one, with the arguments of the call unchanged;
    the one call it refuses ([TypeError]) passes a keyword named
    [method_data]. *)
Theorem type_dispatch_calls_nearest_ancestor_handler
    (RT : runtime) (PY : behaviour) (self : dispatcher) (o : option owner)
    (token : value) (rest : list value) (kw : kwargs)
    (m : method) (farther : list method) :
  cls self = TypeD →
  inst self = Bound o →
  undelegated self = true →
  ancestor_handlers RT self o token = m :: farther →
  fst (dispatch RT PY (token :: rest) kw self) =
    if decide ("method_data" ∈ dom kw) then Err TypeError
    else call PY m (token :: rest) kw.
Proof.
  intros Hc Hi Hu Hfound.
  pose proof (TypeDispatcher_gen_methods_yields RT PY self o token rest kw Hi) as Hy.
  rewrite Hfound in Hy. cbn [first_occurrences] in Hy.
  rewrite decide_False in Hy by apply not_elem_of_nil.
  rewrite <- app_comm_cons, fmap_cons in Hy.
  assert (Hg : fst (gen_methods RT PY (token :: rest) kw self)
               = fst (TypeDispatcher_gen_methods RT PY (token :: rest) kw self)).
  { unfold gen_methods. undelegate Hu. by rewrite Hc. }
  rewrite <- Hg in Hy.
  assert (Hk : delegate self "gen_method_keys" = None)
    by (apply undelegated_delegate; [done|engine_op]).
  destruct (yields_cons_inv _ _ _ (Hy Hk)) as (more & Hfirst & _).
  rewrite (dispatch_first_candidate RT PY self _ _ _ more Hu Hfirst).
  rewrite apply_handler_own by done. by rewrite Hc.
Qed.

Lemma type_dispatch_calls_nearest_ancestor_handler_witness :
  fst (dispatch default_cpython echo
         [VObj ["Puppy"; "Dog"; "Animal"] (Created 0); VInt 3] {["loud" := VInt 1]}
         (bound_dispatcher TypeD kennel_owner))
  = Ok (received (BoundMethod "handle_Dog")
          [VObj ["Puppy"; "Dog"; "Animal"] (Created 0); VInt 3] {["loud" := VInt 1]}).
Proof.
  rewrite (type_dispatch_calls_nearest_ancestor_handler default_cpython echo
             (bound_dispatcher TypeD kennel_owner) (Some kennel_owner)
             (VObj ["Puppy"; "Dog"; "Animal"] (Created 0)) [VInt 3]
             {["loud" := VInt 1]}
             (BoundMethod "handle_Dog") [BoundMethod "handle_Animal"]
             eq_refl eq_refl eq_refl eq_refl).
  reflexivity.
Defined.

(** Delegation needs an owner instance that defines the method. *)
Lemma no_attribute_undelegated (self : dispatcher) (o : option owner) :
  inst self = Bound o →
  (∀ name, getattr_default o name = None) →
  undelegated self = true.
Proof.
  intros Hi Hnone. unfold undelegated. apply forallb_forall. intros name _.
  apply bool_decide_eq_true. unfold delegate. rewrite Hi.
  destruct (try_delegation self); [|done].
  destruct o as [ow|]; [|done]. apply (Hnone _).
Qed.

Lemma unbound_undelegated (self : dispatcher) :
  inst self = Unbound → undelegated self = true.
Proof.
  intros Hi. unfold undelegated. apply forallb_forall. intros name _.
  apply bool_decide_eq_true. unfold delegate. rewrite Hi.
  by destruct (try_delegation self).
Qed.

Section type_fallbacks.
Context (RT : runtime) (PY : behaviour).

Lemma check_basetype_yields_nothing self o token name basetype_ :
  inst self = Bound o → undelegated self = true →
  (∀ n, getattr_default o (method_prefix self +:+ n) = None) →
  yields (check_basetype RT PY self token name basetype_) = [].
Proof.
  intros Hi Hu Hnone. unfold check_basetype. undelegate Hu.
  unfold TypeDispatcher_check_basetype.
  destruct basetype_ as [[bt|]|]; [|done..].
  destruct (isinstance RT token bt); [|done].
  unfold lookup_handlers, self_inst. rewrite Hi. cbn [for_each].
  by rewrite !Hnone.
Qed.

Lemma bind_nothing {A B} (f : A → list B) (l : list A) :
  (∀ x, f x = []) → l ≫= f = [].
Proof. intros H. induction l as [|x l IH]; [done|]. by rewrite bind_cons, H, IH. Qed.

(** The handlers the fallbacks find when nothing stops them. *)
Lemma fallbacks_yield_nothing self o token :
  inst self = Bound o → undelegated self = true →
  (∀ n, getattr_default o (method_prefix self +:+ n) = None) →
  (∀ alias, alias ∈ generic_handler_aliases → getattr_default o alias = None) →
  yields (fallbacks RT PY self token) = [].
Proof.
  intros Hi Hu Hnone Hgeneric. unfold fallbacks. rewrite !yields_tseq.
  rewrite (check_basetype_yields_nothing self o) by done.
  rewrite !yields_for_each
    by (intros; by apply (check_basetype_no_raise RT PY self o)).
  rewrite !bind_nothing
    by (intros; by apply (check_basetype_yields_nothing self o)).
  destruct (gen_generic_trace PY self o Hi Hu) as [_ ->].
  unfold generic_handler_aliases in *. csimpl.
  rewrite !Hgeneric by set_solver.
  by repeat destruct (raised _).
Qed.
End type_fallbacks.

(** X2. A Type dispatcher bound to an owner that has no handler for any type
    name and no generic handler (or to the class itself: [inst] is [None])
    has no candidate for any token: the walk of the ancestors and the four
    fallbacks all come out empty, and single mode fails. The error is
    [DispatchError], unless the name of the token's type is bound in
    [__builtins__] to something that is no class: then [isinstance] raises
    [TypeError] in the first fallback. *)
Theorem type_dispatch_without_handler_fails
    (RT : runtime) (PY : behaviour) (self : dispatcher) (o : option owner)
    (token : value) (rest : list value) (kw : kwargs) :
  cls self = TypeD →
  inst self = Bound o →
  undelegated self = true →
  (∀ name, getattr_default o (method_prefix self +:+ name) = None) →
  (∀ alias, alias ∈ generic_handler_aliases → getattr_default o alias = None) →
  yields (fst (gen_methods RT PY (token :: rest) kw self)) = []
  ∧ fst (dispatch RT PY (token :: rest) kw self) =
      Err (if builtins_get RT (cls_name (type_of RT token)) is Some NotAClass
           then TypeError else DispatchError).
Proof.
  intros Hc Hi Hu Hnone Hgeneric.
  assert (Hk : delegate self "gen_method_keys" = None)
    by (apply undelegated_delegate; [done|engine_op]).
  assert (Hy : yields (fst (gen_methods RT PY (token :: rest) kw self)) = []).
  { unfold gen_methods. undelegate Hu. rewrite Hc.
    rewrite (TypeDispatcher_gen_methods_yields RT PY self o token rest kw Hi Hk).
    assert (ancestor_handlers RT self o token = []) as ->.
    { unfold ancestor_handlers. generalize (removelast (mro RT token)).
      intros l. induction l as [|c l IH]; [done|]. csimpl. by rewrite Hnone. }
    by rewrite (fallbacks_yield_nothing RT PY self o). }
  split; [done|].
  pose proof (type_gen_methods_raised RT PY self o token rest kw Hc Hi Hu) as Hr.
  unfold builtin_lookup_error in Hr.
  rewrite dispatch_own by done.
  destruct (yields_nil_inv _ Hy) as [Ht|[e Ht]]; rewrite Ht in Hr |- *;
    simpl in *.
  - by destruct (builtins_get RT _) as [[|]|].
  - destruct (builtins_get RT _) as [[|]|]; congruence.
Qed.

(** A token whose class is named like the built-in function [len]. *)
Lemma type_dispatch_without_handler_fails_witness :
  fst (dispatch default_cpython echo [VInt 5] ∅
         (__get__ None (new_dispatcher TypeD true None)))
  = Err DispatchError
  ∧ fst (dispatch default_cpython echo [VObj ["len"] (Created 0)] ∅
           (bound_dispatcher TypeD (owner_with ["on_a"])))
  = Err TypeError.
Proof.
  split.
  - apply (type_dispatch_without_handler_fails default_cpython echo
             (__get__ None (new_dispatcher TypeD true None)) None);
      reflexivity.
  - apply (type_dispatch_without_handler_fails default_cpython echo
             (bound_dispatcher TypeD (owner_with ["on_a"]))
             (Some (owner_with ["on_a"])) (VObj ["len"] (Created 0)) [] ∅);
      try reflexivity.
    intros alias Hin. unfold generic_handler_aliases in Hin.
    repeat (apply elem_of_cons in Hin as [->|Hin]); try reflexivity.
    by apply elem_of_nil in Hin.
Defined.

(** X3. The generic handlers of the Type strategy are candidates for every
    token whose type name is not bound in [__builtins__] to something that
    is no class, whether or not a more specific handler was found before
    them, and [gen_methods] then never raises on a bound dispatcher. For the
    other tokens [gen_methods] raises [TypeError] after the handlers of the
    ancestor types: no fallback is tried, the generic handlers included. *)
Theorem type_generic_handler_is_always_a_candidate
    (RT : runtime) (PY : behaviour) (self : dispatcher) (o : option owner)
    (token : value) (rest : list value) (kw : kwargs)
    (alias : string) (generic : method) :
  cls self = TypeD →
  inst self = Bound o →
  undelegated self = true →
  alias ∈ generic_handler_aliases →
  getattr_default o alias = Some generic →
  let candidates := fst (gen_methods RT PY (token :: rest) kw self) in
  match builtins_get RT (cls_name (type_of RT token)) with
  | Some NotAClass =>
      yields candidates
        = MBare <$> first_occurrences [] (ancestor_handlers RT self o token)
      ∧ raised candidates = Some TypeError
  | _ => MBare generic ∈ yields candidates ∧ raised candidates = None
  end.
Proof.
  intros Hc Hi Hu Halias Hgen candidates.
  assert (Hk : delegate self "gen_method_keys" = None)
    by (apply undelegated_delegate; [done|engine_op]).
  pose proof (type_gen_methods_raised RT PY self o token rest kw Hc Hi Hu) as Hr.
  pose proof (fallbacks_raised RT PY self o token Hi Hu) as Hfr.
  fold candidates in Hr. unfold builtin_lookup_error in Hr, Hfr.
  assert (Hy : yields candidates =
    MBare <$> (first_occurrences [] (ancestor_handlers RT self o token) ++
               first_occurrences (ancestor_handlers RT self o token)
                 (yields (fallbacks RT PY self token)))).
  { unfold candidates, gen_methods. undelegate Hu. rewrite Hc.
    by apply TypeDispatcher_gen_methods_yields. }
  assert (Hfb : builtins_get RT (cls_name (type_of RT token)) ≠ Some NotAClass →
                generic ∈ yields (fallbacks RT PY self token)).
  { intros Hclass. unfold fallbacks. rewrite !yields_tseq.
    rewrite (check_basetype_raised RT PY self o) by done.
    rewrite !raised_for_each
      by (intros; by apply (check_basetype_no_raise RT PY self o)).
    destruct (gen_generic_trace PY self o Hi Hu) as [_ ->].
    assert (generic ∈ omap (getattr_default o) generic_handler_aliases)
      by (apply list_elem_of_omap; eauto).
    destruct (builtins_get RT _) as [[|]|]; [|done|];
      rewrite !elem_of_app; by do 3 right. }
  assert (Hin : builtins_get RT (cls_name (type_of RT token)) ≠ Some NotAClass →
                MBare generic ∈ yields candidates).
  { intros Hclass. rewrite Hy. apply list_elem_of_fmap_2.
    destruct (decide (generic ∈ ancestor_handlers RT self o token)) as [Hin|Hout].
    - apply elem_of_app. left. apply first_occurrences_elem; [done|].
      apply not_elem_of_nil.
    - apply elem_of_app. right. apply first_occurrences_elem; [by apply Hfb|done]. }
  destruct (builtins_get RT (cls_name (type_of RT token))) as [[bt|]|] eqn:Hb.
  - split; [by apply Hin|done].
  - split; [|done]. rewrite Hy. f_equal.
    assert (yields (fallbacks RT PY self token) = []) as ->;
      [|by rewrite app_nil_r].
    unfold fallbacks. rewrite yields_tseq. rewrite Hb.
    unfold check_basetype. undelegate Hu. done.
  - split; [by apply Hin|done].
Qed.

Lemma type_generic_handler_is_always_a_candidate_witness :
  MBare (BoundMethod "handle_anything")
    ∈ yields (fst (gen_methods default_cpython echo
                     [VObj ["Puppy"; "Dog"; "Animal"] (Created 0)] ∅
                     (bound_dispatcher TypeD kennel_owner)))
  ∧ raised (fst (gen_methods default_cpython echo
                   [VObj ["Puppy"; "Dog"; "Animal"] (Created 0)] ∅
                   (bound_dispatcher TypeD kennel_owner))) = None.
Proof.
  apply (type_generic_handler_is_always_a_candidate default_cpython echo
           (bound_dispatcher TypeD kennel_owner) (Some kennel_owner)
           (VObj ["Puppy"; "Dog"; "Animal"] (Created 0)) [] ∅ "handle_anything");
    try reflexivity.
  unfold generic_handler_aliases. apply list_elem_of_here.
Defined.

(** ** A dispatcher that was never reached through its owner *)

(** X4. Until [__get__] has run, the dispatcher has no [inst] attribute:
    single mode of the Signature and Type strategies then fails with
    [AttributeError], whatever was registered, instead of [DispatchError]. *)
Theorem unbound_dispatcher_raises_attribute_error
    (RT : runtime) (PY : behaviour) (self : dispatcher)
    (token : value) (rest : list value) (kw : kwargs) :
  inst self = Unbound →
  cls self ≠ RegexD →
  fst (dispatch RT PY (token :: rest) kw self) = Err AttributeError.
Proof.
  intros Hi Hc. pose proof (unbound_undelegated self Hi) as Hu.
  rewrite dispatch_own by done.
  assert (fst (gen_methods RT PY (token :: rest) kw self) = Raise AttributeError)
    as ->; [|done].
  unfold gen_methods. undelegate Hu.
  destruct (cls self) eqn:Hcls; [| |done].
  - unfold Dispatcher_gen_methods.
    pose proof (read_registry_effect self)
      as (_ & _ & (_ & (_ & _ & Hinst) & _) & _).
    destruct (read_registry self) as [reg s']. simpl in *.
    unfold self_inst. rewrite Hinst, Hi.
    destruct reg as [|[[a k] name] reg]; done.
  - unfold TypeDispatcher_gen_methods, TypeDispatcher_gen_methods_undeduped,
      self_inst. rewrite Hi. done.
Qed.

Lemma unbound_dispatcher_raises_attribute_error_witness :
  fst (dispatch default_cpython echo [VInt 5] ∅
         (registered echo SignatureD true None [("handler", [VInt 1], ∅)]))
  = Err AttributeError.
Proof.
  apply (unbound_dispatcher_raises_attribute_error default_cpython echo
           (registered echo SignatureD true None [("handler", [VInt 1], ∅)]));
    [reflexivity|discriminate].
Defined.

(** ** Single mode against [get_method], multi mode when nothing fails *)

(** X5. Single mode is [get_method] followed by [apply_handler]: [dispatch]
    returns what applying the candidate of [get_method] returns, and fails
    like [get_method] when there is no candidate. *)
Theorem dispatch_applies_the_method_of_get_method
    (RT : runtime) (PY : behaviour) (self : dispatcher)
    (args : list value) (kw : kwargs) :
  undelegated self = true →
  fst (dispatch RT PY args kw self) =
    fst (get_method RT PY args kw self) ≫= λ method_data_,
      apply_handler PY self method_data_ args kw.
Proof.
  intros Hu. rewrite dispatch_own by done.
  unfold get_method. undelegate Hu.
  destruct (gen_methods RT PY args kw self) as [[|e|c more] s']; simpl; [done..|].
  by destruct (apply_handler PY self c args kw).
Qed.

Lemma dispatch_applies_the_method_of_get_method_witness :
  fst (dispatch default_cpython echo [VStr "abc"] ∅ pattern_scenario) =
    fst (get_method default_cpython echo [VStr "abc"] ∅ pattern_scenario)
      ≫= λ method_data_,
        apply_handler echo pattern_scenario method_data_ [VStr "abc"] ∅.
Proof.
  apply (dispatch_applies_the_method_of_get_method default_cpython echo
           pattern_scenario [VStr "abc"] ∅). reflexivity.
Defined.

Lemma evaluate_all_succeed (PY : behaviour) (self : dispatcher)
    (args : list value) (kw : kwargs) (cands : list method_data)
    (rs : list value) (b : bool) :
  Forall2 (λ c r, apply_handler PY self c args kw = Ok r) cands rs →
  evaluate_candidates PY self args kw b (yield_all cands)
    = tseq (yield_all rs)
        (if b || bool_decide (cands ≠ []) then Stop else Raise DispatchError).
Proof.
  intros H. revert b. induction H as [|c r cands rs Hc _ IH]; intros b; simpl.
  - rewrite orb_false_r. done.
  - rewrite Hc, IH. simpl. rewrite orb_true_r. by destruct (bool_decide _).
Qed.

(** X6. Multi mode when nothing fails: if the candidates are [cands], none
    of them missing, and every handler returns, the generator of
    [gen_dispatch] yields exactly their results, in order, and returns. *)
Theorem gen_dispatch_yields_every_result
    (RT : runtime) (PY : behaviour) (self : dispatcher)
    (args : list value) (kw : kwargs)
    (c : method_data) (cands : list method_data) (rs : list value) :
  undelegated self = true →
  fst (gen_methods RT PY args kw self) = yield_all (c :: cands) →
  Forall2 (λ c r, apply_handler PY self c args kw = Ok r) (c :: cands) rs →
  ∃ g, gen_dispatch RT PY args kw self = Ok g ∧ fst (g self) = yield_all rs.
Proof.
  intros Hu Hcands Hall. exists (Dispatcher_gen_dispatch RT PY args kw).
  split; [by apply gen_dispatch_own|].
  rewrite Dispatcher_gen_dispatch_trace, Hcands.
  rewrite (evaluate_all_succeed PY self args kw (c :: cands) rs false Hall).
  simpl. generalize (yield_all rs). intros t.
  induction t as [|e|r t IH]; simpl; [done..|]. by rewrite IH.
Qed.

Lemma tseq_stop {A} (t : trace A) : tseq t Stop = t.
Proof. induction t as [|e|a t IH]; simpl; [done..|]. by rewrite IH. Qed.

(** ** Multi mode of the Signature strategy *)

(** The candidate a registry entry stands for, when the owner has the
    method. *)
Definition recorded_candidate (o : owner) (entry : invoc * string)
    : option method_data :=
  (λ m, MTuple3 m (loads entry.1).1 (loads entry.1).2) <$> attr o entry.2.

Lemma replay_registry_resolved (o : owner) (reg : list (invoc * string))
    (cands : list method_data) :
  Forall2 (λ entry c, recorded_candidate o entry = Some c) reg cands →
  replay_registry (Ok (Some o)) reg = yield_all cands.
Proof.
  induction 1 as [|[[a k] name] c reg cands Hc _ IH]; simpl; [done|].
  unfold recorded_candidate in Hc. simpl in Hc.
  unfold getattr, getattr_default. simpl.
  destruct (attr o name) as [m|]; [|done].
  injection Hc as <-. by rewrite IH.
Qed.

(** X7. The Signature strategy never looks at the token: with a non-empty
    registry the candidates are the registered handlers, all of them, in
    registration order, each with the arguments recorded for it, whatever
    the arguments of the call are. *)
Theorem signature_candidates_are_the_registry
    (RT : runtime) (PY : behaviour) (self : dispatcher) (o : owner)
    (entry : invoc * string) (reg : list (invoc * string))
    (cands : list method_data) (args : list value) (kw : kwargs) :
  cls self = SignatureD →
  inst self = Bound (Some o) →
  undelegated self = true →
  default [] (registry_slot self) = entry :: reg →
  mapM (recorded_candidate o) (entry :: reg) = Some cands →
  fst (gen_methods RT PY args kw self) = yield_all cands.
Proof.
  intros Hc Hi Hu Hreg Hall. apply mapM_Some in Hall.
  unfold gen_methods. undelegate Hu. rewrite Hc.
  unfold Dispatcher_gen_methods.
  pose proof (read_registry_effect self)
    as (Hfst & _ & (_ & (_ & _ & Hinst) & _) & _).
  destruct (read_registry self) as [reg' s']. simpl in *.
  rewrite Hfst, Hreg. unfold self_inst. rewrite Hinst, Hi.
  rewrite (replay_registry_resolved o _ cands Hall). apply tseq_stop.
Qed.

(** Two handlers registered with their own arguments. *)
Definition two_handlers_scenario : dispatcher :=
  __get__ (Some (owner_with ["first"; "second"]))
    (registered echo SignatureD true None
       [("first", [VInt 1], ∅); ("second", [VInt 2], {["k" := VStr "v"]})]).

Lemma signature_candidates_are_the_registry_witness :
  fst (gen_methods default_cpython echo [VStr "ignored"] ∅ two_handlers_scenario)
  = yield_all [MTuple3 (BoundMethod "first") [VInt 1] ∅;
               MTuple3 (BoundMethod "second") [VInt 2] {["k" := VStr "v"]}].
Proof.
  apply (signature_candidates_are_the_registry default_cpython echo
           two_handlers_scenario (owner_with ["first"; "second"])
           (([VInt 1], ∅), "first")
           [(([VInt 2], {["k" := VStr "v"]}), "second")]);
    reflexivity.
Defined.

Lemma gen_dispatch_yields_every_result_witness :
  ∃ g, gen_dispatch default_cpython echo [VStr "t"] ∅ two_handlers_scenario = Ok g ∧
       fst (g two_handlers_scenario) =
         yield_all [received (BoundMethod "first") [VStr "t"; VInt 1] ∅;
                    received (BoundMethod "second") [VStr "t"; VInt 2]
                      {["k" := VStr "v"]}].
Proof.
  apply (gen_dispatch_yields_every_result default_cpython echo
           two_handlers_scenario [VStr "t"] ∅
           (MTuple3 (BoundMethod "first") [VInt 1] ∅)
           [MTuple3 (BoundMethod "second") [VInt 2] {["k" := VStr "v"]}]).
  - reflexivity.
  - reflexivity.
  - repeat constructor.
Defined.

(** ** Edges of the Pattern strategy *)

(** X8. [get_text(self, text)] takes exactly one argument, given by
    position or as the keyword [text]. A Pattern dispatch called in any
    other way (without argument, with a second positional argument, with
    another keyword, or with the text given both ways) fails with
    [TypeError] before anything else happens: the registry is not read and
    [prepare] does not run. Given as the keyword [text], the text has the
    same candidates as when it is given by position. *)
Theorem regex_dispatch_takes_the_text_only
    (RT : runtime) (PY : behaviour) (self : dispatcher)
    (args : list value) (kw : kwargs) :
  cls self = RegexD →
  undelegated self = true →
  (∀ text, ¬ ((args = [text] ∧ kw = ∅) ∨ (args = [] ∧ kw = {["text" := text]}))) →
  dispatch RT PY args kw self = (Err TypeError, self)
  ∧ ∀ text, gen_methods RT PY [] {["text" := text]} self
            = gen_methods RT PY [text] ∅ self.
Proof.
  intros Hc Hu Hshape. split.
  - destruct (RegexDispatcher_get_text args kw) as [text|e] eqn:Htext.
    + apply get_text_accepts in Htext. by destruct (Hshape text).
    + rewrite (get_text_refuses args kw e Htext) in Htext.
      by apply regex_text_refused.
  - intros text. unfold gen_methods. undelegate Hu. rewrite Hc.
    unfold RegexDispatcher_gen_methods, get_text. undelegate Hu.
    assert (RegexDispatcher_get_text [] {["text" := text]} = Ok text) as ->
      by (apply get_text_accepts; by right).
    assert (RegexDispatcher_get_text [text] ∅ = Ok text) as ->
      by (apply get_text_accepts; by left).
    done.
Qed.

Lemma regex_dispatch_takes_the_text_only_witness :
  dispatch default_cpython echo [VStr "abc"] {["flag" := VInt 1]} pattern_scenario
  = (Err TypeError, pattern_scenario).
Proof.
  apply (regex_dispatch_takes_the_text_only default_cpython echo pattern_scenario
           [VStr "abc"] {["flag" := VInt 1]}); [reflexivity..|].
  intros text [[_ H]|[H _]]; [|discriminate].
  apply (f_equal (λ m : kwargs, m !! "flag")) in H.
  vm_compute in H. discriminate.
Defined.



(** X10. Handler names are resolved when their pattern matches, not at
    registration: a registered name the owner does not define makes
    dispatch fail with [AttributeError] when its pattern is the first to
    match. (While it does not match, the entry is harmless.) *)
Theorem regex_missing_handler_fails_on_match
    (RT : runtime) (PY : behaviour) (self : dispatcher) (o : owner)
    (data pre post : list (regex * string)) (rgx : regex) (name : string)
    (s : string) :
  cls self = RegexD →
  inst self = Bound (Some o) →
  undelegated self = true →
  prepares_to RT self data →
  data = pre ++ (rgx, name) :: post →
  Forall (λ entry, re_match RT entry.1 s = false) pre →
  re_match RT rgx s = true →
  attr o name = None →
  fst (dispatch RT PY [VStr s] ∅ self) = Err AttributeError.
Proof.
  intros Hc Hi Hu Hprep -> Hpre Hmatch Hm. rewrite dispatch_own by done.
  destruct (regex_gen_methods RT PY self (Some o) _ (VStr s) Hc Hi Hu Hprep) as [-> _].
  rewrite (match_patterns_skip RT _ _ s pre _ _ eq_refl Hpre).
  simpl. rewrite Hmatch. unfold getattr, getattr_default. simpl. by rewrite Hm.
Qed.

(** The Pattern scenario on an owner that lacks [on_ab]. *)
Definition missing_handler_scenario : dispatcher :=
  __get__ (Some (owner_with ["on_a"]))
    (registered echo RegexD true None
       [("on_a", [VStr "^a"], ∅); ("on_ab", [VStr "^b"], ∅)]).

Lemma regex_missing_handler_fails_on_match_witness :
  fst (dispatch default_cpython echo [VStr "bcd"] ∅ missing_handler_scenario)
  = Err AttributeError.
Proof.
  apply (regex_missing_handler_fails_on_match default_cpython echo
           missing_handler_scenario (owner_with ["on_a"])
           [(Regex "^a" 0, "on_a"); (Regex "^b" 0, "on_ab")]
           [(Regex "^a" 0, "on_a")] [] (Regex "^b" 0) "on_ab" "bcd");
    try reflexivity.
  - right. split; reflexivity.
  - repeat constructor.
Defined.

(** X28. When no registered pattern matches the text, single mode of the
    Pattern strategy calls the owner's [generic_handler] with the arguments
    of the call, if the owner has one, and fails with [DispatchError]
    otherwise. *)
Theorem regex_dispatch_falls_back_to_the_generic_handler
    (RT : runtime) (PY : behaviour) (self : dispatcher) (o : owner)
    (data : list (regex * string)) (s : string) :
  cls self = RegexD →
  inst self = Bound (Some o) →
  undelegated self = true →
  prepares_to RT self data →
  Forall (λ entry, re_match RT entry.1 s = false) data →
  fst (dispatch RT PY [VStr s] ∅ self) =
    match attr o "generic_handler" with
    | Some generic => call PY generic [VStr s] ∅
    | None => Err DispatchError
    end.
Proof.
  intros Hc Hi Hu Hprep Hno. rewrite dispatch_own by done.
  rewrite (regex_no_match RT PY self (Some o) data s Hc Hi Hu Hprep Hno).
  unfold try_generic_handler, getattr_default. simpl.
  destruct (attr o "generic_handler") as [generic|]; simpl; [|done].
  unfold apply_handler. undelegate Hu. rewrite Hc. simpl.
  by destruct (call PY generic [VStr s] ∅).
Qed.

Lemma regex_dispatch_falls_back_to_the_generic_handler_witness :
  fst (dispatch default_cpython echo [VStr "xyz"] ∅ fallback_scenario)
    = Ok (received (BoundMethod "generic_handler") [VStr "xyz"] ∅)
  ∧ fst (dispatch default_cpython echo [VStr "xyz"] ∅ pattern_scenario)
    = Err DispatchError.
Proof.
  split.
  - apply (regex_dispatch_falls_back_to_the_generic_handler default_cpython echo fallback_scenario
             (owner_with ["on_a"; "generic_handler"]) [(Regex "^a" 0, "on_a")]);
      try reflexivity.
    + right. split; reflexivity.
    + repeat constructor.
  - apply (regex_dispatch_falls_back_to_the_generic_handler default_cpython echo pattern_scenario
             (owner_with ["on_a"; "on_ab"])
             [(Regex "^a" 0, "on_a"); (Regex "^ab" 0, "on_ab")]);
      try reflexivity.
    + right. split; reflexivity.
    + repeat constructor.
Defined.

(** ** A preparation that fails *)

(** What [dispatch_data] makes of an error of [prepare]. *)
Definition preparation_error (e : exn) : exn :=
  if decide (e = RuntimeError) then ImplementationError else e.

Section failing_preparation.
Context (RT : runtime) (PY : behaviour).

Lemma regex_dispatch_unprepared self e args kw text :
  cls self = RegexD →
  undelegated self = true →
  dispatch_data_slot self = None →
  compile_registry RT (default [] (registry_slot self)) = Err e →
  RegexDispatcher_get_text args kw = Ok text →
  fst (dispatch RT PY args kw self) = Err (preparation_error e) ∧
  dispatch_data_slot (snd (dispatch RT PY args kw self)) = None ∧
  prepare_calls (snd (dispatch RT PY args kw self)) = S (prepare_calls self) ∧
  same_config self (snd (dispatch RT PY args kw self)).
Proof.
  intros Hc Hu Hslot Hcomp Htext. unfold dispatch. undelegate Hu.
  rewrite gen_dispatch_own by done.
  unfold next, Dispatcher_gen_dispatch, gen_methods. undelegate Hu. rewrite Hc.
  unfold RegexDispatcher_gen_methods, get_text. undelegate Hu.
  rewrite Htext.
  unfold dispatch_data, CachedAttr. rewrite Hslot. unfold prepare.
  rewrite delegated_default
    by (apply (undelegated_delegate (count_prepare self));
        [by rewrite <- Hu; apply undelegated_same_binding|engine_op]).
  rewrite Hc. unfold RegexDispatcher_prepare.
  pose proof (read_registry_effect (count_prepare self))
    as (Hfst & _ & Hcfg & Hdd & Hn).
  destruct (read_registry (count_prepare self)) as [reg s'].
  assert (same_config self s') as Hcfg'.
  { eapply same_config_trans; [|exact Hcfg]. destruct self; by repeat split. }
  simpl in *. rewrite Hfst, Hcomp. simpl. unfold preparation_error.
  destruct e; simpl; repeat split; try done; try apply Hcfg'; congruence.
Qed.

End failing_preparation.

(** X11. A failed preparation is not cached. When a registered pattern does
    not compile, every Pattern dispatch call that passes the text (one
    argument, by position or as the keyword [text]) runs [prepare] again
    and fails with its error ([ImplementationError] in place of a
    [RuntimeError]); the calls that [get_text] refuses fail with
    [TypeError] without running it. After any run of calls [prepare] has
    run once for each call that passed the text and [dispatch_data] is
    still unset. *)
Theorem failing_preparation_is_retried
    (RT : runtime) (PY : behaviour) (self : dispatcher) (e : exn)
    (calls : list (list value * kwargs)) :
  cls self = RegexD →
  undelegated self = true →
  dispatch_data_slot self = None →
  compile_registry RT (default [] (registry_slot self)) = Err e →
  fst (dispatch_all RT PY calls self)
    = (λ call_, Err (if passes_text call_ then preparation_error e
                     else TypeError)) <$> calls ∧
  prepare_calls (snd (dispatch_all RT PY calls self))
    = (prepare_calls self
       + length (filter (λ call_, passes_text call_ = true) calls))%nat ∧
  dispatch_data_slot (snd (dispatch_all RT PY calls self)) = None ∧
  (∀ args kw,
     passes_text (args, kw) = true ↔
     ∃ text, (args = [text] ∧ kw = ∅) ∨ (args = [] ∧ kw = {["text" := text]})).
Proof.
  intros Hc Hu Hslot Hcomp.
  assert (Hshape : ∀ args kw,
     passes_text (args, kw) = true ↔
     ∃ text, (args = [text] ∧ kw = ∅) ∨ (args = [] ∧ kw = {["text" := text]})).
  { intros args kw. unfold passes_text. cbn [fst snd]. split.
    - destruct (RegexDispatcher_get_text args kw) as [text|] eqn:Htext; [|done].
      intros _. exists text. by apply get_text_accepts.
    - intros [text Hs]. apply get_text_accepts in Hs. by rewrite Hs. }
  cut (fst (dispatch_all RT PY calls self)
         = (λ call_, Err (if passes_text call_ then preparation_error e
                          else TypeError)) <$> calls ∧
       prepare_calls (snd (dispatch_all RT PY calls self))
         = (prepare_calls self
            + length (filter (λ call_, passes_text call_ = true) calls))%nat ∧
       dispatch_data_slot (snd (dispatch_all RT PY calls self)) = None).
  { intros (H1 & H2 & H3). done. }
  clear Hshape. revert self Hc Hu Hslot Hcomp.
  induction calls as [|[args kw] calls IH]; intros self Hc Hu Hslot Hcomp.
  - simpl. repeat split; [|done]. lia.
  - rewrite fmap_cons, filter_cons. cbn [dispatch_all].
    destruct (RegexDispatcher_get_text args kw) as [text|e'] eqn:Htext;
      [assert (Hp : passes_text (args, kw) = true)
         by (unfold passes_text; cbn [fst snd]; by rewrite Htext)
      |assert (Hp : passes_text (args, kw) = false)
         by (unfold passes_text; cbn [fst snd]; by rewrite Htext)];
      rewrite !Hp.
    + destruct (regex_dispatch_unprepared RT PY self e args kw text
                  Hc Hu Hslot Hcomp Htext) as (Hr & Hdd & Hn & Hcfg).
      destruct (dispatch RT PY args kw self) as [r s1]. simpl in *. subst r.
      destruct (IH s1) as (Hrs & Hn' & Hdd').
      * destruct Hcfg as (H & _). congruence.
      * by rewrite (same_config_undelegated self s1 Hcfg).
      * done.
      * destruct Hcfg as (_ & _ & _ & H). by rewrite H.
      * destruct (dispatch_all RT PY calls s1) as [rs s2].
        simpl in *. rewrite Hrs, Hn', Hn.
        repeat split; [|done]. simpl. lia.
    + rewrite (get_text_refuses args kw e' Htext) in Htext.
      rewrite (regex_text_refused RT PY self args kw TypeError Hc Hu Htext).
      destruct (IH self Hc Hu Hslot Hcomp) as (Hrs & Hn' & Hdd').
      destruct (dispatch_all RT PY calls self) as [rs s2].
      simpl in *. rewrite Hrs, Hn'.
      repeat split; done.
Qed.

(** A runtime whose [re] accepts no pattern that opens a group. *)
Definition strict_cpython : runtime :=
  cpython id (λ p, negb (String.prefix "(" p)) literal_matches.

Definition bad_pattern_scenario : dispatcher :=
  __get__ (Some (owner_with ["on_a"; "on_group"]))
    (registered echo RegexD true None
       [("on_a", [VStr "^a"], ∅); ("on_group", [VStr "(a"], ∅)]).

Lemma failing_preparation_is_retried_witness :
  fst (dispatch_all strict_cpython echo
         [([VStr "abc"], ∅); ([VStr "abc"; VInt 1], ∅);
          ([], {["text" := VStr "zzz"]})]
         bad_pattern_scenario)
    = [Err ReError; Err TypeError; Err ReError]
  ∧ prepare_calls (snd (dispatch_all strict_cpython echo
         [([VStr "abc"], ∅); ([VStr "abc"; VInt 1], ∅);
          ([], {["text" := VStr "zzz"]})]
         bad_pattern_scenario)) = 2%nat
  ∧ dispatch_data_slot (snd (dispatch_all strict_cpython echo
         [([VStr "abc"], ∅); ([VStr "abc"; VInt 1], ∅);
          ([], {["text" := VStr "zzz"]})]
         bad_pattern_scenario)) = None.
Proof.
  destruct (failing_preparation_is_retried strict_cpython echo bad_pattern_scenario
              ReError
              [([VStr "abc"], ∅); ([VStr "abc"; VInt 1], ∅);
               ([], {["text" := VStr "zzz"]})]
              eq_refl eq_refl eq_refl eq_refl) as (Hrs & Hn & Hdd & _).
  split; [rewrite Hrs; by vm_compute|]. split; [rewrite Hn; by vm_compute|].
  exact Hdd.
Defined.

(** ** Multi mode of the Pattern strategy *)

Lemma match_patterns_resolved (RT : runtime) (o : owner)
    (data : list (regex * string)) (s : string) (h : string → method)
    (k : trace method_data) :
  Forall (λ entry, re_match RT entry.1 s = true → attr o entry.2 = Some (h entry.2))
         data →
  match_patterns RT (Ok (Some o)) (VStr s) data k =
  tseq (yield_all ((λ entry, MTuple2 (h entry.2) [VStr s; VMatch entry.1 s])
                     <$> filter (λ entry, re_match RT entry.1 s = true) data))
       k.
Proof.
  induction 1 as [|[rgx name] data Hentry _ IH]; [done|].
  cbn [match_patterns rgx_match]. rewrite filter_cons. simpl in *.
  destruct (re_match RT rgx s) eqn:Hm.
  - rewrite decide_True by done. unfold getattr, getattr_default. simpl.
    rewrite (Hentry eq_refl), IH. done.
  - rewrite decide_False by done. apply IH.
Qed.

(** X12. The candidates of the Pattern strategy for a text are the handlers
    of all the patterns that match it, in registration order, each with
    [(text, match)], followed by the owner's [generic_handler] when there is
    one, matched or not. *)
Theorem regex_candidates_are_the_matching_patterns
    (RT : runtime) (PY : behaviour) (self : dispatcher) (o : owner)
    (data : list (regex * string)) (s : string) (h : string → method) :
  cls self = RegexD →
  inst self = Bound (Some o) →
  undelegated self = true →
  prepares_to RT self data →
  Forall (λ entry, re_match RT entry.1 s = true → attr o entry.2 = Some (h entry.2))
         data →
  yields (fst (gen_methods RT PY [VStr s] ∅ self)) =
    ((λ entry, MTuple2 (h entry.2) [VStr s; VMatch entry.1 s])
       <$> filter (λ entry, re_match RT entry.1 s = true) data)
    ++ (MBare <$> option_list (attr o "generic_handler"))
  ∧ raised (fst (gen_methods RT PY [VStr s] ∅ self)) = None.
Proof.
  intros Hc Hi Hu Hprep Hres.
  destruct (regex_gen_methods RT PY self (Some o) data (VStr s) Hc Hi Hu Hprep)
    as [-> _].
  rewrite (match_patterns_resolved RT o data s h _ Hres).
  rewrite yields_tseq, raised_tseq, yields_yield_all, raised_yield_all.
  unfold try_generic_handler, getattr_default. simpl.
  by destruct (attr o "generic_handler").
Qed.

Lemma regex_candidates_are_the_matching_patterns_witness :
  yields (fst (gen_methods default_cpython interrupting [VStr "abd"] ∅
                 interrupt_scenario))
  = [MTuple2 (BoundMethod "on_a") [VStr "abd"; VMatch (Regex "^a" 0) "abd"];
     MTuple2 (BoundMethod "stop") [VStr "abd"; VMatch (Regex "^ab" 0) "abd"]]
  ∧ raised (fst (gen_methods default_cpython interrupting [VStr "abd"] ∅
                   interrupt_scenario)) = None.
Proof.
  apply (regex_candidates_are_the_matching_patterns default_cpython interrupting
           interrupt_scenario (owner_with ["on_a"; "stop"; "on_abc"])
           [(Regex "^a" 0, "on_a"); (Regex "^ab" 0, "stop");
            (Regex "^abc" 0, "on_abc")] "abd" BoundMethod);
    try reflexivity.
  - right. split; reflexivity.
  - repeat constructor.
Defined.

(** ** Registration and the three strategies *)

Section type_ignores_registry.
Context (RT : runtime) (PY : behaviour).

(** What the Type strategy reads of the dispatcher: its class, the binding
    and the prefix. *)
Lemma type_candidates_same_binding s s' args kw :
  cls s = TypeD → cls s' = TypeD →
  same_binding s s' →
  method_prefix s' = method_prefix s →
  fst (gen_methods RT PY args kw s') = fst (gen_methods RT PY args kw s).
Proof.
  intros Hc Hc' Hb Hm. pose proof Hb as (_ & _ & Hi).
  unfold gen_methods, delegated.
  rewrite (delegate_same_binding s s' _ Hb), Hc, Hc'.
  destruct (delegate s "gen_methods"); [done|].
  unfold TypeDispatcher_gen_methods. cbn [fst]. do 2 f_equal.
  unfold TypeDispatcher_gen_methods_undeduped, self_inst. rewrite Hi.
  destruct args as [|token rest]; [done|].
  destruct (inst s) as [|o] eqn:Hinst; [done|].
  unfold ancestor_walk, gen_method_keys, fallbacks, check_basetype, gen_generic,
    delegated.
  rewrite !(delegate_same_binding s s' _ Hb), Hm.
  unfold TypeDispatcher_check_basetype, TypeDispatcher_gen_generic,
    lookup_handlers, self_inst.
  rewrite Hi, Hm, Hinst. done.
Qed.

Lemma register_keeps_binding name a k self :
  delegate self "register" = None →
  cls (snd (register PY name a k self)) = cls self ∧
  same_binding self (snd (register PY name a k self)) ∧
  method_prefix (snd (register PY name a k self)) = method_prefix self.
Proof.
  intros Hd. unfold register. rewrite (delegated_default _ _ _ _ Hd).
  destruct (dump_invoc a k); [|by repeat split].
  unfold read_registry, registry, CachedAttr.
  destruct self as [c td dp mp i [reg|] dd n]; simpl; by repeat split.
Qed.
End type_ignores_registry.

(** X13. The Type strategy uses neither [register] nor [prepare]: a
    registration made on a Type dispatcher changes nothing to what it
    dispatches to. *)
Theorem type_dispatch_ignores_registrations
    (RT : runtime) (PY : behaviour) (self : dispatcher)
    (name : string) (recorded_args : list value) (recorded_kw : kwargs)
    (args : list value) (kw : kwargs) :
  cls self = TypeD →
  undelegated self = true →
  fst (dispatch RT PY args kw (snd (register PY name recorded_args recorded_kw self)))
    = fst (dispatch RT PY args kw self).
Proof.
  intros Hc Hu.
  destruct (register_keeps_binding PY name recorded_args recorded_kw self)
    as (Hc' & Hb & Hm); [apply undelegated_delegate; [done|engine_op]|].
  set (self' := snd (register PY name recorded_args recorded_kw self)) in *.
  assert (Hu' : undelegated self' = true)
    by (by rewrite (undelegated_same_binding self self' Hb)).
  rewrite !dispatch_own by done.
  rewrite (type_candidates_same_binding RT PY self self') by congruence.
  generalize (fst (gen_methods RT PY args kw self)). intros t.
  assert (Heval : ∀ b, evaluate_candidates PY self' args kw b t
                       = evaluate_candidates PY self args kw b t).
  { induction t as [|e|c rest IH]; intros b; simpl; [done..|].
    assert (apply_handler PY self' c args kw = apply_handler PY self c args kw) as ->.
    { unfold apply_handler, delegated.
      by rewrite (delegate_same_binding self self' _ Hb), Hc', Hc. }
    destruct (apply_handler PY self c args kw); [|done]. by rewrite IH. }
  by rewrite Heval.
Qed.

Lemma type_dispatch_ignores_registrations_witness :
  fst (dispatch default_cpython echo [VInt 5] ∅
         (snd (register echo "handle_int" [VStr "^a"] ∅ scenario_dispatcher)))
  = fst (dispatch default_cpython echo [VInt 5] ∅ scenario_dispatcher).
Proof.
  apply (type_dispatch_ignores_registrations default_cpython echo
           scenario_dispatcher "handle_int" [VStr "^a"] ∅ [VInt 5] ∅);
    reflexivity.
Defined.

Lemma forallb_Forall {A} (f : A → bool) (l : list A) :
  forallb f l = true ↔ Forall (λ x, f x = true) l.
Proof.
  induction l as [|x l IH]; simpl.
  - split; [constructor|done].
  - rewrite andb_true_iff, IH, Forall_cons. done.
Qed.

(** What [recordable] asks of a decoration. *)
Lemma recordable_spec (name : string) (args : list value) (kw : kwargs) :
  recordable (name, args, kw) = true ↔
  ("self" ∉ dom kw) ∧ Forall (λ v, picklable v = true) args
  ∧ map_Forall (λ _ v, picklable v = true) kw.
Proof.
  unfold recordable. cbn [fst snd].
  rewrite andb_true_iff, bool_decide_eq_true, forallb_Forall, Forall_app.
  split; intros (Hself & Hargs & Hkw); (split; [done|]); (split; [done|]).
  - intros key v Hv. rewrite Forall_forall in Hkw. apply Hkw.
    apply list_elem_of_fmap. exists (key, v).
    split; [done|]. by apply elem_of_map_to_list.
  - apply Forall_forall. intros v Hin.
    apply list_elem_of_fmap in Hin as ([key w] & -> & Hin).
    apply elem_of_map_to_list in Hin. by apply (Hkw key).
Qed.

(** X14. Registration is append-only and order-preserving for any number of
    handlers: a dispatcher used to decorate the methods [entries], in that
    order, each with arguments that pickle (no match object in them) and
    without a keyword named [self], holds exactly their (key, handler name)
    pairs in that order, keeps its class and flags, and has no prepared
    data yet. A further decoration whose arguments do not qualify raises
    [TypeError] and leaves the dispatcher as it is. *)
Theorem registry_lists_registrations_in_order
    (PY : behaviour) (c : dispatcher_class) (delegate_ : bool)
    (prefix : option string) (entries : list (string * list value * kwargs)) :
  Forall (λ '(name, args, kw),
            ("self" ∉ dom kw) ∧ Forall (λ v, picklable v = true) args
            ∧ map_Forall (λ _ v, picklable v = true) kw) entries →
  let d := registered PY c delegate_ prefix entries in
  default [] (registry_slot d)
    = (λ '(name, args, kw), ((args, kw), name)) <$> entries
  ∧ cls d = c
  ∧ try_delegation d = delegate_
  ∧ delegator_prefix d = prefix
  ∧ dispatch_data_slot d = None
  ∧ (∀ name args kw,
       ¬ (("self" ∉ dom kw) ∧ Forall (λ v, picklable v = true) args
          ∧ map_Forall (λ _ v, picklable v = true) kw) →
       decorate PY name args kw d = (Err TypeError, d)).
Proof.
  intros Hall d.
  assert (Hrec : Forall (λ e, recordable e = true) entries).
  { eapply Forall_impl; [exact Hall|]. intros [[name args] kw] H.
    by apply recordable_spec. }
  destruct (registered_registry PY c delegate_ prefix entries Hrec)
    as (Hreg & Hc & Ht & Hp & Hdd & Hi).
  fold d in Hreg, Hc, Ht, Hp, Hdd, Hi.
  split; [exact Hreg|]. do 4 (split; [done|]).
  intros name args kw Hbad. unfold decorate, register, delegated, delegate.
  rewrite Hi. rewrite (dump_invoc_recordable name).
  destruct (recordable (name, args, kw)) eqn:Hr;
    [by apply recordable_spec in Hr|].
  by destruct (try_delegation d).
Qed.

Lemma registry_lists_registrations_in_order_witness :
  default [] (registry_slot two_handlers_scenario)
    = [(([VInt 1], ∅), "first"); (([VInt 2], {["k" := VStr "v"]}), "second")]
  ∧ fst (decorate echo "third" [VMatch (Regex "^a" 0) "abc"] ∅
           (registered echo SignatureD true None
              [("first", [VInt 1], ∅); ("second", [VInt 2], {["k" := VStr "v"]})]))
    = Err TypeError.
Proof.
  destruct (registry_lists_registrations_in_order echo SignatureD true None
              [("first", [VInt 1], ∅); ("second", [VInt 2], {["k" := VStr "v"]})])
    as (Hreg & _ & _ & _ & _ & Hbad).
  - repeat constructor; try set_solver.
    + apply map_Forall_empty.
    + by apply map_Forall_singleton.
  - split; [exact Hreg|].
    rewrite (Hbad "third" [VMatch (Regex "^a" 0) "abc"] ∅); [done|].
    intros (_ & Hargs & _). by inversion Hargs.
Defined.

(** * hercules.dict *)

(** Exceptions of the Python runtime that the helpers of [hercules] can
    raise, beside those the engine knows. *)
Inductive pyerror : Type :=
| EngineError (e : exn)
| UnboundLocalError
| KeyError.

Inductive outcome (A : Type) : Type :=
| Returns (a : A)
| Raises (e : pyerror).
Arguments Returns {A} a.
Arguments Raises {A} e.

(** ** NoClobberDict *)

(** [NoClobberDict.__setitem__(key, val)]. *)
Definition NoClobberDict_setitem (self : kwargs) (key : string) (val : value)
    : result kwargs :=
  if decide (key ∈ dom self) then Err KeyClobberError
  else Ok (<[key := val]> self).

(** [NoClobberDict.update(otherdict=None, **kwargs)], all of it. The local
    [dupes] is bound only when [otherdict] is given; the loop under
    [if kwargs:] runs over it again, against [otherdict] again. *)
Definition NoClobberDict_update_call (self : kwargs) (otherdict : option kwargs)
    (kw : kwargs) : outcome kwargs :=
  let first_loop :=
    match otherdict with
    | Some other => if clobbers self other then Some KeyClobberError else None
    | None => None
    end in
  match first_loop with
  | Some e => Raises (EngineError e)
  | None =>
      let second_loop : option pyerror :=
        if decide (kw = ∅) then None
        else match otherdict with
             | None => Some UnboundLocalError
             | Some other =>
                 if clobbers self other then Some (EngineError KeyClobberError)
                 else None
             end in
      match second_loop with
      | Some e => Raises e
      | None => Returns (kw ∪ (default ∅ otherdict ∪ self))
      end
  end.

(** X15. What [NoClobberDict.update] guarantees when it returns: the result
    extends both dictionaries, so no entry of [self] has changed, and its
    keys are those of the two. It raises [KeyClobberError] exactly when the
    two give one key different values. *)
Theorem noclobber_update_extends_both (self otherdict : kwargs) :
  match NoClobberDict_update self otherdict with
  | Ok merged =>
      self ⊆ merged ∧ otherdict ⊆ merged ∧
      dom merged = dom self ∪ dom otherdict
  | Err e =>
      e = KeyClobberError ∧
      ∃ key v v', self !! key = Some v ∧ otherdict !! key = Some v' ∧ v ≠ v'
  end.
Proof.
  unfold NoClobberDict_update. destruct (clobbers self otherdict) eqn:Hc.
  - split; [done|]. by apply clobbers_spec.
  - split; [|split].
    + apply map_subseteq_spec. intros key v Hv.
      destruct (otherdict !! key) as [v'|] eqn:Hv'.
      * rewrite (proj1 (clobbers_false _ _) Hc key v v' Hv Hv').
        by apply lookup_union_Some_l.
      * rewrite lookup_union_r by done. done.
    + apply map_union_subseteq_l.
    + rewrite dom_union_L. apply (comm_L (∪)).
Qed.

(** X16. [__setitem__] and [update] disagree on a duplicate with an equal
    value: assigning to an existing key always raises [KeyClobberError] and
    leaves the entry as it is, even when the value is the one already
    stored, whereas [update] with that same entry is accepted and changes
    nothing. *)
Theorem noclobber_setitem_is_stricter_than_update
    (self : kwargs) (key : string) (v val : value) :
  self !! key = Some v →
  NoClobberDict_setitem self key val = Err KeyClobberError
  ∧ NoClobberDict_update self {[key := v]} = Ok self.
Proof.
  intros Hv. split.
  - unfold NoClobberDict_setitem. rewrite decide_True; [done|].
    apply elem_of_dom. eauto.
  - unfold NoClobberDict_update.
    replace (clobbers self {[key := v]}) with false.
    + f_equal. apply map_eq. intros k. destruct (decide (k = key)) as [->|Hne].
      * by rewrite (lookup_union_Some_l _ _ _ v), Hv
          by apply lookup_singleton_eq.
      * rewrite lookup_union_r; [done|]. by apply lookup_singleton_ne.
    + symmetry. apply clobbers_false. intros k w w' Hw Hw'.
      destruct (decide (k = key)) as [->|Hne].
      * rewrite lookup_singleton_eq in Hw'. congruence.
      * by rewrite lookup_singleton_ne in Hw'.
Qed.

Lemma noclobber_setitem_is_stricter_than_update_witness :
  NoClobberDict_setitem {["x" := VInt 5]} "x" (VInt 5) = Err KeyClobberError
  ∧ NoClobberDict_update {["x" := VInt 5]} {["x" := VInt 5]} = Ok {["x" := VInt 5]}.
Proof.
  apply (noclobber_setitem_is_stricter_than_update {["x" := VInt 5]} "x" (VInt 5)).
  apply lookup_singleton_eq.
Defined.

(** X17. The keyword arguments of [NoClobberDict.update] are never checked.
    With an [otherdict] that passes the check they are merged last and
    silently replace whatever [self] or [otherdict] held under their keys;
    without [otherdict], any keyword argument makes the call fail with
    [UnboundLocalError] ([dupes] was never bound). Without keyword
    arguments the call is the checked merge, or a no-op. *)
Theorem noclobber_update_keywords_are_unchecked
    (self other kw : kwargs) (key : string) (val : value) :
  clobbers self other = false →
  kw !! key = Some val →
  (∃ merged, NoClobberDict_update_call self (Some other) kw = Returns merged ∧
             merged !! key = Some val ∧
             ∀ k, kw !! k = None → merged !! k = (other ∪ self) !! k)
  ∧ NoClobberDict_update_call self None kw = Raises UnboundLocalError
  ∧ NoClobberDict_update_call self None ∅ = Returns self
  ∧ NoClobberDict_update_call self (Some other) ∅ = Returns (other ∪ self).
Proof.
  intros Hc Hk.
  assert (Hne : kw ≠ ∅).
  { intros ->. by rewrite lookup_empty in Hk. }
  unfold NoClobberDict_update_call. rewrite Hc. simpl.
  split; [|split; [|split]].
  - destruct (decide (kw = ∅)); [done|].
    eexists. split; [done|]. split.
    + by apply lookup_union_Some_l.
    + intros k Hnone. by rewrite lookup_union_r.
  - by destruct (decide (kw = ∅)).
  - destruct (decide ((∅ : kwargs) = ∅)); [|done].
    by rewrite !(left_id_L ∅ (∪)).
  - destruct (decide ((∅ : kwargs) = ∅)); by rewrite (left_id_L ∅ (∪)).
Qed.

Lemma noclobber_update_keywords_are_unchecked_witness :
  NoClobberDict_update_call {["x" := VInt 5]} (Some ∅) {["x" := VInt 6]}
    = Returns {["x" := VInt 6]}
  ∧ NoClobberDict_update_call {["x" := VInt 5]} None {["x" := VInt 6]}
    = Raises UnboundLocalError.
Proof.
  destruct (noclobber_update_keywords_are_unchecked
              {["x" := VInt 5]} ∅ {["x" := VInt 6]} "x" (VInt 6))
    as ((merged & Hret & Hx & Hrest) & Hnone & _).
  - by vm_compute.
  - apply lookup_singleton_eq.
  - split; [|exact Hnone]. rewrite Hret. f_equal. apply map_eq. intros k.
    destruct (decide (k = "x")) as [->|Hne].
    + by rewrite Hx, lookup_singleton_eq.
    + rewrite Hrest by (by apply lookup_singleton_ne).
      rewrite (left_id_L ∅ (∪)), !lookup_singleton_ne by done. done.
Defined.

(** ** DictSetTemporary *)

Section dict_set_temporary.
Context {K : Type} `{Countable K} {V : Type}.

(** The wrapper: [dicty] is the wrapped dictionary itself (it is mutated in
    place), [backup] and [remove] record what [__exit__] has to undo. *)
Record DictSetTemporary : Type := Temporary {
  dicty : gmap K V;
  backup : gmap K V;
  remove : gset K
}.

(** [DictSetTemporary(dicty)]. *)
Definition DictSetTemporary_init (d : gmap K V) : DictSetTemporary :=
  Temporary d ∅ ∅.

(** [__setitem__(key, value)]. *)
Definition DictSetTemporary_setitem (key : K) (val : V)
    (self : DictSetTemporary) : DictSetTemporary :=
  match dicty self !! key with
  | Some old =>
      Temporary (<[key := val]> (delete key (dicty self)))
                (<[key := old]> (backup self)) (remove self)
  | None =>
      Temporary (<[key := val]> (dicty self)) (backup self)
                ({[key]} ∪ remove self)
  end.

(** [__getitem__(key)] and [get(key, default)]. *)
Definition DictSetTemporary_getitem (key : K) (self : DictSetTemporary)
    : outcome V :=
  match dicty self !! key with
  | Some v => Returns v
  | None => Raises KeyError
  end.

Definition DictSetTemporary_get (key : K) (dflt : V) (self : DictSetTemporary) : V :=
  default dflt (dicty self !! key).

(** [__delitem__(key)]: [dict.pop(key)] raises [KeyError] on a missing
    key. *)
Definition DictSetTemporary_delitem (key : K) (self : DictSetTemporary)
    : outcome DictSetTemporary :=
  match dicty self !! key with
  | Some old =>
      Returns (Temporary (delete key (dicty self))
                         (<[key := old]> (backup self)) (remove self))
  | None => Raises KeyError
  end.

(** [__exit__]: the backed-up items are written back, then the keys of
    [remove] are popped, one [dict.pop(key)] each. *)
Definition DictSetTemporary_exit (self : DictSetTemporary)
    : outcome (gmap K V) :=
  let restored := backup self ∪ dicty self in
  if decide (remove self ⊆ dom restored)
  then Returns (foldr delete restored (elements (remove self)))
  else Raises KeyError.

(** Assignments made through the wrapper, in order. *)
Definition assign_all (items : list (K * V)) (self : DictSetTemporary)
    : DictSetTemporary :=
  foldl (λ st '(key, val), DictSetTemporary_setitem key val st) self items.

(** The state of the wrapper after the assignments [items] made on a
    wrapper of [d]. *)
Definition tracks (d : gmap K V) (items : list (K * V))
    (self : DictSetTemporary) : Prop :=
  dom (dicty self) = dom d ∪ list_to_set items.*1 ∧
  remove self = list_to_set items.*1 ∖ dom d ∧
  (∀ key, key ∉ items.*1 →
     backup self !! key = None ∧ dicty self !! key = d !! key) ∧
  (∀ key, key ∈ items.*1 → key ∈ dom d → key ∈ dom (backup self)) ∧
  (∀ key pre post val, items = pre ++ (key, val) :: post →
     key ∉ pre.*1 → key ∉ post.*1 → key ∈ dom d →
     backup self !! key = d !! key).

Lemma tracks_init d : tracks d [] (DictSetTemporary_init d).
Proof.
  unfold tracks. simpl. split; [|split; [|split; [|split]]].
  - set_solver.
  - set_solver.
  - intros key _. split; [apply lookup_empty|done].
  - intros key Hin. by apply elem_of_nil in Hin.
  - intros key pre post val Heq. by destruct pre.
Qed.

Lemma last_assignment (items pre post : list (K * V)) (key k : K) (val v : V) :
  items ++ [(key, val)] = pre ++ (k, v) :: post →
  k ∉ post.*1 →
  (post = [] ∧ pre = items ∧ k = key)
  ∨ (k ≠ key ∧ ∃ post', post = post' ++ [(key, val)] ∧
                        items = pre ++ (k, v) :: post').
Proof.
  intros Heq Hpost. destruct post as [|p post _] using rev_ind.
  - apply app_inj_tail in Heq as [-> [= -> _]]. by left.
  - rewrite app_comm_cons, app_assoc in Heq.
    apply app_inj_tail in Heq as [-> <-]. right. split; [|eauto].
    intros ->. apply Hpost. rewrite fmap_app, elem_of_app. right.
    apply list_elem_of_here.
Qed.

Lemma tracks_setitem d items key val self :
  tracks d items self →
  tracks d (items ++ [(key, val)]) (DictSetTemporary_setitem key val self).
Proof.
  intros (Hdom & Hrem & Hout & Hin & Honce).
  assert (Hkeys : (items ++ [(key, val)]).*1 = items.*1 ++ [key])
    by (by rewrite fmap_app).
  unfold tracks. rewrite Hkeys.
  unfold DictSetTemporary_setitem.
  destruct (dicty self !! key) as [old|] eqn:Hold; simpl.
  - assert (key ∈ dom (dicty self)) as Hk by (apply elem_of_dom; eauto).
    split; [|split; [|split; [|split]]].
    + rewrite insert_delete_eq, dom_insert_L, list_to_set_app_L, Hdom.
      clear. set_solver.
    + rewrite Hrem, list_to_set_app_L. rewrite Hdom in Hk.
      clear -Hk. set_solver.
    + intros k [Hni Hne]%not_elem_of_app.
      rewrite list_elem_of_singleton in Hne.
      rewrite !lookup_insert_ne, lookup_delete_ne by done. by apply Hout.
    + intros k Hk1 Hk2. rewrite dom_insert_L.
      apply elem_of_app in Hk1 as [Hk1|Hk1%list_elem_of_singleton].
      * apply elem_of_union. right. by apply Hin.
      * apply elem_of_union. left. by apply elem_of_singleton.
    + intros k pre post v Heq Hpre Hpost Hkd.
      destruct (last_assignment _ _ _ _ _ _ _ Heq Hpost)
        as [(-> & -> & ->)|(Hne & post' & -> & ->)].
      * rewrite lookup_insert_eq. destruct (Hout key Hpre) as [_ Hd]. congruence.
      * rewrite lookup_insert_ne by done.
        apply (Honce k pre post' v); [done..| |done].
        rewrite fmap_app, not_elem_of_app in Hpost. tauto.
  - assert (key ∉ dom (dicty self)) as Hk by (by apply not_elem_of_dom).
    split; [|split; [|split; [|split]]].
    + rewrite dom_insert_L, list_to_set_app_L, Hdom. clear. set_solver.
    + rewrite Hrem, list_to_set_app_L. rewrite Hdom in Hk.
      clear -Hk. set_solver.
    + intros k [Hni Hne]%not_elem_of_app.
      rewrite list_elem_of_singleton in Hne.
      rewrite lookup_insert_ne by done. by apply Hout.
    + intros k Hk1 Hk2.
      apply elem_of_app in Hk1 as [Hk1|Hk1%list_elem_of_singleton]; [by apply Hin|].
      subst k. rewrite Hdom in Hk. exfalso. apply Hk, elem_of_union. by left.
    + intros k pre post v Heq Hpre Hpost Hkd.
      destruct (last_assignment _ _ _ _ _ _ _ Heq Hpost)
        as [(-> & -> & ->)|(Hne & post' & -> & ->)].
      * rewrite Hdom in Hk. exfalso. apply Hk, elem_of_union. by left.
      * apply (Honce k pre post' v); [done..| |done].
        rewrite fmap_app, not_elem_of_app in Hpost. tauto.
Qed.

Lemma tracks_assign_all d items :
  tracks d items (assign_all items (DictSetTemporary_init d)).
Proof.
  unfold assign_all.
  induction items as [|[key val] items IH] using rev_ind; [apply tracks_init|].
  rewrite foldl_app. simpl. by apply tracks_setitem.
Qed.

(** Where a state that [tracks] the assignments stands at [__exit__]. *)
Lemma tracks_exit d items self :
  tracks d items self →
  ∃ d', DictSetTemporary_exit self = Returns d' ∧
        dom d' = dom d ∧
        ∀ key, (key ∉ items.*1 ∨
                ∃ pre post val, items = (pre ++ (key, val) :: post) ∧
                                (key ∉ pre.*1) ∧ (key ∉ post.*1)) →
               d' !! key = d !! key.
Proof.
  intros (Hdom & Hrem & Hout & Hin & Honce).
  assert (Hbk : ∀ key, key ∈ dom (backup self) → key ∈ dom (dicty self)).
  { intros key Hk. destruct (decide (key ∈ items.*1)) as [Hi|Hi].
    - rewrite Hdom. apply elem_of_union. right. by apply elem_of_list_to_set.
    - destruct (Hout key Hi) as [Hnone _]. apply elem_of_dom in Hk as [v Hv].
      congruence. }
  assert (Hlook : ∀ key,
    foldr delete (backup self ∪ dicty self) (elements (remove self)) !! key =
    if decide (key ∈ remove self) then None else (backup self ∪ dicty self) !! key).
  { intros key. destruct (decide (key ∈ remove self)) as [Hr|Hr].
    - apply lookup_foldr_delete. by apply elem_of_elements.
    - apply lookup_foldr_delete_not_elem_of. by rewrite elem_of_elements. }
  unfold DictSetTemporary_exit. rewrite decide_True.
  - eexists. split; [done|]. split.
    + apply set_eq. intros key. rewrite !elem_of_dom, Hlook.
      destruct (decide (key ∈ remove self)) as [Hr|Hr].
      * rewrite Hrem in Hr. apply elem_of_difference in Hr as [_ Hr].
        rewrite elem_of_dom in Hr. split; [by intros [? ?]|done].
      * rewrite <- !elem_of_dom, dom_union_L, elem_of_union.
        split.
        -- intros Hk. assert (key ∈ dom (dicty self)) as Hd by (destruct Hk; auto).
           rewrite Hdom in Hd. apply elem_of_union in Hd as [Hd|Hd]; [done|].
           destruct (decide (key ∈ dom d)) as [?|Hnd]; [done|].
           exfalso. apply Hr. rewrite Hrem. by apply elem_of_difference.
        -- intros Hk. right. rewrite Hdom. apply elem_of_union. by left.
    + intros key Hkey. rewrite Hlook.
      destruct Hkey as [Hni|(pre & post & val & -> & Hpre & Hpost)].
      * rewrite decide_False.
        -- destruct (Hout key Hni) as [Hb Hd]. by rewrite lookup_union_r.
        -- rewrite Hrem. intros [Hk _]%elem_of_difference.
           by apply elem_of_list_to_set in Hk.
      * destruct (decide (key ∈ dom d)) as [Hd|Hd].
        -- rewrite decide_False
             by (rewrite Hrem; intros [_ ?]%elem_of_difference; done).
           pose proof (Honce key pre post val eq_refl Hpre Hpost Hd) as Hb.
           apply elem_of_dom in Hd as [v Hv]. rewrite Hv in Hb |- *.
           by apply lookup_union_Some_l.
        -- rewrite decide_True.
           ++ symmetry. by apply not_elem_of_dom.
           ++ rewrite Hrem. apply elem_of_difference. split; [|done].
              apply elem_of_list_to_set. rewrite fmap_app, fmap_cons.
              apply elem_of_app. right. apply list_elem_of_here.
  - intros key Hk. rewrite dom_union_L. apply elem_of_union. right.
    rewrite Hdom, Hrem in *. apply elem_of_difference in Hk as [Hk _].
    apply elem_of_union. by right.
Qed.

Lemma NoDup_fst_split (items : list (K * V)) (key : K) :
  NoDup items.*1 → key ∈ items.*1 →
  ∃ pre post val, items = (pre ++ (key, val) :: post) ∧
                  (key ∉ pre.*1) ∧ (key ∉ post.*1).
Proof.
  induction items as [|[k v] items IH]; simpl.
  - by intros _ ?%elem_of_nil.
  - intros [Hk Hnd]%NoDup_cons [->|Hin]%elem_of_cons.
    + exists [], items, v. split; [done|]. split; [apply not_elem_of_nil|done].
    + destruct (IH Hnd Hin) as (pre & post & val & -> & Hpre & Hpost).
      exists ((k, v) :: pre), post, val. split; [done|]. split; [|done].
      simpl. apply not_elem_of_cons. split; [|done].
      intros ->. apply Hk. rewrite fmap_app, fmap_cons, elem_of_app. right.
      apply list_elem_of_here.
Qed.
End dict_set_temporary.


(** X18. Whatever is assigned through a [DictSetTemporary], [__exit__]
    succeeds and the wrapped dictionary has its original keys again: no
    temporary key survives and no original key is lost. *)
Theorem temporary_assignments_restore_the_keys
    {K : Type} `{Countable K} {V : Type}
    (d : gmap K V) (items : list (K * V)) :
  ∃ d', DictSetTemporary_exit (assign_all items (DictSetTemporary_init d))
          = Returns d'
        ∧ dom d' = dom d.
Proof.
  destruct (tracks_exit d items _ (tracks_assign_all d items))
    as (d' & Hexit & Hdom & _).
  eauto.
Qed.

(** X19. Round trip: when every key is assigned at most once through the
    wrapper, [__exit__] gives back exactly the original dictionary. *)
Theorem temporary_assignments_are_undone
    {K : Type} `{Countable K} {V : Type}
    (d : gmap K V) (items : list (K * V)) :
  NoDup items.*1 →
  DictSetTemporary_exit (assign_all items (DictSetTemporary_init d)) = Returns d.
Proof.
  intros Hnd.
  destruct (tracks_exit d items _ (tracks_assign_all d items))
    as (d' & -> & _ & Hval).
  f_equal. apply map_eq. intros key. apply Hval.
  destruct (decide (key ∈ items.*1)) as [Hin|Hout]; [right|by left].
  by apply NoDup_fst_split.
Qed.

Lemma temporary_assignments_are_undone_witness :
  DictSetTemporary_exit
    (assign_all [("x", 10%nat); ("y", 20%nat)]
       (DictSetTemporary_init ({["x" := 1%nat]} : gmap string nat)))
  = Returns {["x" := 1%nat]}.
Proof.
  apply (temporary_assignments_are_undone ({["x" := 1%nat]} : gmap string nat)
           [("x", 10%nat); ("y", 20%nat)]).
  repeat constructor; set_solver.
Defined.

(** X20. The backup keeps the last value seen, not the first: a key of the
    original dictionary that is assigned twice through the wrapper comes out
    of [__exit__] with the first temporary value, and its original value is
    lost. *)
Theorem temporary_double_assignment_loses_the_original
    {K : Type} `{Countable K} {V : Type}
    (d : gmap K V) (key : K) (v0 v1 v2 : V) :
  d !! key = Some v0 →
  DictSetTemporary_exit
    (assign_all [(key, v1); (key, v2)] (DictSetTemporary_init d))
  = Returns (<[key := v1]> d).
Proof.
  intros Hv. unfold assign_all, DictSetTemporary_setitem, DictSetTemporary_init.
  simpl. rewrite Hv. simpl. rewrite lookup_insert_eq. simpl.
  unfold DictSetTemporary_exit. simpl.
  rewrite decide_True by apply empty_subseteq.
  rewrite elements_empty. simpl. f_equal.
  apply map_eq. intros k. destruct (decide (k = key)) as [->|Hne].
  - rewrite lookup_insert_eq. apply lookup_union_Some_l. apply lookup_insert_eq.
  - rewrite lookup_union_r by (by rewrite !lookup_insert_ne, lookup_empty).
    by repeat first [rewrite lookup_insert_ne by done
                    |rewrite lookup_delete_ne by done].
Qed.

Lemma temporary_double_assignment_loses_the_original_witness :
  DictSetTemporary_exit
    (assign_all [("x", 10%nat); ("x", 20%nat)]
       (DictSetTemporary_init ({["x" := 1%nat]} : gmap string nat)))
  = Returns (<["x" := 10%nat]> {["x" := 1%nat]}).
Proof.
  apply (temporary_double_assignment_loses_the_original
           ({["x" := 1%nat]} : gmap string nat) "x" 1%nat).
  apply lookup_singleton_eq.
Defined.

(** X21. Deleting through the wrapper: a deleted key is back after
    [__exit__]; but a key deleted and then assigned again is popped by
    [__exit__] and is missing from the dictionary afterwards. Deleting a
    missing key raises [KeyError]. *)
Theorem temporary_delete_then_assign_loses_the_key
    {K : Type} `{Countable K} {V : Type}
    (d : gmap K V) (key : K) (v0 v1 : V) :
  d !! key = Some v0 →
  (∃ st, DictSetTemporary_delitem key (DictSetTemporary_init d) = Returns st ∧
         DictSetTemporary_exit st = Returns d ∧
         DictSetTemporary_exit (DictSetTemporary_setitem key v1 st)
           = Returns (delete key d) ∧
         DictSetTemporary_delitem key st = Raises KeyError).
Proof.
  intros Hv. unfold DictSetTemporary_delitem, DictSetTemporary_init. simpl.
  rewrite Hv. eexists. split; [done|]. simpl. split; [|split].
  - unfold DictSetTemporary_exit. simpl.
    rewrite decide_True by apply empty_subseteq.
    rewrite elements_empty. simpl. f_equal.
    apply map_eq. intros k. destruct (decide (k = key)) as [->|Hne].
    + rewrite Hv. apply lookup_union_Some_l. apply lookup_insert_eq.
    + rewrite lookup_union_r by (by rewrite lookup_insert_ne, lookup_empty).
      by rewrite lookup_delete_ne.
  - unfold DictSetTemporary_setitem. simpl. rewrite lookup_delete_eq. simpl.
    unfold DictSetTemporary_exit. simpl.
    rewrite decide_True.
    + rewrite (right_id_L ∅ (∪)), elements_singleton. simpl. f_equal.
      apply map_eq. intros k. destruct (decide (k = key)) as [->|Hne].
      * by rewrite !lookup_delete_eq.
      * rewrite !lookup_delete_ne by done.
        rewrite lookup_union_r by (by rewrite lookup_insert_ne, lookup_empty).
        by rewrite lookup_insert_ne, lookup_delete_ne.
    + rewrite (right_id_L ∅ (∪)). apply singleton_subseteq_l.
      rewrite dom_union_L, dom_insert_L. apply elem_of_union. left.
      apply elem_of_union. left. by apply elem_of_singleton.
  - by rewrite lookup_delete_eq.
Qed.

Lemma temporary_delete_then_assign_loses_the_key_witness :
  ∃ st, DictSetTemporary_delitem "x"
          (DictSetTemporary_init ({["x" := 1%nat]} : gmap string nat)) = Returns st ∧
        DictSetTemporary_exit st = Returns {["x" := 1%nat]} ∧
        DictSetTemporary_exit (DictSetTemporary_setitem "x" 2%nat st)
          = Returns (delete "x" {["x" := 1%nat]}) ∧
        DictSetTemporary_delitem "x" st = Raises KeyError.
Proof.
  apply (temporary_delete_then_assign_loses_the_key
           ({["x" := 1%nat]} : gmap string nat) "x" 1%nat 2%nat).
  apply lookup_singleton_eq.
Defined.

(** * hercules.decorators.memoize_methodcalls *)

(** Which values can be dictionary keys: [hash] fails on a list, and on a
    tuple that holds one. *)
Fixpoint hashable (v : value) : bool :=
  let fix all_hashable (items : list value) : bool :=
    match items with
    | [] => true
    | x :: rest => hashable x && all_hashable rest
    end in
  match v with
  | VList _ => false
  | VTuple items => all_hashable items
  | _ => true
  end.

Section memoize_methodcalls.
Context {S B : Type} `{EqDecision B}.

(** The arguments of the decorator: the decorated [func], called as
    [func(self, args, kwargs)], the flag [pickle] and the serializer
    [dumps]. *)
Context (func : S → list value → kwargs → result value)
        (pickle : bool)
        (dumps : list value → kwargs → result B).

(** The key of a call: the tuple [args], or the bytes [dumps((args,
    kwargs))]. *)
Inductive memo_key : Type :=
| ArgsKey (args : list value)
| PickledKey (pickled : B).

Global Instance memo_key_eq_dec : EqDecision memo_key.
Proof. solve_decision. Defined.

(** The dictionary [cache], shared by all the calls of the memoizer. *)
Definition memo_cache : Type := list (memo_key * value).

Fixpoint cache_get (cache : memo_cache) (key : memo_key) : option value :=
  match cache with
  | [] => None
  | (k, v) :: rest => if decide (k = key) then Some v else cache_get rest key
  end.

(** The key, or the error of building or hashing it. *)
Definition memo_key_of (args : list value) (kw : kwargs) : result memo_key :=
  if pickle then PickledKey <$> dumps args kw
  else if forallb hashable args then Ok (ArgsKey args) else Err TypeError.

(** [memoizer(self, args, kwargs)]. *)
Definition memoizer (self : S) (args : list value) (kw : kwargs)
    (cache : memo_cache) : result value * memo_cache :=
  match memo_key_of args kw with
  | Err e => (Err e, cache)
  | Ok key =>
      match cache_get cache key with
      | Some v => (Ok v, cache)
      | None =>
          match func self args kw with
          | Ok v => (Ok v, cache ++ [(key, v)])
          | Err e => (Err e, cache)
          end
      end
  end.

(** A run of calls of the memoizer. *)
Fixpoint memoizer_calls (calls : list (S * list value * kwargs))
    (cache : memo_cache) : memo_cache :=
  match calls with
  | [] => cache
  | (self, args, kw) :: rest =>
      memoizer_calls rest (snd (memoizer self args kw cache))
  end.

Lemma cache_get_app cache key more :
  cache_get (cache ++ more) key =
    match cache_get cache key with
    | Some v => Some v
    | None => cache_get more key
    end.
Proof.
  induction cache as [|[k v] cache IH]; simpl; [by destruct (cache_get more key)|].
  by destruct (decide (k = key)).
Qed.

Lemma memoizer_keeps_entries self args kw cache key v :
  cache_get cache key = Some v →
  cache_get (snd (memoizer self args kw cache)) key = Some v.
Proof.
  intros Hget. unfold memoizer.
  destruct (memo_key_of args kw) as [k|e]; [|done].
  destruct (cache_get cache k); [done|].
  destruct (func self args kw); [|done].
  simpl. by rewrite cache_get_app, Hget.
Qed.
End memoize_methodcalls.

(** X22. Without pickling the cache key is the tuple of positional
    arguments alone. Once a call has returned, every later call with the
    same positional arguments returns that same value without running the
    function, whatever instance it is called on and whatever keyword
    arguments it is given, and whatever calls were made in between. *)
Theorem memoizer_ignores_instance_and_keywords
    {S B : Type} `{EqDecision B}
    (func : S → list value → kwargs → result value)
    (dumps : list value → kwargs → result B)
    (self self' : S) (args : list value) (kw kw' : kwargs)
    (cache : memo_cache) (between : list (S * list value * kwargs))
    (v : value) :
  fst (memoizer func false dumps self args kw cache) = Ok v →
  let cache' := memoizer_calls func false dumps between
                  (snd (memoizer func false dumps self args kw cache)) in
  memoizer func false dumps self' args kw' cache' = (Ok v, cache').
Proof.
  intros Hfirst cache'.
  assert (Hkey : memo_key_of false dumps args kw = Ok (ArgsKey args) ∧
                 memo_key_of false dumps args kw' = Ok (ArgsKey args)).
  { revert Hfirst. unfold memoizer, memo_key_of.
    destruct (forallb hashable args); [done|]. simpl. discriminate. }
  destruct Hkey as [Hk Hk'].
  assert (Hget : cache_get (snd (memoizer func false dumps self args kw cache))
                   (ArgsKey args) = Some v).
  { revert Hfirst. unfold memoizer. rewrite Hk.
    destruct (cache_get cache (ArgsKey args)) as [w|] eqn:Hw; simpl.
    - by intros [= ->].
    - destruct (func self args kw) as [w|e]; simpl; [|discriminate].
      intros [= ->]. rewrite cache_get_app, Hw. simpl.
      by rewrite decide_True. }
  assert (Hget' : cache_get cache' (ArgsKey args) = Some v).
  { unfold cache'. clear cache' Hfirst.
    revert Hget. generalize (snd (memoizer func false dumps self args kw cache)).
    induction between as [|[[s a] k] between IH]; intros c Hc; simpl; [done|].
    apply IH. by apply memoizer_keeps_entries. }
  unfold memoizer. by rewrite Hk', Hget'.
Qed.

(** A method that returns the number of the instance it runs on. *)
Definition which_instance (self : nat) (args : list value) (kw : kwargs)
    : result value :=
  Ok (VInt (Z.of_nat self)).

Lemma memoizer_ignores_instance_and_keywords_witness :
  memoizer which_instance false (λ _ _, Ok ()) 2%nat [VStr "a"] {["k" := VInt 1]}
    (memoizer_calls which_instance false (λ _ _, Ok ())
       [(3%nat, [VStr "b"], ∅)]
       (snd (memoizer which_instance false (λ _ _, Ok ()) 1%nat [VStr "a"] ∅ [])))
  = (Ok (VInt 1),
     [(ArgsKey [VStr "a"], VInt 1); (ArgsKey [VStr "b"], VInt 3)]).
Proof.
  apply (memoizer_ignores_instance_and_keywords which_instance (λ _ _, Ok ())
           1%nat 2%nat [VStr "a"] ∅ {["k" := VInt 1]} []
           [(3%nat, [VStr "b"], ∅)] (VInt 1)).
  reflexivity.
Defined.

(** X23. What a call of the memoizer leaves in the cache: a result that was
    returned is stored under the key of the call, a call that raises stores
    nothing (so it is run again next time), and no entry already in the
    cache is ever replaced or dropped. *)
Theorem memoizer_cache_only_grows
    {S B : Type} `{EqDecision B}
    (func : S → list value → kwargs → result value) (pickle : bool)
    (dumps : list value → kwargs → result B)
    (self : S) (args : list value) (kw : kwargs) (cache : memo_cache)
    (key : memo_key) (w : value) :
  cache_get cache key = Some w →
  cache_get (snd (memoizer func pickle dumps self args kw cache)) key = Some w
  ∧ match fst (memoizer func pickle dumps self args kw cache) with
    | Ok v => ∃ k, memo_key_of pickle dumps args kw = Ok k ∧
                   cache_get (snd (memoizer func pickle dumps self args kw cache)) k
                     = Some v
    | Err _ => snd (memoizer func pickle dumps self args kw cache) = cache
    end.
Proof.
  intros Hget. split; [by apply memoizer_keeps_entries|].
  unfold memoizer. destruct (memo_key_of pickle dumps args kw) as [k|e]; [|done].
  destruct (cache_get cache k) as [v|] eqn:Hk; simpl; [eauto|].
  destruct (func self args kw) as [v|e]; simpl; [|done].
  exists k. split; [done|]. rewrite cache_get_app, Hk. simpl.
  by rewrite decide_True.
Qed.

Lemma memoizer_cache_only_grows_witness :
  cache_get (snd (memoizer which_instance false (λ _ _, Ok ()) 5%nat
                    [VList []] ∅ [(ArgsKey [VStr "a"], VInt 1)]))
            (ArgsKey [VStr "a"]) = Some (VInt 1)
  ∧ snd (memoizer which_instance false (λ _ _, Ok ()) 5%nat
           [VList []] ∅ [(ArgsKey [VStr "a"], VInt 1)])
    = [(ArgsKey [VStr "a"], VInt 1)].
Proof.
  destruct (memoizer_cache_only_grows which_instance false (λ _ _, Ok ())
              5%nat [VList []] ∅ [(ArgsKey [VStr "a"], VInt 1)]
              (ArgsKey [VStr "a"]) (VInt 1) eq_refl) as [Hkept Hcall].
  split; [exact Hkept|exact Hcall].
Defined.

(** * hercules.loop_interface *)

Section loop_interface.
Context {A : Type}.

(** [ListIteratorBase] / [LoopInterface]: the wrapped list and the
    counter. *)
Record LoopInterface : Type := Loop { listy : list A; counter : nat }.

(** [loop(listy)]. *)
Definition loop (l : list A) : LoopInterface := Loop l 0.

(** [next()]: [None] stands for [StopIteration]; the [finally] clause
    bumps the counter when a value is returned. *)
Definition LoopInterface_next (self : LoopInterface)
    : option A * LoopInterface :=
  match listy self !! counter self with
  | Some val => (Some val, Loop (listy self) (S (counter self)))
  | None => (None, self)
  end.

(** The properties [first], [last] and [counter0]. *)
Definition LoopInterface_first (self : LoopInterface) : bool :=
  bool_decide (counter self = 1%nat).

Definition LoopInterface_last (self : LoopInterface) : bool :=
  bool_decide (counter self = length (listy self)).

Definition LoopInterface_counter0 (self : LoopInterface) : Z :=
  Z.of_nat (counter self) - 1.

(** [for thing in loop: ...] with a body that leaves the loop object alone:
    the items in the order of the visit, each with the loop object as the
    body sees it, and the loop object after the loop. [fuel] bounds the
    turns of [while True]; [None] means it ran out. *)
Fixpoint LoopInterface_iter (fuel : nat) (self : LoopInterface)
    : option (list (A * LoopInterface) * LoopInterface) :=
  match fuel with
  | O => None
  | S fuel' =>
      match LoopInterface_next self with
      | (Some val, self') =>
          (λ '(seen, final), ((val, self') :: seen, final))
            <$> LoopInterface_iter fuel' self'
      | (None, self') => Some ([], self')
      end
  end.

(** The visit from an arbitrary counter. *)
Lemma LoopInterface_iter_from (l : list A) (c fuel : nat) :
  (length l - c < fuel)%nat →
  LoopInterface_iter fuel (Loop l c) =
    Some (imap (λ i x, (x, Loop l (S (c + i)))) (drop c l),
          Loop l (max c (length l))).
Proof.
  revert c. induction fuel as [|fuel IH]; intros c Hfuel; [lia|].
  cbn [LoopInterface_iter]. unfold LoopInterface_next. cbn [listy counter].
  destruct (l !! c) as [x|] eqn:Hx.
  - pose proof (lookup_lt_Some _ _ _ Hx) as Hlt.
    rewrite IH by lia. cbn.
    rewrite (drop_S l x c Hx). cbn [imap].
    f_equal. f_equal.
    + f_equal; [by rewrite Nat.add_0_r|].
      apply imap_ext. intros i y _. simpl. do 2 f_equal. lia.
    + f_equal. lia.
  - apply lookup_ge_None in Hx.
    rewrite drop_ge by done. simpl. do 3 f_equal. lia.
Qed.
End loop_interface.

Lemma fst_imap_pair {A B} (g : nat → B) (l : list A) :
  (imap (λ i x, (x, g i)) l).*1 = l.
Proof.
  revert g. induction l as [|x l IH]; intros g; [done|].
  cbn. f_equal. apply (IH (g ∘ S)).
Qed.

(** X24. A loop over a fresh [LoopInterface] visits every element of the
    list once, in order, and ends with the counter at the length of the
    list. At the element of index [i] the body sees [counter0 = i],
    [first] exactly at the first element and [last] exactly at the last
    one. *)
Theorem loop_visits_every_element
    {A : Type} (l : list A) (fuel : nat) :
  (length l < fuel)%nat →
  ∃ seen, LoopInterface_iter fuel (loop l) = Some (seen, Loop l (length l)) ∧
          seen.*1 = l ∧
          ∀ i x st, seen !! i = Some (x, st) →
            LoopInterface_counter0 st = Z.of_nat i ∧
            LoopInterface_first st = bool_decide (i = 0%nat) ∧
            LoopInterface_last st = bool_decide (S i = length l).
Proof.
  intros Hfuel. unfold loop.
  rewrite (LoopInterface_iter_from l 0 fuel) by lia.
  rewrite drop_0, Nat.max_0_l. eexists. split; [done|]. split.
  - apply (fst_imap_pair (λ i, Loop l (S (0 + i)))).
  - intros i x st Hi. apply list_lookup_imap_Some in Hi as (y & Hy & [= -> ->]).
    unfold LoopInterface_counter0, LoopInterface_first, LoopInterface_last. simpl. split; [lia|]. split.
    + apply bool_decide_ext. lia.
    + done.
Qed.

Lemma loop_visits_every_element_witness :
  ∃ seen, LoopInterface_iter 4 (loop ["A"; "B"; "C"])
            = Some (seen, Loop ["A"; "B"; "C"] 3) ∧
          seen.*1 = ["A"; "B"; "C"] ∧
          ∀ i x st, seen !! i = Some (x, st) →
            LoopInterface_counter0 st = Z.of_nat i ∧
            LoopInterface_first st = bool_decide (i = 0%nat) ∧
            LoopInterface_last st = bool_decide (S i = length ["A"; "B"; "C"]).
Proof.
  apply (loop_visits_every_element ["A"; "B"; "C"] 4). simpl. lia.
Defined.

(** X25. The counter is never reset: a [LoopInterface] that has been
    iterated to the end yields nothing when it is iterated again, and one
    that was left part-way resumes after the last element it returned. *)
Theorem loop_is_not_restartable
    {A : Type} (l : list A) (c fuel : nat) :
  (length l - c < fuel)%nat →
  ∃ seen final,
    LoopInterface_iter fuel (Loop l c) = Some (seen, final) ∧
    seen.*1 = drop c l ∧
    LoopInterface_iter fuel final = Some ([], final).
Proof.
  intros Hfuel. rewrite (LoopInterface_iter_from l c fuel) by lia.
  eexists _, _. split; [done|]. split.
  - apply (fst_imap_pair (λ i, Loop l (S (c + i)))).
  - rewrite (LoopInterface_iter_from l _ fuel) by lia.
    rewrite drop_ge by lia. simpl. do 3 f_equal. lia.
Qed.

Lemma loop_is_not_restartable_witness :
  ∃ seen final,
    LoopInterface_iter 4 (Loop ["A"; "B"; "C"] 1) = Some (seen, final) ∧
    seen.*1 = drop 1 ["A"; "B"; "C"] ∧
    LoopInterface_iter 4 final = Some ([], final).
Proof.
  apply (loop_is_not_restartable ["A"; "B"; "C"] 1 4). simpl. lia.
Defined.


(** * Two more facts about the engine's helpers *)

Lemma first_occurrences_sublist {A} `{EqDecision A} (seen l : list A) :
  first_occurrences seen l `sublist_of` l.
Proof.
  revert seen. induction l as [|a l IH]; intros seen; simpl; [done|].
  destruct (decide (a ∈ seen)).
  - by apply sublist_cons.
  - by apply sublist_skip.
Qed.

(** X26. The decorator [dedupe] keeps the first occurrence of every result,
    in order. What it yields is what the wrapped generator yields with some
    results left out, the order kept; nothing is yielded twice and nothing
    is lost; a result is yielded at the place of its first occurrence:
    what is kept before it comes from the results before that occurrence,
    and what is kept after it from the results after. It passes the
    generator's exception through, and applying it twice changes
    nothing. *)
Theorem dedupe_keeps_first_occurrences
    {A : Type} `{EqDecision A} (t : trace A) :
  NoDup (yields (dedupe t))
  ∧ (∀ x, x ∈ yields (dedupe t) ↔ x ∈ yields t)
  ∧ yields (dedupe t) `sublist_of` yields t
  ∧ (∀ before x after,
       yields t = before ++ x :: after → x ∉ before →
       ∃ kept later,
         yields (dedupe t) = kept ++ x :: later
         ∧ kept `sublist_of` before ∧ later `sublist_of` after)
  ∧ raised (dedupe t) = raised t
  ∧ yields (dedupe (dedupe t)) = yields (dedupe t).
Proof.
  unfold dedupe. rewrite !yields_dedupe_from, raised_dedupe_from.
  split; [apply first_occurrences_NoDup|].
  split; [|split; [apply first_occurrences_sublist|split; [|split; [done|]]]].
  - intros x. split.
    + by intros [? _]%first_occurrences_fresh.
    + intros Hx. apply first_occurrences_elem; [done|apply not_elem_of_nil].
  - intros before x after -> Hfresh.
    rewrite first_occurrences_app, app_nil_r. cbn [first_occurrences].
    rewrite decide_False by done.
    exists (first_occurrences [] before),
           (first_occurrences (x :: before) after).
    split; [done|]. split; apply first_occurrences_sublist.
  - pose proof (first_occurrences_NoDup [] (yields t)) as Hnd.
    revert Hnd. generalize (first_occurrences [] (yields t)). intros l Hnd.
    assert (∀ seen, (∀ x, x ∈ l → x ∉ seen) → first_occurrences seen l = l)
      as Hid.
    { induction Hnd as [|a l Ha Hnd IH]; intros seen Hdisj; [done|].
      simpl. rewrite decide_False by (apply Hdisj; by left).
      f_equal. apply IH. intros x Hx [->|Hs]%elem_of_cons; [done|].
      apply (Hdisj x); [by right|done]. }
    apply Hid. intros x _. apply not_elem_of_nil.
Qed.

Lemma dedupe_keeps_first_occurrences_witness :
  ∃ kept later,
    yields (dedupe (yield_all [3; 1; 3; 2; 1]%nat)) = kept ++ 2%nat :: later
    ∧ kept `sublist_of` [3; 1; 3]%nat ∧ later `sublist_of` [1]%nat.
Proof.
  destruct (dedupe_keeps_first_occurrences (yield_all [3; 1; 3; 2; 1]%nat))
    as (_ & _ & _ & Hfirst & _).
  apply (Hfirst [3; 1; 3]%nat 2%nat [1]%nat); [reflexivity|].
  intros Hin. repeat (apply elem_of_cons in Hin as [?|Hin]; [done|]).
  by apply elem_of_nil in Hin.
Defined.

(** X27. [RegexDispatcher.prepare] compiles the keys in registry order: the
    prepared data has one compiled pattern per registration, under the same
    handler names in the same order; and it fails with the error of the
    first key that does not compile. *)
Theorem regex_prepare_keeps_registry_order
    (RT : runtime) (reg : list (invoc * string)) :
  match compile_registry RT reg with
  | Ok data =>
      data.*2 = reg.*2 ∧
      Forall2 (λ entry compiled,
                 re_compile RT (loads entry.1).1 (loads entry.1).2
                   = Ok compiled.1) reg data
  | Err e =>
      ∃ pre entry post, reg = pre ++ entry :: post ∧
        (∃ data, compile_registry RT pre = Ok data) ∧
        re_compile RT (loads entry.1).1 (loads entry.1).2 = Err e
  end.
Proof.
  induction reg as [|[[a k] name] reg IH]; simpl; [by split; [|constructor]|].
  destruct (re_compile RT (unpickled <$> a) (unpickled <$> k))
    as [rgx|e] eqn:Hc; simpl.
  - destruct (compile_registry RT reg) as [data|e]; simpl.
    + destruct IH as [Hnames Hall]. split; [|by constructor].
      change (name :: data.*2 = name :: reg.*2). by rewrite Hnames.
    + destruct IH as (pre & entry & post & -> & [data Hpre] & Hbad).
      exists ((a, k, name) :: pre), entry, post. split; [done|]. split; [|done].
      simpl. rewrite Hc. simpl. rewrite Hpre. simpl. eauto.
  - exists [], (a, k, name), reg. split; [done|]. split; [by exists []|done].
Qed.
